(** * Stan special functions and log-density evaluators

    A shallow embedding of
      - [stan/math/special_functions.hpp]  (namespace [stan::math]),
      - [stan/prob/.../binomial.hpp] and [stan/prob/.../wishart.hpp]
        (namespace [stan::prob]),
    together with the properties the specification states about them.

    Scalars.  The C++ type [double] is modelled by the extended reals with a
    not-a-number element: the two infinities and NaN follow IEEE 754, and
    zero is unsigned (it stands for [+0.0]).  Comparisons are boolean and, as
    in C++, every ordered comparison with NaN is [false].  Arithmetic on
    finite values comes in two readings.  The exact one ([dadd], [dexp],
    ...) neither rounds nor overflows; what is proved in it either does not
    depend on rounding or says that it is about exact arithmetic.  The
    machine one (section "Binary64 rounding", module [Rounded]) rounds every
    finite result to the nearest binary64 value and overflows to an
    infinity; the properties that rounding decides are proved in it.

    Control flow.  A C++ exception is a [Throw]; a validation failure under
    the error-handling policy is a [Rejected] evaluation that carries the
    policy's sentinel. *)

From Stdlib Require Import Reals Lra Lia ZArith List String Bool.
Import ListNotations.

Local Open Scope string_scope.
Local Open Scope R_scope.

(** ** The scalar type [double] *)

Inductive double : Type :=
| Fin (r : R)
| PInf
| NInf
| NaN.

Declare Scope double_scope.
Delimit Scope double_scope with D.
Bind Scope double_scope with double.

Definition Rltb (a b : R) : bool := if Rlt_dec a b then true else false.
Definition Reqb (a b : R) : bool := if Req_dec_T a b then true else false.

Arguments Rltb : simpl never.
Arguments Reqb : simpl never.

(** Decimal literals such as [1e-9] stay as written under reduction. *)
#[local] Arguments Z.pow_pos : simpl never.

Definition is_finite (a : double) : bool :=
  match a with Fin _ => true | _ => false end.

Definition is_nan (a : double) : bool :=
  match a with NaN => true | _ => false end.

(** [a < b] *)
Definition dlt (a b : double) : bool :=
  match a, b with
  | NaN, _ | _, NaN => false
  | Fin x, Fin y => Rltb x y
  | NInf, NInf => false
  | NInf, _ => true
  | PInf, _ => false
  | Fin _, PInf => true
  | Fin _, NInf => false
  end.

(** [a == b] *)
Definition deq (a b : double) : bool :=
  match a, b with
  | Fin x, Fin y => Reqb x y
  | PInf, PInf => true
  | NInf, NInf => true
  | _, _ => false
  end.

Definition dgt (a b : double) : bool := dlt b a.
Definition dle (a b : double) : bool := dlt a b || deq a b.
Definition dge (a b : double) : bool := dle b a.
Definition dne (a b : double) : bool := negb (deq a b).

(** [- a] *)
Definition dneg (a : double) : double :=
  match a with
  | Fin x => Fin (- x)
  | PInf => NInf
  | NInf => PInf
  | NaN => NaN
  end.

(** [a + b] *)
Definition dadd (a b : double) : double :=
  match a, b with
  | NaN, _ | _, NaN => NaN
  | Fin x, Fin y => Fin (x + y)
  | PInf, NInf | NInf, PInf => NaN
  | PInf, _ | _, PInf => PInf
  | NInf, _ | _, NInf => NInf
  end.

(** [a - b] *)
Definition dsub (a b : double) : double := dadd a (dneg b).

(** An infinity times the finite value [x]. *)
Definition scale_inf (positive : bool) (x : R) : double :=
  if Rltb 0 x then (if positive then PInf else NInf)
  else if Rltb x 0 then (if positive then NInf else PInf)
  else NaN.

(** [a * b] *)
Definition dmul (a b : double) : double :=
  match a, b with
  | NaN, _ | _, NaN => NaN
  | Fin x, Fin y => Fin (x * y)
  | PInf, Fin x | Fin x, PInf => scale_inf true x
  | NInf, Fin x | Fin x, NInf => scale_inf false x
  | PInf, PInf | NInf, NInf => PInf
  | PInf, NInf | NInf, PInf => NInf
  end.

(** [a / b]; a zero divisor is [+0.0]. *)
Definition ddiv (a b : double) : double :=
  match a, b with
  | NaN, _ | _, NaN => NaN
  | Fin x, Fin y => if Reqb y 0 then scale_inf true x else Fin (x / y)
  | Fin _, _ => Fin 0
  | PInf, Fin y => if Rltb y 0 then NInf else PInf
  | NInf, Fin y => if Rltb y 0 then PInf else NInf
  | _, _ => NaN
  end.

(** [fabs(a)] *)
Definition dabs (a : double) : double :=
  match a with
  | Fin x => Fin (Rabs x)
  | PInf | NInf => PInf
  | NaN => NaN
  end.

(** [std::exp] *)
Definition dexp (a : double) : double :=
  match a with
  | Fin x => Fin (exp x)
  | PInf => PInf
  | NInf => Fin 0
  | NaN => NaN
  end.

(** [std::log] *)
Definition dlog (a : double) : double :=
  match a with
  | Fin x => if Rltb 0 x then Fin (ln x) else if Rltb x 0 then NaN else NInf
  | PInf => PInf
  | NInf | NaN => NaN
  end.

(** Conversion of an integer value to [double]. *)
Definition of_Z (z : Z) : double := Fin (IZR z).

Infix "+" := dadd : double_scope.
Infix "-" := dsub : double_scope.
Infix "*" := dmul : double_scope.
Infix "/" := ddiv : double_scope.
Notation "- a" := (dneg a) : double_scope.
Infix "<?" := dlt (at level 70, no associativity) : double_scope.
Infix ">?" := dgt (at level 70, no associativity) : double_scope.
Infix "==?" := deq (at level 70, no associativity) : double_scope.
Infix "!=?" := dne (at level 70, no associativity) : double_scope.
Infix ">=?" := dge (at level 70, no associativity) : double_scope.
Infix "<=?" := dle (at level 70, no associativity) : double_scope.

(** ** Exceptions, undefined behaviour and the result monad *)

Inductive exn : Type :=
| domain_error (what : string)
| invalid_argument (what : string).

(** What running a piece of C++ yields: a value, a thrown exception, or
    undefined behaviour (signed overflow, integer division by zero). *)
Inductive result (A : Type) : Type :=
| Ok (a : A)
| Throw (e : exn)
| Undefined.

Arguments Ok {A} a.
Arguments Throw {A} e.
Arguments Undefined {A}.

Definition bind {A B : Type} (m : result A) (f : A -> result B) : result B :=
  match m with
  | Ok a => f a
  | Throw e => Throw e
  | Undefined => Undefined
  end.

Notation "x <- m ;; k" := (bind m (fun x => k))
  (at level 61, m at next level, right associativity).

Definition is_domain_error {A : Type} (m : result A) : bool :=
  match m with Throw (domain_error _) => true | _ => false end.

Definition returns {A : Type} (m : result A) : bool :=
  match m with Ok _ => true | _ => false end.

(** ** Machine integers *)

Definition INT_MIN : Z := (- 2 ^ 31)%Z.
Definition INT_MAX : Z := (2 ^ 31 - 1)%Z.

Definition in_int (z : Z) : bool := ((INT_MIN <=? z) && (z <=? INT_MAX))%Z.

(** The value of a signed [int] operation; leaving the range is undefined. *)
Definition int_result (z : Z) : result Z :=
  if in_int z then Ok z else Undefined.

(** [unsigned int] arithmetic wraps modulo 2^32. *)
Definition uint (z : Z) : Z := (z mod 2 ^ 32)%Z.

(** ** Scalar types a template is instantiated with

    [binomial_coefficient_log] is a template over the types of [N] and [n];
    it is called with [double] arguments directly and with [int] arguments by
    [binomial_log].  The class lists the operators its body uses. *)

Class Number (T : Type) : Type := {
  lit : Z -> T;                    (* an integer literal used at type T *)
  to_double : T -> double;         (* the usual arithmetic conversion *)
  nsub : T -> T -> result T;
  nmul : T -> T -> result T;
  ndiv : T -> T -> result T
}.

#[export] Instance Number_double : Number double := {
  lit := of_Z;
  to_double := fun a => a;
  nsub := fun a b => Ok (a - b)%D;
  nmul := fun a b => Ok (a * b)%D;
  ndiv := fun a b => Ok (a / b)%D
}.

#[export] Instance Number_int : Number Z := {
  lit := fun z => z;
  to_double := of_Z;
  nsub := fun a b => int_result (a - b);
  nmul := fun a b => int_result (a * b);
  ndiv := fun a b => if (b =? 0)%Z then Undefined else int_result (Z.quot a b)
}.

(** ** [stan::math]: special functions *)

Section SpecialFunctions.

(** The C library's log-gamma on the reals; [lgamma] extends it to [double]
    as C99 does: a pole (a non-positive integer) and both infinities give
    [+inf]. *)
Variable lgammaR : R -> R.

Definition is_pole (r : R) : bool :=
  negb (Rltb 0 r) && Reqb (IZR (up r) - 1) r.

Definition lgamma (a : double) : double :=
  match a with
  | Fin r => if is_pole r then PInf else Fin (lgammaR r)
  | PInf | NInf => PInf
  | NaN => NaN
  end.

(** [binomial_coefficient_log(N, n)] *)
Definition binomial_coefficient_log {T : Type} `{Number T} (N n : T)
  : result double :=
  let cutoff := Fin 1000 in
  N_n <- nsub N n ;;
  if (to_double N <? cutoff)%D || (to_double N_n <? cutoff)%D then
    Ok (lgamma (to_double N + Fin 1.0) - lgamma (to_double n + Fin 1.0)
        - lgamma (to_double N_n + Fin 1.0))%D
  else
    q <- ndiv N N_n ;;
    t12N <- nmul (lit 12) N ;;
    a <- ndiv (lit 1) t12N ;;
    t12N_n <- nmul (lit 12) N_n ;;
    b <- ndiv (lit 1) t12N_n ;;
    Ok (to_double n * dlog (to_double N_n)
        + (to_double N + Fin 0.5) * dlog (to_double q)
        + to_double a - to_double n - to_double b
        - lgamma (to_double n + Fin 1.0))%D.

(** [inv_logit(a)] *)
Definition inv_logit (a : double) : double :=
  (Fin 1.0 / (Fin 1.0 + dexp (- a)))%D.

(** The helper [maximum<Vector,Scalar>(x)] of the anonymous namespace. *)
Definition maximum (x : list double) : result double :=
  match x with
  | [] => Throw (invalid_argument "x must have at least one element")
  | x0 :: rest =>
      Ok (fold_left (fun max_x xi => if (xi <? max_x)%D then xi else max_x)
                    rest x0)
  end.

(** First loop of [softmax]: [simplex[i] = exp(x[i]-max_x); sum += simplex[i]].
    It runs over the indices of [x] and overwrites as many cells. *)
Fixpoint softmax_exp (max_x : double) (x simplex : list double) (sum : double)
  : list double * double :=
  match x, simplex with
  | xi :: x', _ :: simplex' =>
      let si := dexp (xi - max_x) in
      let '(filled, sum') := softmax_exp max_x x' simplex' (sum + si)%D in
      (si :: filled, sum')
  | _, _ => (simplex, sum)
  end.

(** Second loop of [softmax]: [simplex[i] /= sum]. *)
Definition softmax_normalize (simplex : list double) (sum : double)
  : list double :=
  map (fun si => (si / sum)%D) simplex.

(** [softmax(x, simplex)]; the result is the output vector [simplex]. *)
Definition softmax (x simplex : list double) : result (list double) :=
  if negb (List.length x =? List.length simplex)%nat then
    Throw (invalid_argument "x.size() != simplex.size()")
  else
    max_x <- maximum x ;;
    let '(filled, sum) := softmax_exp max_x x simplex (Fin 0.0) in
    Ok (softmax_normalize filled sum).

(** The arguments [x[i]-max_x] that [softmax] passes to [exp]. *)
Definition softmax_exponents (x : list double) : result (list double) :=
  max_x <- maximum x ;;
  Ok (map (fun xi => (xi - max_x)%D) x).

(** [log1p(x)] *)
Definition log1p (x : double) : result double :=
  if (x <? Fin (-1.0))%D then
    Throw (domain_error "x can not be less than -1")
  else if (x >? Fin 1e-9)%D || (x <? Fin (-1e-9))%D then
    Ok (dlog (Fin 1.0 + x))%D
  else if (x >? Fin 1e-16)%D || (x <? Fin (-1e-16))%D then
    Ok (x - Fin 0.5 * x * x)%D
  else
    Ok x.

(** [log1m(x)] *)
Definition log1m (x : double) : result double := log1p (- x)%D.

Definition LOG_PI_OVER_FOUR : double := Fin (ln PI / 4.0).

(** [lmgamma(k, x)], [k] an [unsigned int]. *)
Definition lmgamma (k : Z) (x : double) : double :=
  fold_left
    (fun result j => (result + lgamma (x + (Fin 1.0 - of_Z j) / Fin 2.0))%D)
    (map Z.of_nat (seq 1 (Z.to_nat k)))
    (of_Z (uint (k * uint (k - 1))) * LOG_PI_OVER_FOUR)%D.

(** [multiply_log(a, b)] *)
Definition multiply_log (a b : double) : double :=
  if (b ==? Fin 0.0)%D && (a ==? Fin 0.0)%D then Fin 0.0
  else (a * dlog b)%D.

(** [log_sum_exp(a, b)] *)
Definition log_sum_exp (a b : double) : result double :=
  if (a >? b)%D then
    l <- log1p (dexp (b - a)) ;; Ok (a + l)%D
  else
    l <- log1p (dexp (a - b)) ;; Ok (b + l)%D.

(** [log_sum_exp(x)] for a vector [x]. *)
Definition log_sum_exp_vector (x : list double) : double :=
  let max := fold_left (fun max xi => if (xi >? max)%D then xi else max)
                       x NInf in
  let sum := fold_left
               (fun sum xi =>
                  if (xi !=? NInf)%D then (sum + dexp (xi - max))%D else sum)
               x (Fin 0.0) in
  (max + dlog sum)%D.

End SpecialFunctions.

(** ** [stan::math]: the remaining special functions *)

(** [std::pow(2.0, y)] *)
Definition pow_2 (y : double) : double :=
  match y with
  | Fin r => Fin (Rpower 2 r)
  | PInf => PInf
  | NInf => Fin 0
  | NaN => NaN
  end.

(** [std::pow(x, 3.0)] *)
Definition pow_3 (x : double) : double :=
  match x with
  | Fin r => Fin (r ^ 3)
  | PInf => PInf
  | NInf => NInf
  | NaN => NaN
  end.

(** [exp2(y)] *)
Definition exp2 (y : double) : double := pow_2 y.

(** [fdim(a, b)] *)
Definition fdim (a b : double) : double :=
  if (a >? b)%D then (a - b)%D else Fin 0.0.

(** [log2(a)], with [LOG2 = std::log(2.0)]. *)
Definition log2 (a : double) : double := (dlog a / dlog (Fin 2.0))%D.

(** [int_step(y)] *)
Definition int_step (y : double) : Z := if (y >? Fin 0)%D then 1%Z else 0%Z.

(** [step(y)] *)
Definition step (y : double) : Z := if (y <? Fin 0.0)%D then 0%Z else 1%Z.

(** [lbeta(a, b)] *)
Definition lbeta (lgammaR : R -> R) (a b : double) : double :=
  (lgamma lgammaR a + lgamma lgammaR b - lgamma lgammaR (a + b))%D.

(** [logit(a)] *)
Definition logit (a : double) : double := dlog (a / (Fin 1.0 - a))%D.

(** [Phi_approx(x)] *)
Definition Phi_approx (x : double) : double :=
  inv_logit (Fin 0.07056 * pow_3 x + Fin 1.5976 * x)%D.

(** [inv_cloglog(x)] *)
Definition inv_cloglog (x : double) : double := dexp (- dexp x)%D.

(** [binary_log_loss(y, y_hat)], [y] an [int]. *)
Definition binary_log_loss (y : Z) (y_hat : double) : double :=
  (- dlog (if (y =? 0)%Z then (Fin 1.0 - y_hat)%D else y_hat))%D.

(** The loop of [inverse_softmax]: [y[i] = log(simplex[i])] over the indices
    of [simplex]. *)
Fixpoint inverse_softmax_log (simplex y : list double) : list double :=
  match simplex, y with
  | si :: simplex', _ :: y' => dlog si :: inverse_softmax_log simplex' y'
  | _, _ => y
  end.

(** [inverse_softmax(simplex, y)]; the result is the output vector [y]. *)
Definition inverse_softmax (simplex y : list double) : result (list double) :=
  if negb (List.length simplex =? List.length y)%nat then
    Throw (invalid_argument "simplex.size() != y.size()")
  else
    Ok (inverse_softmax_log simplex y).

(** [log1p_exp(a)] *)
Definition log1p_exp (a : double) : result double :=
  if (a >? Fin 0.0)%D then
    l <- log1p (dexp (- a)) ;; Ok (a + l)%D
  else
    log1p (dexp a).

(** [log_inv_logit(u)] *)
Definition log_inv_logit (u : double) : result double :=
  if (u <? Fin 0.0)%D then
    l <- log1p (dexp u) ;; Ok (u - l)%D
  else
    l <- log1p (dexp (- u)) ;; Ok (- l)%D.

(** [log1m_inv_logit(u)] *)
Definition log1m_inv_logit (u : double) : result double :=
  if (u >? Fin 0.0)%D then
    l <- log1p (dexp (- u)) ;; Ok (- u - l)%D
  else
    l <- log1p (dexp u) ;; Ok (- l)%D.

(** ** Validation framework ([stan/maths/error_handling.hpp]) *)

(** Modelled from the spec: the validation outcome, the policy and the
    [check_<predicate>] functions of [stan/maths/error_handling.hpp] and
    [matrix_error_handling.hpp] are not among the sources.  A check passes
    iff its predicate holds; a failure carries the function name, the
    argument name, the constraint and the offending value. *)
Record report : Type := {
  rep_function : string;
  rep_argument : string;
  rep_constraint : string;
  rep_value : double
}.

Inductive validation : Type :=
| Pass
| Fail (r : report).

(** Modelled from the spec: the policy selects the error action (abort,
    substitute the sentinel, or log and substitute) and fixes the sentinel. *)
Inductive error_action : Type :=
| abort
| substitute_sentinel
| log_and_substitute.

Record Policy : Type := {
  action : error_action;
  sentinel : double
}.

Definition default_policy : Policy :=
  {| action := substitute_sentinel; sentinel := NaN |}.

(** What a log-density evaluator hands back: the accumulated [lp], or the
    policy's sentinel after a reported domain error. *)
Inductive evaluation : Type :=
| Value (lp : double)
| Rejected (r : report) (sentinel : double).

Definition raise_domain_error (policy : Policy) (r : report)
  : result evaluation :=
  match action policy with
  | abort => Throw (domain_error (rep_constraint r))
  | substitute_sentinel | log_and_substitute =>
      Ok (Rejected r (sentinel policy))
  end.

Definition validate (holds : bool) (r : report) : validation :=
  if holds then Pass else Fail r.

Definition check_finite (function : string) (x : double) (name : string)
  : validation :=
  validate (is_finite x)
    {| rep_function := function; rep_argument := name;
       rep_constraint := "finite"; rep_value := x |}.

Definition check_bounded (function : string) (x low high : double)
  (name : string) : validation :=
  validate ((low <=? x)%D && (x <=? high)%D)
    {| rep_function := function; rep_argument := name;
       rep_constraint := "bounded"; rep_value := x |}.

Definition check_nonnegative (function : string) (x : double) (name : string)
  : validation :=
  validate (x >=? Fin 0)%D
    {| rep_function := function; rep_argument := name;
       rep_constraint := "nonnegative"; rep_value := x |}.

Definition check_greater_or_equal (function : string) (x low : double)
  (name : string) : validation :=
  validate (x >=? low)%D
    {| rep_function := function; rep_argument := name;
       rep_constraint := "greater-or-equal"; rep_value := x |}.

Definition check_size_match (function : string) (i j : Z) : validation :=
  validate (i =? j)%Z
    {| rep_function := function; rep_argument := "size";
       rep_constraint := "equal-size"; rep_value := of_Z i |}.

(** ** Proportionality ([stan/prob/traits.hpp], [stan/prob/constants.hpp]) *)

(** A scalar type an evaluator is instantiated with: plain ([double]) or
    differentiable ([stan::agrad::var]).  A differentiable argument is
    represented by its value. *)
Inductive scalar_type : Type :=
| plain
| differentiable.

(** Modelled from the spec: the constant-ness trait of [traits.hpp], derived
    from the scalar type (fixed data versus tracked unknown). *)
Definition is_constant (T : scalar_type) : bool :=
  match T with plain => true | differentiable => false end.

(** Modelled from the spec: [include_summand<propto, T...>::value] of
    [traits.hpp].  With the flag set a term is elided when it is constant
    with respect to every differentiable argument, that is when every listed
    type is constant. *)
Definition include_summand (propto : bool) (Ts : list scalar_type) : bool :=
  negb propto || existsb (fun T => negb (is_constant T)) Ts.

(** Modelled from the spec: the constant [-ln2/2] of [constants.hpp]. *)
Definition NEG_LOG_TWO_OVER_TWO : double := Fin (- ln 2 / 2).

(** ** Matrices ([Eigen::Matrix<T,Dynamic,Dynamic>]) *)

Record matrix : Type := {
  rows : Z;
  cols : Z;
  coeff : Z -> Z -> double
}.

Definition identity (k : Z) : matrix :=
  {| rows := k; cols := k;
     coeff := fun i j => if (i =? j)%Z then Fin 1 else Fin 0 |}.

(** The linear-algebra collaborator ([stan::maths::determinant], [inverse],
    [multiply], [trace]). *)
Record LinearAlgebra : Type := {
  determinant : matrix -> double;
  inverse : matrix -> matrix;
  multiply : matrix -> matrix -> matrix;
  trace : matrix -> double
}.

(** ** [stan::prob]: log-density evaluators *)

Section Evaluators.

Variable lgammaR : R -> R.
Variable linalg : LinearAlgebra.
Variable policy : Policy.

(** [if (!check(...)) return lp;] *)
Definition checked (v : validation) (k : result evaluation)
  : result evaluation :=
  match v with
  | Pass => k
  | Fail r => raise_domain_error policy r
  end.

Notation "'check' v ;; k" := (checked v k)
  (at level 61, v at next level, right associativity).

(** [binomial_log<propto, T_prob>(n, N, theta)], [n] and [N] of type [int]. *)
Definition binomial_log (propto : bool) (T_prob : scalar_type)
  (n N : Z) (theta : double) : result evaluation :=
  let function := "stan::prob::binomial_log<%1%>(%1%)" in
  let lp := Fin 0.0 in
  check check_bounded function (of_Z n) (of_Z 0) (of_Z N) "Successes, n," ;;
  check check_nonnegative function (of_Z N) "Population size, N," ;;
  check check_finite function theta "Probability, theta," ;;
  check check_bounded function theta (Fin 0.0) (Fin 1.0)
        "Probability, theta," ;;
  lp <- (if include_summand propto [] then
           b <- binomial_coefficient_log lgammaR N n ;; Ok (lp + b)%D
         else Ok lp) ;;
  lp <- (if include_summand propto [T_prob] then
           N_n <- nsub N n ;;
           l <- log1m theta ;;
           Ok (lp + (multiply_log (of_Z n) theta + of_Z N_n * l))%D
         else Ok lp) ;;
  Ok (Value lp).

(** [wishart_log<propto, T_y, T_dof, T_scale>(W, nu, S)]. *)
Definition wishart_log (propto : bool) (T_y T_dof T_scale : scalar_type)
  (W : matrix) (nu : double) (S : matrix) : result evaluation :=
  let function := "stan::prob::wishart_log<%1%>(%1%)" in
  let k := uint (rows W) in
  check check_greater_or_equal function nu (of_Z (uint (k - 1)))
        "Degrees of freedom, nu," ;;
  check check_size_match function (rows W) (cols W) ;;
  check check_size_match function (rows S) (cols S) ;;
  check check_size_match function (rows W) (rows S) ;;
  let lp := Fin 0.0 in
  let lp := if include_summand propto [T_dof] then
              (lp + nu * of_Z k * NEG_LOG_TWO_OVER_TWO)%D
            else lp in
  let lp := if include_summand propto [T_dof] then
              (lp - lmgamma lgammaR k (Fin 0.5 * nu))%D
            else lp in
  let lp := if include_summand propto [T_dof; T_scale] then
              (lp - multiply_log (Fin 0.5 * nu)
                                 (determinant linalg S))%D
            else lp in
  let lp := if include_summand propto [T_scale; T_y] then
              (lp - Fin 0.5
                    * dabs (trace linalg
                              (multiply linalg (inverse linalg S) W)))%D
            else lp in
  let lp := if include_summand propto [T_y; T_dof] then
              if (nu !=? of_Z (uint (k + 1)))%D then
                (lp + multiply_log (Fin 0.5 * (nu - (of_Z k + Fin 1.0)))
                                   (determinant linalg W))%D
              else lp
            else lp in
  Ok (Value lp).

End Evaluators.

(** ** A reference instance of the parameters

    The evaluators are run on concrete inputs with the following instance of
    their collaborators: determinant by cofactor expansion along the first
    row, inverse by the adjugate, and a log-gamma that is exact at the
    positive integers ([ln ((m-1)!)] at [m]). *)

Definition sum_upto (n : nat) (f : Z -> double) : double :=
  fold_left (fun acc i => (acc + f (Z.of_nat i))%D) (seq 0 n) (Fin 0).

Definition minor (M : matrix) (i j : Z) : matrix :=
  {| rows := rows M - 1; cols := cols M - 1;
     coeff := fun a b =>
       coeff M (if (a <? i)%Z then a else (a + 1)%Z)
               (if (b <? j)%Z then b else (b + 1)%Z) |}.

Definition sign (i : Z) : double := if Z.even i then Fin 1 else Fin (-1).

Fixpoint cofactor_expansion (n : nat) (M : matrix) : double :=
  match n with
  | O => Fin 1
  | S n' =>
      sum_upto n (fun j =>
        (sign j * coeff M 0 j * cofactor_expansion n' (minor M 0 j))%D)
  end.

Definition reference_determinant (M : matrix) : double :=
  cofactor_expansion (Z.to_nat (rows M)) M.

Definition reference_inverse (M : matrix) : matrix :=
  {| rows := rows M; cols := cols M;
     coeff := fun i j =>
       (sign (i + j) * reference_determinant (minor M j i)
        / reference_determinant M)%D |}.

Definition reference_multiply (A B : matrix) : matrix :=
  {| rows := rows A; cols := cols B;
     coeff := fun i j =>
       sum_upto (Z.to_nat (cols A)) (fun l => (coeff A i l * coeff B l j)%D) |}.

Definition reference_trace (M : matrix) : double :=
  sum_upto (Z.to_nat (rows M)) (fun i => coeff M i i).

Definition reference_linalg : LinearAlgebra :=
  {| determinant := reference_determinant;
     inverse := reference_inverse;
     multiply := reference_multiply;
     trace := reference_trace |}.

Definition reference_lgammaR (r : R) : R :=
  ln (INR (fact (Z.to_nat (up r - 2)))).

(** The 1-by-1 matrix with the single coefficient [a]. *)
Definition matrix_1x1 (a : double) : matrix :=
  {| rows := 1; cols := 1; coeff := fun _ _ => a |}.

(** ** The formulas the specification names

    Definitions that follow the specification's words; the theorems below
    compare the code with them. *)

(** [log(1+x)] on exact values, by the three regimes of the code: the
    logarithm itself away from 0, the second-order Taylor expansion
    [x - x^2/2] near 0 and the first-order one, [x], within [1e-16] of 0. *)
Definition log_one_plus (x : double) : double :=
  if (dabs x >? Fin 1e-9)%D then dlog (Fin 1 + x)%D
  else if (dabs x >? Fin 1e-16)%D then (x - x * x / Fin 2)%D
  else x.

(** The larger of [m] and [v]; a NaN [v] is passed over. *)
Definition larger (m v : double) : double := if (v >? m)%D then v else m.

(** [max(x)], negative infinity for the empty vector. *)
Definition max_element (x : list double) : double :=
  fold_right (fun v m => larger m v) NInf x.

Definition sum_of (l : list double) : double := fold_right dadd (Fin 0) l.

(** [max(x) + log(sum of exp(x_i - max(x)))], the sum taken over the entries
    that are not negative infinity. *)
Definition log_sum_exp_formula (x : list double) : double :=
  (max_element x
   + dlog (sum_of (map (fun v => dexp (v - max_element x))
                       (filter (fun v => v !=? NInf) x))))%D.

(** A value that is finite or negative infinity (neither NaN nor [+inf]). *)
Definition finite_or_neg_infinity (v : double) : bool :=
  match v with Fin _ | NInf => true | PInf | NaN => false end.

(** The exact form of the log binomial coefficient,
    [lgamma(N+1) - lgamma(n+1) - lgamma(N-n+1)]. *)
Definition log_gamma_form (lgammaR : R -> R) (N n : double) : double :=
  (lgamma lgammaR (N + Fin 1) - lgamma lgammaR (n + Fin 1)
   - lgamma lgammaR (N - n + Fin 1))%D.

(** The asymptotic expansion of the log binomial coefficient. *)
Definition asymptotic_form (lgammaR : R -> R) (N n : double) : double :=
  (n * dlog (N - n) + (N + Fin 0.5) * dlog (N / (N - n))
   + Fin 1 / (Fin 12 * N) - n - Fin 1 / (Fin 12 * (N - n))
   - lgamma lgammaR (n + Fin 1))%D.

(** The Wishart log density as documented with [wishart_log]:
    [nu*k*(-ln2/2) - lmgamma(k, nu/2) - (nu/2)*log(det S)
     - (1/2)*trace(S^-1 W)], and [((nu-k-1)/2)*log(det W)] when
    [nu <> k+1]. *)
Definition wishart_log_formula (lgammaR : R -> R) (linalg : LinearAlgebra)
  (W : matrix) (nu : double) (S : matrix) : double :=
  let k := of_Z (rows W) in
  let lp :=
    (nu * k * NEG_LOG_TWO_OVER_TWO
     - lmgamma lgammaR (rows W) (nu / Fin 2)
     - nu / Fin 2 * dlog (determinant linalg S)
     - Fin (1 / 2) * trace linalg (multiply linalg (inverse linalg S) W))%D in
  if (nu !=? k + Fin 1)%D then
    (lp + (nu - k - Fin 1) / Fin 2 * dlog (determinant linalg W))%D
  else lp.

(** The sum of a list of reals. *)
Definition Rsum (l : list R) : R := fold_right Rplus 0 l.

(** The softmax of a vector of reals as documented with [softmax]:
    [exp(x[i]) / sum of exp(x[k])]. *)
Definition softmax_formula (x : list R) : list R :=
  map (fun r => exp r / Rsum (map exp x)) x.

Definition is_invalid_argument {A : Type} (m : result A) : bool :=
  match m with Throw (invalid_argument _) => true | _ => false end.

(** The log of the multivariate gamma function as documented with
    [lmgamma]: [k(k-1)/4 * log(pi)] plus the sum over [j = 1..k] of
    [log Gamma(x + (1 - j)/2)]. *)
Definition lmgamma_formula (lgammaR : R -> R) (k : Z) (x : R) : R :=
  IZR (k * (k - 1)) * (ln PI / 4)
  + Rsum (map (fun j => lgammaR (x + (1 - IZR j) / 2))
              (map Z.of_nat (seq 1 (Z.to_nat k)))).

(** Negative infinity or NaN. *)
Definition neg_infinity_or_nan (a : double) : bool :=
  match a with NInf | NaN => true | Fin _ | PInf => false end.

(** ** Binary64 rounding

    The arithmetic above is exact on finite values.  The definitions below
    give the same operations as the machine performs them on IEEE 754
    binary64: a finite [double] is [m * 2^e] with [|m| < 2^53] and
    [-1074 <= e], of magnitude below [2^1024]; the result of an operation is
    its exact result rounded to the nearest such value, ties to the even
    significand, and an infinity once the rounded value reaches [2^1024].
    Zero stays unsigned. *)

Definition pow2 (k : Z) : R := powerRZ 2 k.

(** A finite binary64 value. *)
Definition representable (x : R) : Prop :=
  exists m e : Z,
    x = IZR m * pow2 e /\ (Z.abs m < 2 ^ 53)%Z /\ (-1074 <= e)%Z
    /\ Rabs x < pow2 1024.

(** A well-formed [double]: its finite values are binary64 values. *)
Definition binary64 (a : double) : Prop :=
  match a with
  | Fin x => representable x
  | PInf | NInf | NaN => True
  end.

(** The binade of a non-zero [x]: [2^(mag x - 1) <= |x| < 2^(mag x)]. *)
Definition mag (x : R) : Z := (Zfloor (ln (Rabs x) / ln 2) + 1)%Z.

(** The exponent of the last place of [x]: 53 significant bits, and never
    below the subnormal exponent -1074. *)
Definition ulp_exponent (x : R) : Z := Z.max (mag x - 53) (-1074).

(** The integer nearest to [t], the even one of the two when [t] lies half
    way. *)
Definition nearest_even (t : R) : Z :=
  let n := Zfloor t in
  if Rltb (t - IZR n) (1 / 2) then n
  else if Rltb (1 / 2) (t - IZR n) then (n + 1)%Z
  else if Z.even n then n else (n + 1)%Z.

(** Rounding to nearest, ties to even, with an unbounded exponent range
    above. *)
Definition rnd (x : R) : R :=
  IZR (nearest_even (x * pow2 (- ulp_exponent x))) * pow2 (ulp_exponent x).

(** The [double] an exact finite result [x] is stored as: the rounded value,
    or an infinity on overflow. *)
Definition round64 (x : R) : double :=
  if Rltb (Rabs (rnd x)) (pow2 1024) then Fin (rnd x)
  else if Rltb 0 x then PInf else NInf.

(** A decimal literal of the source: the nearest binary64 value. *)
Definition literal (r : R) : double := round64 r.

(** The special functions as the machine evaluates them.  [1.0], [-1.0],
    [0.5] and [0.0] are binary64 values; the other decimal literals
    ([1e-9], [1e-16], [0.07056], [1.5976]) are not and stand for the nearest
    ones.  [std::exp], [std::log] and [std::pow] are taken to round
    correctly.  The C library's results are within a unit in the last place
    of that; of an exponential, a logarithm or a power the proofs below use
    only that the stored value lies on the same side of 0 and of 1 as the
    exact one, and that [exp(-40)] is stored as a value below [2^-54]. *)
Module Rounded.

(** [a + b] *)
Definition add (a b : double) : double :=
  match a, b with
  | Fin x, Fin y => round64 (x + y)
  | _, _ => dadd a b
  end.

(** [a - b] *)
Definition sub (a b : double) : double := add a (dneg b).

(** [a * b] *)
Definition mul (a b : double) : double :=
  match a, b with
  | Fin x, Fin y => round64 (x * y)
  | _, _ => dmul a b
  end.

(** [a / b] *)
Definition div (a b : double) : double :=
  match a, b with
  | Fin x, Fin y => if Reqb y 0 then ddiv a b else round64 (x / y)
  | _, _ => ddiv a b
  end.

(** [std::exp] *)
Definition exp (a : double) : double :=
  match a with
  | Fin x => round64 (Rtrigo_def.exp x)
  | _ => dexp a
  end.

(** [std::log] *)
Definition log (a : double) : double :=
  match a with
  | Fin x => if Rltb 0 x then round64 (ln x) else dlog a
  | _ => dlog a
  end.

(** [inv_logit(a)] *)
Definition inv_logit (a : double) : double :=
  div (Fin 1.0) (add (Fin 1.0) (exp (- a)%D)).

(** [log1p(x)] *)
Definition log1p (x : double) : result double :=
  if (x <? Fin (-1.0))%D then
    Throw (domain_error "x can not be less than -1")
  else if (x >? literal 1e-9)%D || (x <? - literal 1e-9)%D then
    Ok (log (add (Fin 1.0) x))
  else if (x >? literal 1e-16)%D || (x <? - literal 1e-16)%D then
    Ok (sub x (mul (mul (Fin 0.5) x) x))
  else
    Ok x.

(** [log1m(x)] *)
Definition log1m (x : double) : result double := log1p (- x)%D.

(** [std::pow(x, 3.0)], taken to round correctly. *)
Definition pow_3 (x : double) : double :=
  match x with
  | Fin r => round64 (r ^ 3)
  | PInf => PInf
  | NInf => NInf
  | NaN => NaN
  end.

(** [Phi_approx(x)] *)
Definition Phi_approx (x : double) : double :=
  inv_logit (add (mul (literal 0.07056) (pow_3 x)) (mul (literal 1.5976) x)).

(** [inv_cloglog(x)] *)
Definition inv_cloglog (x : double) : double := exp (- exp x)%D.

(** [binary_log_loss(y, y_hat)], [y] an [int]. *)
Definition binary_log_loss (y : Z) (y_hat : double) : double :=
  (- log (if (y =? 0)%Z then sub (Fin 1.0) y_hat else y_hat))%D.

(** [log_sum_exp(a, b)] *)
Definition log_sum_exp (a b : double) : result double :=
  if (a >? b)%D then
    l <- log1p (exp (sub b a)) ;; Ok (add a l)
  else
    l <- log1p (exp (sub a b)) ;; Ok (add b l).

(** [log_inv_logit(u)] *)
Definition log_inv_logit (u : double) : result double :=
  if (u <? Fin 0.0)%D then
    l <- log1p (exp u) ;; Ok (sub u l)
  else
    l <- log1p (exp (- u)%D) ;; Ok (- l)%D.

(** [log1m_inv_logit(u)] *)
Definition log1m_inv_logit (u : double) : result double :=
  if (u >? Fin 0.0)%D then
    l <- log1p (exp (- u)%D) ;; Ok (sub (- u)%D l)
  else
    l <- log1p (exp u) ;; Ok (- l)%D.

(** [log(1+x)] as the specification describes it: the logarithm itself away
    from 0 and the second-order Taylor expansion [x - 0.5*x*x] near 0. *)
Definition log_one_plus (x : double) : double :=
  if (dabs x >? literal 1e-9)%D then log (add (Fin 1.0) x)
  else sub x (mul (mul (Fin 0.5) x) x).

End Rounded.

(** ** Decision lemmas for the boolean comparisons *)

Lemma Rltb_true (a b : R) : a < b -> Rltb a b = true.
Proof. intros H. unfold Rltb. destruct (Rlt_dec a b); [reflexivity | contradiction]. Qed.

Lemma Rltb_false (a b : R) : ~ a < b -> Rltb a b = false.
Proof. intros H. unfold Rltb. destruct (Rlt_dec a b); [contradiction | reflexivity]. Qed.

Lemma Reqb_true (a b : R) : a = b -> Reqb a b = true.
Proof. intros H. unfold Reqb. destruct (Req_dec_T a b); [reflexivity | contradiction]. Qed.

Lemma Reqb_false (a b : R) : a <> b -> Reqb a b = false.
Proof. intros H. unfold Reqb. destruct (Req_dec_T a b); [contradiction | reflexivity]. Qed.

Lemma Rltb_spec (a b : R) : Rltb a b = true <-> a < b.
Proof.
  unfold Rltb. destruct (Rlt_dec a b); split; intros; try assumption;
    try reflexivity; try discriminate; contradiction.
Qed.

Lemma Reqb_spec (a b : R) : Reqb a b = true <-> a = b.
Proof.
  unfold Reqb. destruct (Req_dec_T a b); split; intros; try assumption;
    try reflexivity; try discriminate; contradiction.
Qed.

(** Decide every comparison of the goal whose outcome [lra] can settle. *)
Ltac decide_R :=
  repeat match goal with
  | |- context [Rltb ?a ?b] =>
      first [ rewrite (Rltb_true a b) by lra
            | rewrite (Rltb_false a b) by lra ]
  | |- context [Reqb ?a ?b] =>
      first [ rewrite (Reqb_true a b) by lra
            | rewrite (Reqb_false a b) by lra ]
  | |- context [Rabs ?a] =>
      first [ rewrite (Rabs_right a) by lra
            | rewrite (Rabs_left a) by lra ]
  end.

(** Reduce an equation between computed values to the real equation under
    the constructors, and solve it. *)
Ltac real_eq :=
  repeat match goal with
  | |- Ok _ = Ok _ => apply f_equal
  | |- Value _ = Value _ => apply f_equal
  | |- Fin _ = Fin _ => apply f_equal
  | |- ln _ = ln _ => apply f_equal
  | |- exp _ = exp _ => apply f_equal
  end;
  first [ reflexivity | lra | field; lra | nra ].

(** Evaluate [double] arithmetic, deciding the comparisons met on the way. *)
Ltac eval_D :=
  repeat (progress (cbn; unfold scale_inf, is_pole; decide_R)).

(** Rewrite the arguments of [ln] and of a log-gamma that equal 1 to [1]. *)
Ltac normalize_at_1 :=
  repeat match goal with
  | |- context [ln ?a] => progress (replace a with 1 by lra)
  | f : R -> R |- context [?f ?a] => progress (replace a with 1 by lra)
  end.

(** Split on every comparison of the goal. *)
Ltac split_R :=
  repeat match goal with
  | |- context [Rltb ?a ?b] =>
      let H := fresh "Hlt" in
      destruct (Rlt_dec a b) as [H | H];
      [ rewrite (Rltb_true a b H) | rewrite (Rltb_false a b H) ]
  | |- context [Reqb ?a ?b] =>
      let H := fresh "Heq" in
      destruct (Req_dec_T a b) as [H | H];
      [ rewrite (Reqb_true a b H) | rewrite (Reqb_false a b H) ]
  end.

(** ** Binary64 rounding: powers of two and binades *)

Lemma pow2_exp (k : Z) : pow2 k = exp (IZR k * ln 2).
Proof.
  unfold pow2. rewrite powerRZ_Rpower by lra. reflexivity.
Qed.

Lemma ln_2_pos : 0 < ln 2.
Proof. rewrite <- ln_1. apply ln_increasing; lra. Qed.

Lemma pow2_pos (k : Z) : 0 < pow2 k.
Proof. rewrite pow2_exp. apply exp_pos. Qed.

Lemma pow2_add (a b : Z) : pow2 (a + b) = pow2 a * pow2 b.
Proof. unfold pow2. apply powerRZ_add. lra. Qed.

Lemma pow2_0 : pow2 0 = 1.
Proof. reflexivity. Qed.

Lemma pow2_opp (a : Z) : pow2 (- a) = / pow2 a.
Proof. unfold pow2. apply powerRZ_neg'. Qed.

Lemma pow2_cancel (a : Z) : pow2 a * pow2 (- a) = 1.
Proof. rewrite <- pow2_add, Z.add_opp_diag_r. reflexivity. Qed.

Lemma pow2_lt (a b : Z) : (a < b)%Z -> pow2 a < pow2 b.
Proof.
  intros H. rewrite !pow2_exp. apply exp_increasing.
  apply Rmult_lt_compat_r; [apply ln_2_pos | apply IZR_lt; exact H].
Qed.

Lemma pow2_le (a b : Z) : (a <= b)%Z -> pow2 a <= pow2 b.
Proof.
  intros H. destruct (Z.eq_dec a b) as [-> | Hne]; [lra |].
  left. apply pow2_lt. lia.
Qed.

Lemma pow2_lt_inv (a b : Z) : pow2 a < pow2 b -> (a < b)%Z.
Proof.
  intros H. destruct (Z_lt_le_dec a b) as [Hlt | Hge]; [exact Hlt |].
  pose proof (pow2_le b a Hge). lra.
Qed.

Lemma pow2_IZR (k : Z) : (0 <= k)%Z -> pow2 k = IZR (2 ^ k).
Proof.
  intros Hk. unfold pow2. rewrite <- (Z2Nat.id k Hk) at 1.
  rewrite <- pow_powerRZ, pow_IZR, Z2Nat.id by exact Hk. reflexivity.
Qed.

Lemma pow2_succ (a : Z) : pow2 (a + 1) = 2 * pow2 a.
Proof. rewrite pow2_add. change (pow2 1) with (2 * 1). lra. Qed.

Lemma pow2_pred (a : Z) : pow2 (a - 1) = pow2 a / 2.
Proof.
  replace a with ((a - 1) + 1)%Z at 2 by lia. rewrite pow2_succ. lra.
Qed.

(** A non-zero real lies in the binade [mag] names. *)
Lemma mag_spec (x : R) :
  x <> 0 -> pow2 (mag x - 1) <= Rabs x < pow2 (mag x).
Proof.
  intros Hx. unfold mag.
  pose proof (Rabs_pos_lt x Hx) as Hpos.
  pose proof ln_2_pos as Hln2.
  pose proof (Zfloor_bound (ln (Rabs x) / ln 2)) as [Hlo Hhi].
  set (n := Zfloor (ln (Rabs x) / ln 2)) in *.
  assert (Hl : ln (Rabs x) = ln (Rabs x) / ln 2 * ln 2) by (field; lra).
  replace (n + 1 - 1)%Z with n by lia.
  rewrite !pow2_exp, plus_IZR.
  rewrite <- (exp_ln (Rabs x) Hpos) at 1 2.
  split.
  - destruct Hlo as [Hlo | Hlo].
    + left. apply exp_increasing. rewrite Hl.
      apply Rmult_lt_compat_r; assumption.
    + right. f_equal. rewrite Hl at 1. rewrite <- Hlo. reflexivity.
  - apply exp_increasing. rewrite Hl at 1.
    apply Rmult_lt_compat_r; assumption.
Qed.

Lemma mag_le (x : R) (k : Z) : x <> 0 -> Rabs x < pow2 k -> (mag x <= k)%Z.
Proof.
  intros Hx Hk. pose proof (mag_spec x Hx) as [Hlo _].
  assert (H : pow2 (mag x - 1) < pow2 k) by lra.
  apply pow2_lt_inv in H. lia.
Qed.

Lemma mag_ge (x : R) (k : Z) : pow2 (k - 1) <= Rabs x -> x <> 0 -> (k <= mag x)%Z.
Proof.
  intros Hk Hx. pose proof (mag_spec x Hx) as [_ Hhi].
  assert (H : pow2 (k - 1) < pow2 (mag x)) by lra.
  apply pow2_lt_inv in H. lia.
Qed.

Lemma mag_unique (x : R) (k : Z) :
  pow2 (k - 1) <= Rabs x < pow2 k -> mag x = k.
Proof.
  intros [Hlo Hhi].
  assert (Hx : x <> 0).
  { intros ->. rewrite Rabs_R0 in Hlo. pose proof (pow2_pos (k - 1)). lra. }
  pose proof (mag_le x k Hx Hhi). pose proof (mag_ge x k Hlo Hx). lia.
Qed.

Lemma mag_opp (x : R) : mag (- x) = mag x.
Proof. unfold mag. rewrite Rabs_Ropp. reflexivity. Qed.

Lemma ulp_exponent_opp (x : R) : ulp_exponent (- x) = ulp_exponent x.
Proof. unfold ulp_exponent. rewrite mag_opp. reflexivity. Qed.

(** ** Binary64 rounding: the nearest integer *)

Lemma nearest_even_error (t : R) : Rabs (IZR (nearest_even t) - t) <= 1 / 2.
Proof.
  unfold nearest_even. pose proof (Zfloor_bound t) as [Hlo Hhi].
  set (n := Zfloor t) in *.
  destruct (Rlt_dec (t - IZR n) (1 / 2)) as [H1 | H1].
  - rewrite (Rltb_true _ _ H1). apply Rabs_le. lra.
  - rewrite (Rltb_false _ _ H1).
    destruct (Rlt_dec (1 / 2) (t - IZR n)) as [H2 | H2].
    + rewrite (Rltb_true _ _ H2). rewrite plus_IZR. apply Rabs_le. lra.
    + rewrite (Rltb_false _ _ H2).
      destruct (Z.even n); [| rewrite plus_IZR]; apply Rabs_le; lra.
Qed.

(** Within half a unit of an integer, that integer is the nearest. *)
Lemma nearest_even_near (t : R) (k : Z) :
  Rabs (t - IZR k) < 1 / 2 -> nearest_even t = k.
Proof.
  intros H. apply Rabs_def2 in H. destruct H as [Hhi Hlo].
  unfold nearest_even.
  destruct (Rle_dec (IZR k) t) as [Hkt | Hkt].
  - rewrite (Zfloor_eq k t) by lra. rewrite Rltb_true by lra. reflexivity.
  - rewrite (Zfloor_eq (k - 1) t) by (rewrite minus_IZR; lra).
    rewrite minus_IZR. rewrite Rltb_false by lra. rewrite Rltb_true by lra.
    lia.
Qed.

Lemma nearest_even_IZR (k : Z) : nearest_even (IZR k) = k.
Proof.
  apply nearest_even_near. rewrite Rminus_diag, Rabs_R0. lra.
Qed.

Lemma nearest_even_ge (t : R) (k : Z) : IZR k <= t -> (k <= nearest_even t)%Z.
Proof.
  intros H. pose proof (Zfloor_lub k t H) as Hk. unfold nearest_even.
  repeat match goal with |- context [if ?c then _ else _] => destruct c end;
    lia.
Qed.

Lemma nearest_even_le (t : R) (k : Z) : t <= IZR k -> (nearest_even t <= k)%Z.
Proof.
  intros H. pose proof (Zfloor_bound t) as [Hlo Hhi].
  assert (Hn : (Zfloor t <= k)%Z).
  { apply le_IZR. lra. }
  unfold nearest_even.
  destruct (Rlt_dec (t - IZR (Zfloor t)) (1 / 2)) as [H1 | H1].
  - rewrite (Rltb_true _ _ H1). exact Hn.
  - rewrite (Rltb_false _ _ H1).
    assert (Hlt : (Zfloor t < k)%Z).
    { apply lt_IZR. lra. }
    repeat match goal with |- context [if ?c then _ else _] => destruct c end;
      lia.
Qed.

Lemma nearest_even_opp (t : R) : nearest_even (- t) = (- nearest_even t)%Z.
Proof.
  pose proof (Zfloor_bound t) as [Hlo Hhi].
  set (n := Zfloor t) in *.
  destruct (Req_dec_T (t - IZR n) (1 / 2)) as [Hhalf | Hhalf].
  - (* half way: both sides pick the even neighbour *)
    unfold nearest_even. fold n.
    rewrite (Zfloor_eq (- n - 1) (- t))
      by (rewrite minus_IZR, opp_IZR; lra).
    rewrite minus_IZR, opp_IZR.
    rewrite (Rltb_false (t - IZR n)), (Rltb_false (1 / 2) (t - IZR n)) by lra.
    rewrite (Rltb_false (- t - (- IZR n - 1))),
      (Rltb_false (1 / 2) (- t - (- IZR n - 1))) by lra.
    replace (- n - 1)%Z with (- (n + 1))%Z by lia.
    rewrite Z.even_opp, Z.even_add. cbn [Z.even].
    destruct (Z.even n); cbn; lia.
  - destruct (Rlt_dec (t - IZR n) (1 / 2)) as [Hlt | Hge].
    + rewrite (nearest_even_near t n) by (apply Rabs_def1; lra).
      apply nearest_even_near. rewrite opp_IZR. apply Rabs_def1; lra.
    + rewrite (nearest_even_near t (n + 1))
        by (rewrite plus_IZR; apply Rabs_def1; lra).
      apply nearest_even_near. rewrite opp_IZR, plus_IZR.
      apply Rabs_def1; lra.
Qed.

(** ** Binary64 rounding: the rounding function *)

Lemma scaled_back (z : R) (e : Z) : z * pow2 (- e) * pow2 e = z.
Proof.
  rewrite Rmult_assoc, (Rmult_comm (pow2 (- e))), pow2_cancel. lra.
Qed.

Lemma scaled_forth (z : R) (e : Z) : z * pow2 e * pow2 (- e) = z.
Proof. rewrite Rmult_assoc, pow2_cancel. lra. Qed.

Lemma rnd_0 : rnd 0 = 0.
Proof.
  unfold rnd. rewrite Rmult_0_l, (nearest_even_IZR 0). lra.
Qed.

Lemma rnd_opp (z : R) : rnd (- z) = - rnd z.
Proof.
  unfold rnd. rewrite ulp_exponent_opp.
  replace (- z * pow2 (- ulp_exponent z))
    with (- (z * pow2 (- ulp_exponent z))) by lra.
  rewrite nearest_even_opp, opp_IZR. lra.
Qed.

(** The rounding error is at most half a unit in the last place. *)
Lemma rnd_error (z : R) : Rabs (rnd z - z) <= pow2 (ulp_exponent z) / 2.
Proof.
  unfold rnd. set (e := ulp_exponent z). set (t := z * pow2 (- e)).
  replace (IZR (nearest_even t) * pow2 e - z)
    with ((IZR (nearest_even t) - t) * pow2 e)
    by (unfold t; rewrite Rmult_minus_distr_r, scaled_back; reflexivity).
  pose proof (pow2_pos e) as He.
  rewrite Rabs_mult, (Rabs_pos_eq (pow2 e)) by lra.
  pose proof (nearest_even_error t). nra.
Qed.

Lemma pow2_ulp_exponent (z : R) :
  z <> 0 ->
  pow2 (ulp_exponent z) <= Rabs z * pow2 (-52)
  \/ ulp_exponent z = (-1074)%Z.
Proof.
  intros Hz. unfold ulp_exponent.
  destruct (Z.max_spec (mag z - 53) (-1074)) as [[_ ->] | [_ ->]].
  - right. reflexivity.
  - left. replace (mag z - 53)%Z with ((mag z - 1) + (-52))%Z by lia.
    rewrite pow2_add.
    apply Rmult_le_compat_r; [left; apply pow2_pos | apply mag_spec; exact Hz].
Qed.

(** The rounding error relative to the value, with the absolute term of the
    subnormal range. *)
Lemma rnd_error_rel (z : R) :
  Rabs (rnd z - z) <= Rabs z * pow2 (-53) + pow2 (-1075).
Proof.
  pose proof (pow2_pos (-53)) as H53. pose proof (pow2_pos (-1075)) as H1075.
  destruct (Req_dec_T z 0) as [-> | Hz].
  - rewrite rnd_0, Rminus_diag, Rabs_R0. lra.
  - pose proof (rnd_error z) as He. pose proof (Rabs_pos z) as Hz0.
    destruct (pow2_ulp_exponent z Hz) as [H | H].
    + pose proof (pow2_pred (-52)) as Hp.
      change (-52 - 1)%Z with (-53)%Z in Hp. nra.
    + rewrite H in He. pose proof (pow2_pred (-1074)) as Hp.
      change (-1074 - 1)%Z with (-1075)%Z in Hp. nra.
Qed.

Lemma rnd_abs_bound (z : R) :
  Rabs (rnd z) <= Rabs z * (1 + pow2 (-53)) + pow2 (-1075).
Proof.
  pose proof (rnd_error_rel z) as He.
  pose proof (Rabs_triang (rnd z - z) z) as Ht.
  replace (rnd z - z + z) with (rnd z) in Ht by lra. lra.
Qed.

(** Below half the smallest subnormal everything rounds to zero. *)
Lemma rnd_tiny (z : R) : Rabs z < pow2 (-1075) -> rnd z = 0.
Proof.
  intros Hz. destruct (Req_dec_T z 0) as [-> | Hnz]; [apply rnd_0 |].
  assert (He : ulp_exponent z = (-1074)%Z).
  { unfold ulp_exponent. pose proof (mag_le z (-1075) Hnz Hz). lia. }
  unfold rnd. rewrite He.
  rewrite (nearest_even_near _ 0); [lra |].
  rewrite Rminus_0_r, Rabs_mult.
  pose proof (pow2_pos (- -1074)) as Hp. rewrite (Rabs_pos_eq (pow2 _)) by lra.
  apply (Rmult_lt_compat_r _ _ _ Hp) in Hz.
  rewrite <- pow2_add in Hz.
  change (pow2 (-1075 + - -1074)) with (pow2 (0 - 1)) in Hz.
  rewrite pow2_pred, pow2_0 in Hz. exact Hz.
Qed.

Lemma rnd_nonneg (z : R) : 0 <= z -> 0 <= rnd z.
Proof.
  intros Hz. unfold rnd.
  apply Rmult_le_pos; [| left; apply pow2_pos].
  apply IZR_le, nearest_even_ge.
  apply Rmult_le_pos; [exact Hz | left; apply pow2_pos].
Qed.

(** Rounding does not cross a power of two of the format. *)
Lemma rnd_le_pow2 (z : R) (k : Z) :
  (-1074 <= k)%Z -> 0 <= z <= pow2 k -> rnd z <= pow2 k.
Proof.
  intros Hk [Hz0 Hzk].
  destruct (Req_dec_T z 0) as [-> | Hnz].
  { rewrite rnd_0. left. apply pow2_pos. }
  assert (He : (ulp_exponent z <= k)%Z).
  { unfold ulp_exponent.
    assert (Hm : (mag z - 1 <= k)%Z).
    { destruct (Z_lt_le_dec k (mag z - 1)) as [Hlt | Hle]; [| exact Hle].
      pose proof (mag_spec z Hnz) as [Hlo _].
      rewrite (Rabs_pos_eq z Hz0) in Hlo.
      pose proof (pow2_lt _ _ Hlt). lra. }
    lia. }
  unfold rnd. set (e := ulp_exponent z) in *.
  replace (pow2 k) with (IZR (2 ^ (k - e)) * pow2 e).
  2:{ rewrite <- pow2_IZR, <- pow2_add by lia. f_equal. lia. }
  apply Rmult_le_compat_r; [left; apply pow2_pos |].
  apply IZR_le, nearest_even_le.
  rewrite <- pow2_IZR by lia.
  replace (k - e)%Z with (k + - e)%Z by lia. rewrite pow2_add.
  apply Rmult_le_compat_r; [left; apply pow2_pos | exact Hzk].
Qed.

Lemma rnd_ge_pow2 (z : R) (k : Z) :
  (-1074 <= k)%Z -> pow2 k <= z -> pow2 k <= rnd z.
Proof.
  intros Hk Hzk. pose proof (pow2_pos k) as Hpk.
  assert (Hnz : z <> 0) by lra.
  unfold rnd. set (e := ulp_exponent z).
  destruct (Z_le_gt_dec e k) as [Hek | Hek].
  - replace (pow2 k) with (IZR (2 ^ (k - e)) * pow2 e).
    2:{ rewrite <- pow2_IZR, <- pow2_add by lia. f_equal. lia. }
    apply Rmult_le_compat_r; [left; apply pow2_pos |].
    apply IZR_le, nearest_even_ge.
    rewrite <- pow2_IZR by lia.
    replace (k - e)%Z with (k + - e)%Z by lia. rewrite pow2_add.
    apply Rmult_le_compat_r; [left; apply pow2_pos | exact Hzk].
  - assert (He : e = (mag z - 53)%Z) by (unfold e, ulp_exponent in *; lia).
    pose proof (mag_spec z Hnz) as [Hlo _].
    rewrite (Rabs_pos_eq z) in Hlo by lra.
    assert (H1 : (1 <= nearest_even (z * pow2 (- e)))%Z).
    { apply nearest_even_ge.
      apply (Rmult_le_compat_r (pow2 (- e))) in Hlo; [| left; apply pow2_pos].
      rewrite <- pow2_add in Hlo.
      assert (Hp : pow2 0 <= pow2 (mag z - 1 + - e)) by (apply pow2_le; lia).
      rewrite pow2_0 in Hp. lra. }
    apply IZR_le in H1.
    pose proof (pow2_lt k e ltac:(lia)) as Hlt. pose proof (pow2_pos e). nra.
Qed.

(** A binary64 value is a multiple of its unit in the last place. *)
Lemma representable_canonical (x : R) :
  representable x -> exists M : Z, x = IZR M * pow2 (ulp_exponent x).
Proof.
  intros (m & e & Hx & Hm & He & _).
  destruct (Req_dec_T x 0) as [-> | Hnz].
  { exists 0%Z. lra. }
  assert (Hlt : Rabs x < pow2 (53 + e)).
  { rewrite Hx, Rabs_mult, (Rabs_pos_eq (pow2 e)) by (left; apply pow2_pos).
    rewrite pow2_add. apply Rmult_lt_compat_r; [apply pow2_pos |].
    rewrite <- abs_IZR, (pow2_IZR 53) by lia. apply IZR_lt. exact Hm. }
  pose proof (mag_le x (53 + e) Hnz Hlt) as Hmag.
  assert (Hue : (ulp_exponent x <= e)%Z) by (unfold ulp_exponent; lia).
  exists (m * 2 ^ (e - ulp_exponent x))%Z.
  rewrite mult_IZR, <- pow2_IZR by lia.
  rewrite Rmult_assoc, <- pow2_add.
  replace (e - ulp_exponent x + ulp_exponent x)%Z with e by lia. exact Hx.
Qed.

(** Rounding leaves a binary64 value as it is. *)
Lemma rnd_representable (x : R) : representable x -> rnd x = x.
Proof.
  intros Hx. destruct (representable_canonical x Hx) as [M HM].
  unfold rnd. rewrite HM at 1. rewrite scaled_forth, nearest_even_IZR.
  symmetry. exact HM.
Qed.

Lemma pow2_half : pow2 (-1) = 1 / 2.
Proof. change (pow2 (-1)) with (pow2 (0 - 1)). rewrite pow2_pred, pow2_0. lra. Qed.

(** A perturbation of a binary64 value [x] below [2^-54 |x|], a quarter of
    a unit in its last place, is absorbed by rounding. *)
Lemma rnd_absorbs (x y : R) :
  representable x -> Rabs y < pow2 (-54) * Rabs x -> rnd (x - y) = x.
Proof.
  intros Hx Hy.
  destruct (Req_dec_T x 0) as [-> | Hnz].
  { rewrite Rabs_R0 in Hy. pose proof (Rabs_pos y). lra. }
  destruct (representable_canonical x Hx) as [M HM].
  pose proof (mag_spec x Hnz) as [Hlo Hhi].
  set (e := ulp_exponent x) in *. set (k := mag x) in *.
  assert (Hek : (k - 53 <= e /\ -1074 <= e /\ (e = k - 53 \/ e = -1074))%Z)
    by (unfold e, ulp_exponent; fold k; lia).
  pose proof (pow2_pos e) as Hpe.
  assert (HabsM : Rabs x = IZR (Z.abs M) * pow2 e).
  { rewrite HM at 1. rewrite Rabs_mult, (Rabs_pos_eq (pow2 e)), abs_IZR by lra.
    reflexivity. }
  assert (HM1 : (1 <= Z.abs M)%Z).
  { assert (M <> 0)%Z; [| lia]. intros ->. apply Hnz. rewrite HM. lra. }
  assert (Hke : (e < k)%Z).
  { apply pow2_lt_inv. apply IZR_le in HM1. nra. }
  (* one unit of room below the top of the binade *)
  assert (Htop : Rabs x + pow2 e <= pow2 k).
  { assert (HltM : (Z.abs M < 2 ^ (k - e))%Z).
    { apply lt_IZR. rewrite <- pow2_IZR by lia.
      apply (Rmult_lt_reg_r (pow2 e)); [exact Hpe |].
      rewrite <- pow2_add, <- HabsM. replace (k - e + e)%Z with k by lia.
      exact Hhi. }
    assert (HleM : IZR (Z.abs M) + 1 <= IZR (2 ^ (k - e))).
    { rewrite <- plus_IZR. apply IZR_le. lia. }
    rewrite <- pow2_IZR in HleM by lia.
    apply (Rmult_le_compat_r (pow2 e)) in HleM; [| lra].
    rewrite <- pow2_add in HleM. replace (k - e + e)%Z with k in HleM by lia.
    lra. }
  pose proof (pow2_pos (-54)) as Hp54.
  assert (Hp54' : pow2 (-54) <= 1 / 2).
  { rewrite <- pow2_half. apply pow2_le. lia. }
  assert (Hy1 : Rabs y < pow2 (e - 1)).
  { apply Rlt_le_trans with (pow2 (-54) * pow2 k); [nra |].
    rewrite <- pow2_add. apply pow2_le. lia. }
  rewrite pow2_pred in Hy1.
  pose proof (Rabs_pos x) as Hx0. pose proof (Rabs_pos y) as Hy0.
  pose proof (Rabs_triang x (- y)) as Htri. rewrite Rabs_Ropp in Htri.
  pose proof (Rabs_triang_inv x y) as Htri'.
  fold (x - y) in Htri.
  assert (Hd : x - y <> 0).
  { intros H0. rewrite H0, Rabs_R0 in Htri'.
    assert (Rabs y <= Rabs x / 2) by nra.
    assert (0 < Rabs x) by (apply Rabs_pos_lt; exact Hnz). lra. }
  pose proof (mag_le (x - y) k Hd ltac:(lra)) as Hk'le.
  assert (Hk'ge : (k - 1 <= mag (x - y))%Z).
  { apply mag_ge; [| exact Hd]. rewrite !pow2_pred.
    rewrite pow2_pred in Hlo.
    assert (Rabs y <= Rabs x / 2) by nra. lra. }
  pose proof (mag_spec (x - y) Hd) as [_ Hhi'].
  unfold rnd.
  destruct (Z.eq_dec (ulp_exponent (x - y)) e) as [He' | He'].
  - (* the difference stays in the binade of [x] *)
    rewrite He'. rewrite (nearest_even_near _ M); [symmetry; exact HM |].
    replace ((x - y) * pow2 (- e) - IZR M) with (- y * pow2 (- e)).
    2:{ rewrite HM at 1. rewrite Rmult_minus_distr_r, scaled_forth. lra. }
    rewrite Rabs_mult, Rabs_Ropp.
    rewrite (Rabs_pos_eq (pow2 (- e))) by (left; apply pow2_pos).
    apply (Rmult_lt_reg_r (pow2 e)); [exact Hpe |].
    rewrite Rmult_assoc, (Rmult_comm (pow2 (- e))), pow2_cancel. lra.
  - (* [x] is a power of two and the difference falls below it *)
    assert (He1 : ulp_exponent (x - y) = (e - 1)%Z)
      by (unfold ulp_exponent in *; lia).
    assert (Hk1 : mag (x - y) = (k - 1)%Z)
      by (unfold ulp_exponent in *; lia).
    assert (Hek53 : e = (k - 53)%Z) by (unfold ulp_exponent in *; lia).
    rewrite Hk1 in Hhi'.
    assert (HpowM : Z.abs M = (2 ^ 52)%Z).
    { assert (Hge : (2 ^ 52 <= Z.abs M)%Z).
      { apply le_IZR. rewrite <- (pow2_IZR 52) by lia.
        apply (Rmult_le_reg_r (pow2 e)); [exact Hpe |].
        rewrite <- pow2_add, <- HabsM.
        replace (52 + e)%Z with (k - 1)%Z by lia. exact Hlo. }
      assert (Hlt : (Z.abs M < 2 ^ 52 + 1)%Z).
      { apply lt_IZR. rewrite plus_IZR, <- (pow2_IZR 52) by lia.
        apply (Rmult_lt_reg_r (pow2 e)); [exact Hpe |].
        rewrite <- HabsM, Rmult_plus_distr_r, <- pow2_add.
        replace (52 + e)%Z with (k - 1)%Z by lia. lra. }
      lia. }
    assert (Hxpow : Rabs x = pow2 (k - 1)).
    { rewrite HabsM, HpowM, <- (pow2_IZR 52), <- pow2_add by lia.
      f_equal. lia. }
    assert (Hy2 : Rabs y < pow2 e / 4).
    { rewrite Hxpow in Hy. rewrite <- pow2_add in Hy.
      replace (-54 + (k - 1))%Z with (e - 1 - 1)%Z in Hy by lia.
      rewrite !pow2_pred in Hy. lra. }
    rewrite He1. rewrite (nearest_even_near _ (2 * M)).
    + rewrite mult_IZR, pow2_pred. rewrite HM at 1. lra.
    + replace (- (e - 1))%Z with (- e + 1)%Z by lia. rewrite pow2_succ.
      replace ((x - y) * (2 * pow2 (- e)) - IZR (2 * M))
        with (- y * (2 * pow2 (- e))).
      2:{ rewrite mult_IZR. rewrite HM at 1.
          pose proof (scaled_forth (IZR M) e). lra. }
      rewrite Rabs_mult, Rabs_Ropp.
      pose proof (pow2_pos (- e)) as Hpne.
      rewrite (Rabs_pos_eq (2 * pow2 (- e))) by lra.
      apply (Rmult_lt_reg_r (pow2 e)); [exact Hpe |].
      pose proof (pow2_cancel e) as Hc. nra.
Qed.

(** ** Binary64 rounding: stored results *)

Lemma Rabs_le_between (a b : R) : Rabs a <= b -> - b <= a <= b.
Proof.
  intros H. pose proof (Rle_abs a). pose proof (Rle_abs (- a)) as Hn.
  rewrite Rabs_Ropp in Hn. lra.
Qed.

Lemma pow2_neg_IZR (k : Z) : (0 <= k)%Z -> pow2 (- k) = / IZR (2 ^ k).
Proof. intros Hk. rewrite pow2_opp, pow2_IZR by exact Hk. reflexivity. Qed.

Lemma pow2_m53 : pow2 (-53) = / 9007199254740992.
Proof. exact (pow2_neg_IZR 53 ltac:(lia)). Qed.

Lemma pow2_m54 : pow2 (-54) = / 18014398509481984.
Proof. exact (pow2_neg_IZR 54 ltac:(lia)). Qed.

Lemma pow2_m100 : pow2 (-100) = / 1267650600228229401496703205376.
Proof. exact (pow2_neg_IZR 100 ltac:(lia)). Qed.

Lemma pow2_m1075_small : pow2 (-1075) <= pow2 (-100) * pow2 (-540).
Proof. rewrite <- pow2_add. apply pow2_le. lia. Qed.

Lemma pow2_1024_large : 8 <= pow2 1024.
Proof.
  change 8 with (IZR (2 ^ 3)). rewrite <- pow2_IZR by lia. apply pow2_le. lia.
Qed.

(** A result that stays below [2^1024] is stored as the rounded value. *)
Lemma round64_finite (z : R) :
  Rabs (rnd z) < pow2 1024 -> round64 z = Fin (rnd z).
Proof. intros H. unfold round64. rewrite (Rltb_true _ _ H). reflexivity. Qed.

Lemma round64_small (z : R) : Rabs z <= 2 -> round64 z = Fin (rnd z).
Proof.
  intros Hz. apply round64_finite.
  pose proof (rnd_abs_bound z) as Hb. pose proof pow2_1024_large as Hl.
  pose proof pow2_m53 as H53. pose proof pow2_m1075_small as Hs.
  pose proof pow2_m100 as H100. pose proof (pow2_pos (-1075)).
  assert (H540 : pow2 (-540) <= 1).
  { rewrite <- pow2_0. apply pow2_le. lia. }
  pose proof (pow2_pos (-540)).
  assert (pow2 (-1075) <= 1) by nra.
  pose proof (Rabs_pos z). nra.
Qed.

Lemma round64_representable (x : R) : representable x -> round64 x = Fin x.
Proof.
  intros Hx. unfold round64. rewrite (rnd_representable x Hx).
  destruct Hx as (_ & _ & _ & _ & _ & Hlt).
  rewrite (Rltb_true _ _ Hlt). reflexivity.
Qed.

Lemma representable_0 : representable 0.
Proof.
  exists 0%Z, 0%Z. repeat split; try lia; [lra |].
  rewrite Rabs_R0. apply pow2_pos.
Qed.

Lemma representable_1 : representable 1.
Proof.
  exists 1%Z, 0%Z. repeat split; try lia; [rewrite pow2_0; lra |].
  rewrite Rabs_R1. pose proof pow2_1024_large. lra.
Qed.

(** The binary64 value nearest to a small decimal literal is within a few
    parts in [10^16] of it. *)
Lemma literal_small (r : R) :
  1e-20 <= r <= 2 ->
  exists l, literal r = Fin l /\ r * (1 - 1e-15) <= l <= r * (1 + 1e-15).
Proof.
  intros Hr. exists (rnd r). split.
  - apply round64_small. rewrite Rabs_pos_eq; lra.
  - pose proof (rnd_error_rel r) as He. rewrite (Rabs_pos_eq r) in He by lra.
    pose proof pow2_m53 as H53. pose proof pow2_m1075_small as Hs.
    pose proof pow2_m100 as H100. pose proof (pow2_pos (-1075)).
    pose proof (pow2_pos (-540)) as H540p.
    assert (H540 : pow2 (-540) <= pow2 (-100)) by (apply pow2_le; lia).
    assert (Hs' : pow2 (-1075) <= r * 1e-16).
    { apply Rle_trans with (pow2 (-100) * pow2 (-100)); [nra |].
      rewrite H100. lra. }
    apply Rabs_le_between in He. rewrite H53 in He. lra.
Qed.

(** ** Binary64 rounding: order and representable results *)

Lemma representable_opp (x : R) : representable x -> representable (- x).
Proof.
  intros (m & e & Hr & Hm & He & Hlt).
  exists (- m)%Z, e. rewrite opp_IZR, Rabs_Ropp, Z.abs_opp.
  repeat split; try assumption. lra.
Qed.

(** A positive binary64 value is at least the smallest subnormal. *)
Lemma representable_pos_mag (a : R) :
  representable a -> 0 < a -> (-1073 <= mag a)%Z.
Proof.
  intros Ha Hpos. destruct (representable_canonical a Ha) as [M HM].
  pose proof (pow2_pos (ulp_exponent a)) as Hp.
  assert (HM1 : (1 <= M)%Z).
  { apply Z.lt_pred_le. apply lt_IZR. cbn.
    destruct (Rlt_dec 0 (IZR M)) as [H | H]; [exact H | nra]. }
  apply IZR_le in HM1.
  apply mag_ge; [| lra].
  rewrite Rabs_pos_eq by lra.
  apply Rle_trans with (pow2 (ulp_exponent a)); [| nra].
  apply pow2_le. unfold ulp_exponent. lia.
Qed.

Lemma rnd_ge_representable_pos (a z : R) :
  representable a -> 0 < a <= z -> a <= rnd z.
Proof.
  intros Ha [Hpos Hle].
  pose proof (representable_pos_mag a Ha Hpos) as Hmag.
  pose proof (mag_spec a ltac:(lra)) as [Halo Hahi].
  pose proof (mag_spec z ltac:(lra)) as [Hzlo Hzhi].
  rewrite Rabs_pos_eq in Halo, Hahi, Hzlo, Hzhi by lra.
  assert (Hk : (mag a <= mag z)%Z).
  { assert (H : pow2 (mag a - 1) < pow2 (mag z)) by lra.
    apply pow2_lt_inv in H. lia. }
  destruct (Z.eq_dec (mag a) (mag z)) as [Heq | Hne].
  - destruct (representable_canonical a Ha) as [M HM].
    assert (He : ulp_exponent z = ulp_exponent a)
      by (unfold ulp_exponent; rewrite Heq; reflexivity).
    unfold rnd. rewrite He. rewrite HM at 1.
    apply Rmult_le_compat_r; [left; apply pow2_pos |].
    apply IZR_le, nearest_even_ge.
    apply (Rmult_le_reg_r (pow2 (ulp_exponent a))); [apply pow2_pos |].
    rewrite scaled_back, <- HM. exact Hle.
  - pose proof (rnd_ge_pow2 z (mag z - 1) ltac:(lia) Hzlo) as H1.
    pose proof (pow2_le (mag a) (mag z - 1) ltac:(lia)). lra.
Qed.

Lemma rnd_le_representable_pos (a z : R) :
  representable a -> 0 < z <= a -> rnd z <= a.
Proof.
  intros Ha [Hpos Hle].
  assert (Hapos : 0 < a) by lra.
  pose proof (representable_pos_mag a Ha Hapos) as Hmag.
  pose proof (mag_spec a ltac:(lra)) as [Halo Hahi].
  pose proof (mag_spec z ltac:(lra)) as [Hzlo Hzhi].
  rewrite Rabs_pos_eq in Halo, Hahi, Hzlo, Hzhi by lra.
  assert (Hk : (mag z <= mag a)%Z).
  { assert (H : pow2 (mag z - 1) < pow2 (mag a)) by lra.
    apply pow2_lt_inv in H. lia. }
  destruct (Z.eq_dec (mag a) (mag z)) as [Heq | Hne].
  - destruct (representable_canonical a Ha) as [M HM].
    assert (He : ulp_exponent z = ulp_exponent a)
      by (unfold ulp_exponent; rewrite Heq; reflexivity).
    unfold rnd. rewrite He. set (e := ulp_exponent a) in *. rewrite HM at 1.
    apply Rmult_le_compat_r; [left; apply pow2_pos |].
    apply IZR_le, nearest_even_le.
    apply (Rmult_le_reg_r (pow2 e)); [apply pow2_pos |].
    rewrite scaled_back, <- HM. exact Hle.
  - set (k := Z.max (mag z) (-1074)).
    assert (Hzk : z <= pow2 k).
    { apply Rle_trans with (pow2 (mag z)); [lra | apply pow2_le; lia]. }
    pose proof (rnd_le_pow2 z k ltac:(lia) ltac:(lra)) as H1.
    pose proof (pow2_le k (mag a - 1) ltac:(lia)). lra.
Qed.

(** Rounding is monotone against the binary64 values. *)
Lemma rnd_ge_representable (a z : R) : representable a -> a <= z -> a <= rnd z.
Proof.
  intros Ha Hle.
  destruct (Rlt_dec 0 a) as [Hpos | Hnpos].
  - apply rnd_ge_representable_pos; [exact Ha | lra].
  - destruct (Rle_dec 0 z) as [Hz | Hz].
    + pose proof (rnd_nonneg z Hz). lra.
    + assert (H : rnd (- z) <= - a).
      { apply rnd_le_representable_pos; [apply representable_opp; exact Ha |].
        lra. }
      rewrite rnd_opp in H. lra.
Qed.

Lemma rnd_le_representable (a z : R) : representable a -> z <= a -> rnd z <= a.
Proof.
  intros Ha Hle.
  pose proof (rnd_ge_representable (- a) (- z) (representable_opp a Ha)
                ltac:(lra)) as H.
  rewrite rnd_opp in H. lra.
Qed.

(** A rounded value below [2^1024] is a binary64 value. *)
Lemma rnd_is_representable (z : R) :
  Rabs (rnd z) < pow2 1024 -> representable (rnd z).
Proof.
  intros Hfin.
  destruct (Req_dec_T z 0) as [-> | Hnz].
  { rewrite rnd_0. exact representable_0. }
  pose proof (mag_spec z Hnz) as [_ Hhi].
  set (e := ulp_exponent z) in *.
  assert (He : (-1074 <= e /\ mag z - e <= 53)%Z)
    by (unfold e, ulp_exponent; lia).
  pose proof (pow2_pos (- e)) as Hpne.
  assert (Ht : Rabs (z * pow2 (- e)) < IZR (2 ^ 53)).
  { rewrite Rabs_mult, (Rabs_pos_eq (pow2 (- e))) by lra.
    rewrite <- (pow2_IZR 53) by lia.
    apply Rlt_le_trans with (pow2 (mag z) * pow2 (- e));
      [apply Rmult_lt_compat_r; assumption |].
    rewrite <- pow2_add. apply pow2_le. lia. }
  apply Rabs_def2 in Ht. destruct Ht as [Ht1 Ht2]. rewrite <- opp_IZR in Ht2.
  pose proof (nearest_even_le _ _ (Rlt_le _ _ Ht1)) as Hn1.
  pose proof (nearest_even_ge _ _ (Rlt_le _ _ Ht2)) as Hn2.
  unfold rnd in *. fold e in Hfin |- *.
  set (n := nearest_even (z * pow2 (- e))) in *.
  destruct (Z.eq_dec (Z.abs n) (2 ^ 53)) as [Htop | Hlow].
  - exists (n / 2)%Z, (e + 1)%Z.
    assert (Hn : n = (2 * (n / 2))%Z).
    { destruct (Z.abs_spec n) as [[_ Hn] | [_ Hn]]; rewrite Hn in Htop.
      - rewrite Htop. reflexivity.
      - assert (n = (- 2 ^ 53)%Z) as -> by lia. reflexivity. }
    repeat split; try lia; [| exact Hfin].
    rewrite pow2_succ. rewrite Hn at 1. rewrite mult_IZR. lra.
  - exists n, e. repeat split; try lia; exact Hfin.
Qed.

(** How a non-negative result is stored. *)
Lemma round64_nonneg (z : R) :
  0 <= z ->
  (exists v, round64 z = Fin v /\ representable v /\ v = rnd z /\ 0 <= v)
  \/ (round64 z = PInf /\ 0 < z).
Proof.
  intros Hz. unfold round64.
  destruct (Rlt_dec (Rabs (rnd z)) (pow2 1024)) as [H | H].
  - rewrite (Rltb_true _ _ H). left. exists (rnd z).
    repeat split; [apply rnd_is_representable; exact H | apply rnd_nonneg; exact Hz].
  - rewrite (Rltb_false _ _ H).
    destruct (Req_dec_T z 0) as [-> | Hnz].
    + exfalso. apply H. rewrite rnd_0, Rabs_R0. apply pow2_pos.
    + rewrite Rltb_true by lra. right. split; [reflexivity | lra].
Qed.

Lemma round64_opp (z : R) : round64 (- z) = (- round64 z)%D.
Proof.
  unfold round64. rewrite rnd_opp, Rabs_Ropp.
  destruct (Rlt_dec (Rabs (rnd z)) (pow2 1024)) as [H | H].
  - rewrite (Rltb_true _ _ H). reflexivity.
  - rewrite (Rltb_false _ _ H).
    assert (Hnz : z <> 0).
    { intros ->. apply H. rewrite rnd_0, Rabs_R0. apply pow2_pos. }
    destruct (Rlt_dec 0 z) as [Hpos | Hnpos].
    + rewrite (Rltb_true _ _ Hpos), Rltb_false by lra. reflexivity.
    + rewrite (Rltb_false _ _ Hnpos), Rltb_true by lra. reflexivity.
Qed.

Lemma representable_integer (z : Z) :
  (Z.abs z < 2 ^ 53)%Z -> representable (IZR z).
Proof.
  intros Hz. exists z, 0%Z. rewrite pow2_0.
  repeat split; try lia; [lra |].
  rewrite <- abs_IZR.
  apply Rlt_le_trans with (pow2 53); [| apply pow2_le; lia].
  rewrite (pow2_IZR 53) by lia. apply IZR_lt. exact Hz.
Qed.

(** ** Binary64 rounding: the special functions *)

(** Within [1e-16] of 0 the second-order term of [x - 0.5*x*x] is below a
    quarter of a unit in the last place of [x]: the expression evaluates to
    [x] itself. *)
Lemma second_order_absorbed (x : R) :
  representable x -> Rabs x <= 1.0000001e-16 ->
  Rounded.sub (Fin x) (Rounded.mul (Rounded.mul (Fin 0.5) (Fin x)) (Fin x))
  = Fin x.
Proof.
  intros Hx Hsmall.
  pose proof (Rabs_pos x) as Ha.
  pose proof pow2_m53 as H53. pose proof pow2_m54 as H54.
  pose proof pow2_m100 as H100. pose proof pow2_m1075_small as Hs.
  pose proof (pow2_pos (-1075)) as Hs0. pose proof (pow2_pos (-540)) as H540.
  assert (H540' : pow2 (-540) <= pow2 (-100)) by (apply pow2_le; lia).
  set (h := rnd (0.5 * x)). set (q := rnd (h * x)).
  assert (Hh : Rabs h <= Rabs x * 0.51 + pow2 (-1075)).
  { pose proof (rnd_abs_bound (0.5 * x)) as Hb. fold h in Hb.
    rewrite Rabs_mult, (Rabs_pos_eq 0.5) in Hb by lra. nra. }
  assert (Hhx : Rabs (h * x) <= (Rabs x * 0.51 + pow2 (-1075)) * Rabs x).
  { rewrite Rabs_mult. apply Rmult_le_compat_r; assumption. }
  assert (Hq : Rabs q <= Rabs (h * x) * 1.000001 + pow2 (-1075)).
  { pose proof (rnd_abs_bound (h * x)) as Hb. fold q in Hb.
    pose proof (Rabs_pos (h * x)). nra. }
  assert (Hs1 : pow2 (-1075) <= 1e-30) by nra.
  unfold Rounded.sub, Rounded.mul, Rounded.add.
  rewrite (round64_small (0.5 * x)) by (rewrite Rabs_mult, (Rabs_pos_eq 0.5); lra).
  fold h. rewrite (round64_small (h * x)) by nra. fold q. cbn [dneg].
  assert (Hgoal : rnd (x + - q) = x).
  { destruct (Rlt_dec (Rabs x) (pow2 (-540))) as [Htiny | Hnormal].
    - (* the product underflows to zero *)
      assert (Hq0 : q = 0).
      { apply rnd_tiny. apply Rle_lt_trans with (1 := Hhx).
        assert (Hp : pow2 (-1075) = pow2 (-535) * pow2 (-540))
          by (rewrite <- pow2_add; reflexivity).
        assert (Hp' : pow2 (-535) <= 1).
        { rewrite <- pow2_0. apply pow2_le. lia. }
        pose proof (pow2_pos (-535)).
        assert (Hp2 : pow2 (-540) <= pow2 (-535) * / 4).
        { replace (/ 4) with (pow2 (-2))
            by exact (pow2_neg_IZR 2 ltac:(lia)).
          rewrite <- pow2_add. apply pow2_le. lia. }
        nra. }
      rewrite Hq0, Ropp_0, Rplus_0_r. apply rnd_representable. exact Hx.
    - (* the rounded product is far below the last place of [x] *)
      apply rnd_absorbs; [exact Hx |].
      assert (Hx540 : pow2 (-540) <= Rabs x) by lra.
      assert (Hs2 : pow2 (-1075) <= 1e-30 * Rabs x) by nra.
      assert (Hhx' : Rabs (h * x) <= 5.2e-17 * Rabs x) by nra.
      rewrite H54. nra. }
  rewrite round64_finite; rewrite Hgoal; [reflexivity |].
  destruct Hx as (_ & _ & _ & _ & _ & Hlt). exact Hlt.
Qed.

Lemma exp_power_lower (x : R) (n : nat) :
  0 <= x -> (1 + x) ^ n <= exp (INR n * x).
Proof.
  intros Hx. induction n as [| n IH].
  - cbn [pow INR]. rewrite Rmult_0_l, exp_0. lra.
  - rewrite S_INR. replace ((INR n + 1) * x) with (x + INR n * x) by lra.
    rewrite exp_plus. cbn [pow].
    pose proof (exp_ineq1_le x). pose proof (pow_le (1 + x) n ltac:(lra)).
    apply Rmult_le_compat; lra.
Qed.

(** [exp(40)] is above [2^56]. *)
Lemma exp_40_large : pow2 56 <= exp 40.
Proof.
  rewrite (pow2_IZR 56) by lia.
  replace 40 with (INR 1280 * (1 / 32)).
  2:{ rewrite INR_IZR_INZ. change (Z.of_nat 1280) with 1280%Z. lra. }
  apply Rle_trans with (2 := exp_power_lower (1 / 32) 1280 ltac:(lra)).
  assert (H : (1 + 1 / 32) ^ 1280 * IZR 32 ^ 1280 = IZR 33 ^ 1280).
  { rewrite <- Rpow_mult_distr. f_equal. lra. }
  apply (Rmult_le_reg_r (IZR 32 ^ 1280)); [apply pow_lt; lra |].
  rewrite H, !pow_IZR, <- mult_IZR. apply IZR_le.
  apply Z.leb_le. vm_compute. reflexivity.
Qed.

(** [exp(-40)] is below [2^-56]. *)
Lemma exp_m40_small : exp (Ropp 40) <= pow2 (-56).
Proof.
  change (pow2 (-56)) with (pow2 (- (56))). rewrite pow2_opp, exp_Ropp.
  apply Rinv_le_contravar; [apply pow2_pos | exact exp_40_large].
Qed.

(** A positive result is stored as a non-negative value or as [+inf]. *)
Lemma round64_positive (z : R) :
  0 < z -> (exists v, round64 z = Fin v /\ v = rnd z /\ 0 <= v) \/ round64 z = PInf.
Proof.
  intros Hz. unfold round64.
  destruct (Rlt_dec (Rabs (rnd z)) (pow2 1024)) as [H | H].
  - rewrite (Rltb_true _ _ H). left. exists (rnd z).
    repeat split. apply rnd_nonneg. lra.
  - rewrite (Rltb_false _ _ H), (Rltb_true _ _ Hz). right. reflexivity.
Qed.

(** In binary64 [inv_logit] stays within the closed unit interval. *)
Lemma rounded_inv_logit_range (a : double) :
  a <> NaN -> exists v, Rounded.inv_logit a = Fin v /\ 0 <= v <= 1.
Proof.
  intros Ha. unfold Rounded.inv_logit.
  replace (Fin 1.0) with (Fin 1) by real_eq.
  assert (Hdiv : forall s, 1 <= s ->
            exists v, Rounded.div (Fin 1) (Fin s) = Fin v /\ 0 <= v <= 1).
  { intros s Hs. unfold Rounded.div. rewrite Reqb_false by lra.
    assert (Hq : 0 <= 1 / s <= 1).
    { split.
      - apply Rlt_le, Rdiv_lt_0_compat; lra.
      - apply (Rmult_le_reg_r s); [lra |]. unfold Rdiv.
        rewrite Rmult_assoc, Rinv_l by lra. lra. }
    pose proof (rnd_nonneg (1 / s) ltac:(lra)) as H0.
    pose proof (rnd_le_pow2 (1 / s) 0 ltac:(lia)) as H1.
    rewrite pow2_0 in H1. specialize (H1 Hq).
    exists (rnd (1 / s)). split; [| lra].
    apply round64_finite. rewrite Rabs_pos_eq by exact H0.
    pose proof pow2_1024_large. lra. }
  assert (Hadd : forall e, 0 <= e ->
            exists v, Rounded.div (Fin 1) (Rounded.add (Fin 1) (Fin e)) = Fin v
                      /\ 0 <= v <= 1).
  { intros e He. unfold Rounded.add.
    destruct (round64_positive (1 + e) ltac:(lra)) as [(s & -> & Hs & _) | ->].
    - apply Hdiv. rewrite Hs.
      pose proof (rnd_ge_pow2 (1 + e) 0 ltac:(lia)) as H1.
      rewrite pow2_0 in H1. apply H1. lra.
    - exists 0. split; [reflexivity | lra]. }
  destruct a as [r | | |]; [| | | contradiction].
  - cbn [dneg Rounded.exp].
    destruct (round64_positive (exp (- r)) (exp_pos _)) as [(e & -> & _ & He) | ->].
    + apply Hadd. exact He.
    + exists 0. split; [reflexivity | lra].
  - cbn [dneg Rounded.exp dexp].
    destruct (Hadd 0 ltac:(lra)) as (v & Hv & Hr). exists v. split; assumption.
  - exists 0. split; [reflexivity | lra].
Qed.

(** From [a = 40] on the exponential is below a quarter of a unit in the
    last place of 1: the sum [1 + exp(-a)] is stored as 1 and the quotient
    is exactly 1. *)
Lemma rounded_inv_logit_saturates (a : R) :
  40 <= a -> Rounded.inv_logit (Fin a) = Fin 1.
Proof.
  intros Ha.
  unfold Rounded.inv_logit. cbn [dneg Rounded.exp].
  replace (Fin 1.0) with (Fin 1) by real_eq.
  pose proof (exp_pos (- a)) as Hpos.
  assert (Hexp : exp (- a) <= pow2 (-56)).
  { apply Rle_trans with (2 := exp_m40_small).
    destruct (Req_dec_T a 40) as [-> | Hne]; [lra |].
    left. apply exp_increasing. lra. }
  set (z := exp (- a)) in *.
  pose proof (pow2_pos (-56)) as H56.
  assert (H5654 : pow2 (-56) = pow2 (-54) / 4).
  { change (pow2 (-56)) with (pow2 (-54 - 1 - 1)). rewrite !pow2_pred. lra. }
  pose proof pow2_m54 as H54. pose proof pow2_m53 as H53.
  pose proof pow2_m1075_small as Hs. pose proof pow2_m100 as H100.
  pose proof (pow2_pos (-1075)) as Hs0. pose proof (pow2_pos (-540)) as H540.
  assert (H540' : pow2 (-540) <= pow2 (-100)) by (apply pow2_le; lia).
  assert (Hs1 : pow2 (-1075) <= pow2 (-54) / 4) by nra.
  pose proof (rnd_abs_bound z) as Hb. rewrite (Rabs_pos_eq z) in Hb by lra.
  pose proof (rnd_nonneg z ltac:(lra)) as He0.
  rewrite (Rabs_pos_eq _ He0) in Hb.
  rewrite (round64_small z) by (rewrite Rabs_pos_eq; lra).
  unfold Rounded.add.
  assert (Hsum : rnd (1 + rnd z) = 1).
  { replace (1 + rnd z) with (1 - - rnd z) by lra.
    apply rnd_absorbs; [exact representable_1 |].
    rewrite Rabs_Ropp, Rabs_R1, (Rabs_pos_eq _ He0). nra. }
  rewrite round64_finite; rewrite Hsum;
    [| rewrite Rabs_R1; pose proof pow2_1024_large; lra].
  unfold Rounded.div. rewrite Reqb_false by lra.
  replace (1 / 1) with 1 by lra. apply round64_representable.
  exact representable_1.
Qed.

Lemma rounded_inv_logit_at_40 : Rounded.inv_logit (Fin 40) = Fin 1.
Proof. apply rounded_inv_logit_saturates. lra. Qed.


Lemma exp_power (x : R) (n : nat) : exp (INR n * x) = exp x ^ n.
Proof.
  induction n as [| n IH].
  - cbn [pow INR]. rewrite Rmult_0_l, exp_0. reflexivity.
  - rewrite S_INR. replace ((INR n + 1) * x) with (x + INR n * x) by lra.
    rewrite exp_plus, IH. reflexivity.
Qed.

Lemma pow2_power (k : Z) (n : nat) : pow2 k ^ n = pow2 (k * Z.of_nat n).
Proof.
  induction n as [| n IH].
  - rewrite Z.mul_0_r. reflexivity.
  - cbn [pow]. rewrite IH, <- pow2_add. f_equal. lia.
Qed.

(** [exp(800)] is above [2^1120]. *)
Lemma exp_800_large : pow2 1120 <= exp 800.
Proof.
  pose proof exp_40_large as H40.
  replace 800 with (INR 20 * 40).
  2:{ rewrite INR_IZR_INZ. change (Z.of_nat 20) with 20%Z. lra. }
  rewrite exp_power.
  apply Rle_trans with (pow2 56 ^ 20).
  - rewrite pow2_power. apply pow2_le. lia.
  - apply pow_incr. split; [left; apply pow2_pos | exact H40].
Qed.

(** At [a = -800] the exponential overflows: the sum is [+inf] and the
    quotient is exactly 0. *)
Lemma rounded_inv_logit_at_m800 : Rounded.inv_logit (Fin (-800)) = Fin 0.
Proof.
  unfold Rounded.inv_logit. cbn [dneg Rounded.exp].
  replace (- -800) with 800 by lra.
  assert (Hover : round64 (exp 800) = PInf).
  { unfold round64.
    assert (Hbig : pow2 1024 <= exp 800).
    { apply Rle_trans with (2 := exp_800_large). apply pow2_le. lia. }
    pose proof (rnd_ge_pow2 (exp 800) 1024 ltac:(lia) Hbig) as H.
    pose proof (pow2_pos 1024) as Hp.
    rewrite Rltb_false by (rewrite Rabs_pos_eq; lra).
    rewrite Rltb_true by apply exp_pos. reflexivity. }
  rewrite Hover. reflexivity.
Qed.

(** From 800 upwards the exponential of the negated value underflows to
    zero. *)
Lemma rounded_exp_underflows (t : R) :
  800 <= t -> Rounded.exp (Fin (- t)) = Fin 0.
Proof.
  intros Ht. cbn [Rounded.exp].
  pose proof (exp_pos (- t)) as Hpos.
  assert (Hsmall : exp (- t) < pow2 (-1075)).
  { apply Rle_lt_trans with (exp (- (800))).
    - destruct (Req_dec_T t 800) as [-> | Hne]; [lra |].
      left. apply exp_increasing. lra.
    - rewrite exp_Ropp.
      change (pow2 (-1075)) with (pow2 (- (1075))). rewrite pow2_opp.
      apply Rinv_lt_contravar.
      + apply Rmult_lt_0_compat; [apply pow2_pos | apply exp_pos].
      + apply Rlt_le_trans with (2 := exp_800_large). apply pow2_lt. lia. }
  assert (H0 : rnd (exp (- t)) = 0).
  { apply rnd_tiny. rewrite Rabs_pos_eq by lra. exact Hsmall. }
  unfold round64. rewrite H0, Rabs_R0.
  rewrite Rltb_true by apply pow2_pos. reflexivity.
Qed.

(** ** Properties of the special functions *)

(** C9 (as amended).  For every finite input [a], [inv_logit(a)] as the
    machine evaluates it lies within the closed interval [[0,1]], whose
    bounds are attained (1 at [a = 40], 0 at [a = -800]); the exact value
    [1 / (1 + exp(-a))] lies strictly between 0 and 1. *)
Theorem inv_logit_within_unit_interval :
  (forall a : R,
      (exists v, Rounded.inv_logit (Fin a) = Fin v /\ 0 <= v <= 1)
      /\ inv_logit (Fin a) = Fin (1 / (1 + exp (- a)))
      /\ 0 < 1 / (1 + exp (- a)) < 1)
  /\ Rounded.inv_logit (Fin 40) = Fin 1
  /\ Rounded.inv_logit (Fin (-800)) = Fin 0.
Proof.
  split; [| split; [exact rounded_inv_logit_at_40
                   | exact rounded_inv_logit_at_m800]].
  intros a.
  pose proof (exp_pos (- a)) as Hexp.
  split; [apply rounded_inv_logit_range; discriminate |].
  split.
  - unfold inv_logit. cbn. decide_R.
    replace 1.0 with 1 by lra. reflexivity.
  - split.
    + apply Rdiv_lt_0_compat; lra.
    + apply (Rmult_lt_reg_r (1 + exp (- a))); [lra |].
      unfold Rdiv. rewrite Rmult_assoc, Rinv_l by lra. lra.
Qed.

(** C9, the claim as stated fails in binary64: at [a = 40] the machine
    value of [inv_logit] is exactly 1, which is not strictly within
    [(0,1)]. *)
Lemma inv_logit_reaches_one_at_40 :
  Rounded.inv_logit (Fin 40) = Fin 1
  /\ ~ (exists v, Rounded.inv_logit (Fin 40) = Fin v /\ 0 < v < 1).
Proof.
  split; [exact rounded_inv_logit_at_40 |].
  intros (v & Hv & Hlt). rewrite rounded_inv_logit_at_40 in Hv.
  injection Hv as <-. lra.
Qed.

(** [log1p] throws exactly below -1; elsewhere it returns [log(1+x)] by
    regime. *)
Lemma log1p_by_regime (x : double) :
  log1p x = if (x <? Fin (-1))%D
            then Throw (domain_error "x can not be less than -1")
            else Ok (log_one_plus x).
Proof.
  unfold log1p, log_one_plus, dgt.
  destruct x as [r | | |]; cbn; try reflexivity.
  - unfold Rabs. destruct (Rcase_abs r); split_R; try (exfalso; lra); cbn;
      real_eq.
Qed.

Lemma dlt_neg_swap (x : double) :
  ((- x) <? Fin (-1))%D = (x >? Fin 1)%D.
Proof.
  unfold dgt. destruct x as [r | | |]; cbn; try reflexivity.
  split_R; try (exfalso; lra); reflexivity.
Qed.

(** [Rounded.log1p] throws exactly below -1; elsewhere it returns
    [log(1+x)] for [|x| > 1e-9] and the value of [x - 0.5*x*x] near 0: for
    [|x| <= 1e-16], where the code returns [x], that expression evaluates to
    [x]. *)
Lemma rounded_log1p_by_regime (x : double) :
  binary64 x ->
  Rounded.log1p x = if (x <? Fin (-1))%D
                    then Throw (domain_error "x can not be less than -1")
                    else Ok (Rounded.log_one_plus x).
Proof.
  intros Hx.
  destruct (literal_small 1e-9 ltac:(lra)) as (l9 & Hl9 & Hb9).
  destruct (literal_small 1e-16 ltac:(lra)) as (l16 & Hl16 & Hb16).
  unfold Rounded.log1p, Rounded.log_one_plus, dgt. rewrite Hl9, Hl16.
  replace (Fin (-1.0)) with (Fin (-1)) by real_eq.
  destruct x as [r | | |]; cbn [dlt dabs dneg orb]; try reflexivity.
  cbn [binary64] in Hx.
  destruct (Rlt_dec r (-1)) as [Hlow | Hlow];
    [rewrite (Rltb_true _ _ Hlow); reflexivity | rewrite (Rltb_false _ _ Hlow)].
  unfold Rabs. destruct (Rcase_abs r) as [Hneg | Hpos].
  - rewrite (Rltb_false l9 r) by lra. cbn [orb].
    destruct (Rlt_dec r (- l9)) as [Hfar | Hnear].
    + rewrite (Rltb_true _ _ Hfar), (Rltb_true l9 (- r)) by lra. reflexivity.
    + rewrite (Rltb_false _ _ Hnear), (Rltb_false l9 (- r)) by lra.
      rewrite (Rltb_false l16 r) by lra. cbn [orb].
      destruct (Rlt_dec r (- l16)) as [H2 | H3].
      * rewrite (Rltb_true _ _ H2). reflexivity.
      * rewrite (Rltb_false _ _ H3). f_equal. symmetry.
        apply second_order_absorbed; [exact Hx |].
        rewrite Rabs_left by exact Hneg. lra.
  - rewrite (Rltb_false r (- l9)) by lra. rewrite orb_false_r.
    destruct (Rlt_dec l9 r) as [Hfar | Hnear].
    + rewrite (Rltb_true _ _ Hfar). reflexivity.
    + rewrite (Rltb_false _ _ Hnear).
      rewrite (Rltb_false r (- l16)) by lra. rewrite orb_false_r.
      destruct (Rlt_dec l16 r) as [H2 | H3].
      * rewrite (Rltb_true _ _ H2). reflexivity.
      * rewrite (Rltb_false _ _ H3). f_equal. symmetry.
        apply second_order_absorbed; [exact Hx |].
        rewrite Rabs_right by exact Hpos. lra.
Qed.

Lemma binary64_neg (x : double) : binary64 x -> binary64 (- x)%D.
Proof.
  destruct x as [r | | |]; cbn; try exact (fun H => H).
  intros (m & e & Hr & Hm & He & Hlt).
  exists (- m)%Z, e. rewrite opp_IZR, Rabs_Ropp, Z.abs_opp.
  repeat split; try assumption. lra.
Qed.

(** C6.  [log1p(x)] raises a domain error exactly when [x < -1] and
    [log1m(x)] exactly when [x > 1]; for every other [x] both return without
    error: [log(1+x)], respectively [log(1-x)], away from 0 ([|x| > 1e-9])
    and the second-order Taylor expansion [x - 0.5*x*x] near 0, every
    operation rounded to binary64. *)
Theorem log1p_log1m_domain_errors_and_regimes :
  forall x : double,
    binary64 x ->
    is_domain_error (Rounded.log1p x) = (x <? Fin (-1))%D
    /\ is_domain_error (Rounded.log1m x) = (x >? Fin 1)%D
    /\ returns (Rounded.log1p x) = negb (x <? Fin (-1))%D
    /\ returns (Rounded.log1m x) = negb (x >? Fin 1)%D
    /\ Rounded.log1p x
       = (if (x <? Fin (-1))%D
          then Throw (domain_error "x can not be less than -1")
          else Ok (Rounded.log_one_plus x))
    /\ Rounded.log1m x
       = (if (x >? Fin 1)%D
          then Throw (domain_error "x can not be less than -1")
          else Ok (Rounded.log_one_plus (- x))).
Proof.
  intros x Hx.
  pose proof (rounded_log1p_by_regime x Hx) as H1.
  pose proof (rounded_log1p_by_regime (- x)%D (binary64_neg x Hx)) as H2.
  rewrite dlt_neg_swap in H2. fold (Rounded.log1m x) in H2.
  rewrite H1, H2.
  destruct (x <? Fin (-1))%D, (x >? Fin 1)%D; cbn; repeat split; reflexivity.
Qed.

(** The binary64 value [2^-60] lies within [1e-16] of 0. *)
Lemma log1p_log1m_domain_errors_and_regimes_witness :
  let x := Fin (pow2 (-60)) in
  binary64 x
  /\ Rounded.log1p x
     = (if (x <? Fin (-1))%D
        then Throw (domain_error "x can not be less than -1")
        else Ok (Rounded.log_one_plus x))
  /\ Rounded.log1m x
     = (if (x >? Fin 1)%D
        then Throw (domain_error "x can not be less than -1")
        else Ok (Rounded.log_one_plus (- x))).
Proof.
  assert (Hx : binary64 (Fin (pow2 (-60)))).
  { exists 1%Z, (-60)%Z. repeat split; try lia; [lra |].
    rewrite Rabs_pos_eq by (left; apply pow2_pos). apply pow2_lt. lia. }
  split; [exact Hx |].
  apply (log1p_log1m_domain_errors_and_regimes (Fin (pow2 (-60))) Hx).
Defined.

Lemma ln_one_plus_lt (y : R) : 0 < y -> ln (1 + y) < y.
Proof.
  intros Hy. pose proof (exp_ineq1 y ltac:(lra)) as Hexp.
  rewrite <- (ln_exp y) at 2. apply ln_increasing; lra.
Qed.

Lemma log_sum_exp_comm (a b : double) : log_sum_exp a b = log_sum_exp b a.
Proof.
  unfold log_sum_exp, dgt.
  destruct a as [x | | |], b as [y | | |]; try reflexivity.
  unfold dlt.
  destruct (Rlt_dec y x) as [Hyx | Hyx], (Rlt_dec x y) as [Hxy | Hxy].
  - exfalso; lra.
  - rewrite (Rltb_true y x Hyx), (Rltb_false x y Hxy). reflexivity.
  - rewrite (Rltb_false y x Hyx), (Rltb_true x y Hxy). reflexivity.
  - assert (x = y) by lra. subst y. reflexivity.
Qed.

Lemma log_sum_exp_neg_infinity (a : R) : log_sum_exp (Fin a) NInf = Ok (Fin a).
Proof.
  unfold log_sum_exp, dgt, log1p. cbn. decide_R. cbn. real_eq.
Qed.

(** C7.  The pairwise [log_sum_exp] is commutative, for all arguments, and
    negative infinity is its identity: [log_sum_exp(a, -inf)] is [a] for
    every finite [a]. *)
Theorem log_sum_exp_commutative_with_identity :
  (forall a b : double, log_sum_exp a b = log_sum_exp b a)
  /\ (forall a : R, log_sum_exp (Fin a) NInf = Ok (Fin a)).
Proof.
  split.
  - exact log_sum_exp_comm.
  - exact log_sum_exp_neg_infinity.
Qed.

(** *** [softmax] and its helper [maximum] *)

(** With an output vector of the same size, the first loop of [softmax]
    exponentiates every [x[i] - max_x] and adds the results up. *)
Lemma softmax_exp_map (max_x : double) (x : list double) :
  forall (simplex : list double) (sum : double),
    List.length x = List.length simplex ->
    softmax_exp max_x x simplex sum
    = (map (fun xi => dexp (xi - max_x)) x,
       fold_left dadd (map (fun xi => dexp (xi - max_x)) x) sum).
Proof.
  induction x as [| xi x' IH]; intros simplex sum Hlen.
  - destruct simplex; [reflexivity | discriminate].
  - destruct simplex as [| s simplex']; [discriminate |].
    cbn [softmax_exp map fold_left]. rewrite IH by (cbn in Hlen; lia).
    reflexivity.
Qed.

(** The values [softmax] exponentiates are those of [softmax_exponents]. *)
Lemma softmax_exponentiates_softmax_exponents (x simplex s : list double) :
  softmax x simplex = Ok s ->
  exists e,
    softmax_exponents x = Ok e
    /\ s = softmax_normalize (map dexp e)
                             (fold_left dadd (map dexp e) (Fin 0.0)).
Proof.
  unfold softmax, softmax_exponents.
  destruct (Nat.eqb_spec (List.length x) (List.length simplex)) as [Hlen | Hlen];
    cbn [negb]; [| discriminate].
  destruct (maximum x) as [max_x | |]; cbn [bind]; try discriminate.
  rewrite softmax_exp_map by exact Hlen.
  intros H. injection H as <-.
  eexists. split; [reflexivity |]. rewrite map_map. reflexivity.
Qed.

(** The loop of [maximum] keeps the smaller value at every step. *)
Lemma maximum_fold_lower_bound (rest : list double) :
  forall (x0 : R),
    Forall (fun xi => is_finite xi = true) rest ->
    exists m,
      fold_left (fun max_x xi => if (xi <? max_x)%D then xi else max_x)
                rest (Fin x0) = Fin m
      /\ m <= x0
      /\ Forall (fun xi => exists r, xi = Fin r /\ m <= r) rest.
Proof.
  induction rest as [| xi rest IH]; intros x0 Hfin.
  - exists x0. repeat split; [lra | constructor].
  - inversion Hfin as [| ? ? Hxi Hrest]; subst.
    destruct xi as [r | | |]; try discriminate.
    cbn [fold_left dlt].
    destruct (Rlt_dec r x0) as [Hlt | Hge].
    + rewrite (Rltb_true _ _ Hlt).
      destruct (IH r Hrest) as (m & Hm & Hle & Hall).
      exists m. repeat split; [exact Hm | lra |].
      constructor; [exists r; split; [reflexivity | exact Hle] | exact Hall].
    + rewrite (Rltb_false _ _ Hge).
      destruct (IH x0 Hrest) as (m & Hm & Hle & Hall).
      exists m. repeat split; [exact Hm | exact Hle |].
      constructor; [exists r; split; [reflexivity | lra] | exact Hall].
Qed.

(** On finite vectors [maximum] returns a lower bound of the elements: with
    the comparison [x[i] < max_x] it selects the minimum. *)
Lemma maximum_returns_lower_bound (x : list double) :
  x <> [] ->
  Forall (fun xi => is_finite xi = true) x ->
  exists m,
    maximum x = Ok (Fin m)
    /\ Forall (fun xi => exists r, xi = Fin r /\ m <= r) x.
Proof.
  intros Hne Hfin. destruct x as [| x0 rest]; [contradiction |].
  inversion Hfin as [| ? ? Hx0 Hrest]; subst.
  destruct x0 as [r0 | | |]; try discriminate.
  destruct (maximum_fold_lower_bound rest r0 Hrest) as (m & Hm & Hle & Hall).
  exists m. unfold maximum. rewrite Hm. split; [reflexivity |].
  constructor; [exists r0; split; [reflexivity | exact Hle] | exact Hall].
Qed.

(** C1, the code at [x = (0, 1000)]: [maximum] returns 0, the smaller
    element, so [softmax] passes [1000 - 0] to [exp]; the exponent argument
    of the second element is positive. *)
Theorem softmax_subtracts_minimum_at_0_1000 :
  maximum [Fin 0; Fin 1000] = Ok (Fin 0)
  /\ softmax_exponents [Fin 0; Fin 1000] = Ok [Fin 0; Fin 1000]
  /\ (Fin 1000 >? Fin 0)%D = true.
Proof.
  assert (Hmax : maximum [Fin 0; Fin 1000] = Ok (Fin 0)).
  { unfold maximum. cbn. decide_R. reflexivity. }
  split; [exact Hmax |]. split.
  - unfold softmax_exponents. rewrite Hmax. cbn.
    do 2 f_equal; [real_eq | f_equal; real_eq].
  - unfold dgt. cbn. decide_R. reflexivity.
Qed.

(** *** The n-ary [log_sum_exp] *)

Lemma dadd_assoc (a b c : double) : (a + (b + c) = a + b + c)%D.
Proof. destruct a, b, c; cbn; try reflexivity; real_eq. Qed.

Lemma dadd_comm (a b : double) : (a + b = b + a)%D.
Proof. destruct a, b; cbn; try reflexivity; real_eq. Qed.

Lemma dadd_0_l (a : double) : (Fin 0 + a)%D = a.
Proof. destruct a; cbn; try reflexivity; real_eq. Qed.

Lemma larger_right_comm (a x y : double) :
  larger (larger a x) y = larger (larger a y) x.
Proof.
  unfold larger, dgt.
  destruct a, x, y; cbn; try reflexivity;
    split_R; try (exfalso; lra); cbn; decide_R; try reflexivity;
    split_R; try (exfalso; lra); real_eq.
Qed.

Lemma fold_left_larger_step (l : list double) :
  forall a v, fold_left larger l (larger a v) = larger (fold_left larger l a) v.
Proof.
  induction l as [| w l IH]; intros a v; [reflexivity |].
  cbn [fold_left]. rewrite (larger_right_comm a v w). apply IH.
Qed.

(** The first loop of the n-ary [log_sum_exp] computes [max(x)]. *)
Lemma max_loop_is_max_element (x : list double) :
  fold_left (fun max xi => if (xi >? max)%D then xi else max) x NInf
  = max_element x.
Proof.
  change (fold_left larger x NInf = max_element x).
  unfold max_element. generalize NInf.
  induction x as [| v x IH]; intros a; [reflexivity |].
  cbn [fold_left fold_right]. rewrite fold_left_larger_step, IH. reflexivity.
Qed.

(** The second loop adds [exp(x_i - max)] for the entries other than
    negative infinity. *)
Lemma sum_loop_is_filtered_sum (max : double) (x : list double) :
  forall acc,
    fold_left
      (fun sum xi => if (xi !=? NInf)%D then (sum + dexp (xi - max))%D else sum)
      x acc
    = fold_left dadd
        (map (fun v => dexp (v - max)) (filter (fun v => v !=? NInf)%D x)) acc.
Proof.
  induction x as [| v x IH]; intros acc; [reflexivity |].
  cbn [fold_left filter]. destruct (v !=? NInf)%D; cbn [map fold_left]; apply IH.
Qed.

Lemma fold_left_dadd_sum_of (l : list double) :
  fold_left dadd l (Fin 0.0) = sum_of l.
Proof.
  replace (Fin 0.0) with (Fin 0) by real_eq.
  unfold sum_of. apply fold_symmetric.
  - intros a b c. apply dadd_assoc.
  - intros a. apply dadd_comm.
Qed.

(** The n-ary [log_sum_exp] computes the specification's formula. *)
Lemma log_sum_exp_vector_formula (x : list double) :
  log_sum_exp_vector x = log_sum_exp_formula x.
Proof.
  unfold log_sum_exp_vector, log_sum_exp_formula.
  rewrite max_loop_is_max_element, sum_loop_is_filtered_sum,
    fold_left_dadd_sum_of.
  reflexivity.
Qed.

Lemma dle_refl (v : double) :
  finite_or_neg_infinity v = true -> (v <=? v)%D = true.
Proof.
  destruct v; cbn; try discriminate; intros _; [| reflexivity].
  unfold dle. cbn. rewrite (Reqb_true r r eq_refl). apply orb_true_r.
Qed.

Lemma dle_lt_trans (w m v : double) :
  (w <=? m)%D = true -> (v >? m)%D = true -> (w <=? v)%D = true.
Proof.
  unfold dle, dgt.
  destruct w, m, v; cbn; try discriminate; try reflexivity;
    split_R; cbn; try discriminate; try reflexivity; intros; exfalso; lra.
Qed.

Lemma not_gt_dle (m v : double) :
  finite_or_neg_infinity m = true -> finite_or_neg_infinity v = true ->
  (v >? m)%D = false -> (v <=? m)%D = true.
Proof.
  unfold dle, dgt.
  destruct m, v; cbn; try discriminate; try reflexivity;
    split_R; cbn; try discriminate; try reflexivity; intros; exfalso; lra.
Qed.

(** On entries that are finite or negative infinity, [max(x)] is again such a
    value and bounds every entry from above. *)
Lemma max_element_upper_bound (x : list double) :
  Forall (fun v => finite_or_neg_infinity v = true) x ->
  finite_or_neg_infinity (max_element x) = true
  /\ Forall (fun v => (v <=? max_element x)%D = true) x.
Proof.
  induction 1 as [| v x Hv Hx [IHm IHall]]; [split; [reflexivity | constructor] |].
  cbn [max_element fold_right]. fold (max_element x). unfold larger.
  destruct (v >? max_element x)%D eqn:Hgt.
  - split; [exact Hv |]. constructor; [apply dle_refl; exact Hv |].
    eapply Forall_impl; [| exact IHall]. cbn beta. intros w Hw.
    eapply dle_lt_trans; eassumption.
  - split; [exact IHm |]. constructor; [| exact IHall].
    apply not_gt_dle; assumption.
Qed.

Lemma sum_of_positive (l : list double) :
  Forall (fun t => exists r, t = Fin r /\ 0 < r) l ->
  exists s, sum_of l = Fin s /\ 0 <= s /\ (l <> [] -> 0 < s).
Proof.
  induction 1 as [| t l (r & -> & Hr) Hl (s & Hs & Hs0 & _)].
  - exists 0. repeat split; [lra | intros H; contradiction].
  - exists (r + s). cbn [sum_of fold_right]. fold (sum_of l). rewrite Hs.
    repeat split; [lra | intros _; lra].
Qed.

(** Every entry the sum exponentiates is finite and at most [max(x)]. *)
Lemma summed_entries_below_max (x : list double) :
  Forall (fun v => finite_or_neg_infinity v = true) x ->
  Forall (fun v => exists r mr,
            v = Fin r /\ max_element x = Fin mr /\ r <= mr)
         (filter (fun v => v !=? NInf)%D x).
Proof.
  intros Hx. destruct (max_element_upper_bound x Hx) as [Hm Hall].
  rewrite Forall_forall in *. intros v Hin.
  apply filter_In in Hin. destruct Hin as [Hin Hne].
  specialize (Hx v Hin). specialize (Hall v Hin).
  destruct v as [r | | |]; try discriminate.
  destruct (max_element x) as [mr | | |]; try discriminate.
  exists r, mr. repeat split.
  unfold dle in Hall. cbn in Hall.
  destruct (Rlt_dec r mr) as [Hlt | Hge]; [lra |].
  rewrite (Rltb_false _ _ Hge) in Hall. cbn in Hall.
  apply Reqb_spec in Hall. lra.
Qed.

(** C8.  For every vector [x] the n-ary [log_sum_exp] returns
    [max(x) + log(sum of exp(x_i - max(x)))], the sum leaving out the entries
    equal to negative infinity; when the entries are finite, however large,
    or negative infinity, every argument of [exp] is at most 0, so that no
    exponentiation overflows, and the result is not NaN. *)
Theorem log_sum_exp_vector_stable :
  forall x : list double,
    log_sum_exp_vector x = log_sum_exp_formula x
    /\ (Forall (fun v => finite_or_neg_infinity v = true) x ->
        Forall (fun v => (v - max_element x <=? Fin 0)%D = true)
               (filter (fun v => v !=? NInf)%D x)
        /\ is_nan (log_sum_exp_vector x) = false).
Proof.
  intros x. split; [apply log_sum_exp_vector_formula |].
  intros Hx. pose proof (summed_entries_below_max x Hx) as Hsum.
  split.
  - eapply Forall_impl; [| exact Hsum]. cbn beta.
    intros v (r & mr & -> & -> & Hle). unfold dle. cbn.
    destruct (Rlt_dec (r + - mr) 0) as [Hlt | Hge].
    + rewrite (Rltb_true _ _ Hlt). reflexivity.
    + rewrite (Rltb_false _ _ Hge), Reqb_true by lra. reflexivity.
  - rewrite log_sum_exp_vector_formula. unfold log_sum_exp_formula.
    destruct (sum_of_positive
                (map (fun v => dexp (v - max_element x))
                     (filter (fun v => v !=? NInf)%D x)))
      as (s & Hs & Hs0 & _).
    { rewrite Forall_map. eapply Forall_impl; [| exact Hsum]. cbn beta.
      intros v (r & mr & -> & -> & Hle). cbn. eexists. split; [reflexivity |].
      apply exp_pos. }
    rewrite Hs.
    destruct (max_element_upper_bound x Hx) as [Hm _].
    destruct (max_element x) as [mr | | |]; try discriminate;
      cbn; split_R; try (exfalso; lra); reflexivity.
Qed.

(** The stability statement at a vector with large entries and a negative
    infinity, [x = (1000, -inf, 1000.1)]. *)
Lemma log_sum_exp_vector_stable_witness :
  let x := [Fin 1000; NInf; Fin 1000.1] in
  Forall (fun v => (v - max_element x <=? Fin 0)%D = true)
         (filter (fun v => v !=? NInf)%D x)
  /\ is_nan (log_sum_exp_vector x) = false.
Proof.
  intros x.
  apply (proj2 (log_sum_exp_vector_stable x)).
  repeat constructor.
Defined.


(** *** [binomial_coefficient_log] *)

Lemma int_result_in_range (z : Z) :
  (INT_MIN <= z <= INT_MAX)%Z -> int_result z = Ok z.
Proof.
  intros Hz. unfold int_result, in_int.
  replace ((INT_MIN <=? z)%Z && (z <=? INT_MAX)%Z) with true; [reflexivity |].
  symmetry. apply andb_true_intro. split; apply Z.leb_le; lia.
Qed.


Section BinomialCoefficient.

Variable lgammaR : R -> R.

(** On [double] arguments the template selects the log-gamma form when
    [N < 1000] or [N - n < 1000], and the asymptotic expansion otherwise. *)
Lemma binomial_coefficient_log_double (N n : double) :
  binomial_coefficient_log lgammaR N n
  = Ok (if (N <? Fin 1000)%D || (N - n <? Fin 1000)%D
        then log_gamma_form lgammaR N n
        else asymptotic_form lgammaR N n).
Proof.
  unfold binomial_coefficient_log, log_gamma_form, asymptotic_form.
  cbn [nsub ndiv nmul lit to_double Number_double bind].
  replace (Fin 1.0) with (Fin 1) by real_eq.
  destruct ((N <? Fin 1000)%D || (N - n <? Fin 1000)%D); reflexivity.
Qed.




End BinomialCoefficient.



(** ** Properties of the evaluators *)

(** *** [binomial_log] *)

Lemma IZR_le_dle (a b : Z) : (a <= b)%Z -> (of_Z a <=? of_Z b)%D = true.
Proof.
  intros H. apply IZR_le in H. unfold dle, of_Z. cbn.
  destruct (Rlt_dec (IZR a) (IZR b)) as [Hlt | Hge].
  - rewrite (Rltb_true _ _ Hlt). reflexivity.
  - rewrite (Rltb_false _ _ Hge), Reqb_true by lra. reflexivity.
Qed.

Lemma Rle_dle (a b : R) : a <= b -> (Fin a <=? Fin b)%D = true.
Proof.
  intros H. unfold dle. cbn.
  destruct (Rlt_dec a b) as [Hlt | Hge].
  - rewrite (Rltb_true _ _ Hlt). reflexivity.
  - rewrite (Rltb_false _ _ Hge), Reqb_true by lra. reflexivity.
Qed.

(** [log1m] returns a finite value below 1. *)
Lemma log1m_finite (theta : R) :
  theta < 1 -> exists l, log1m (Fin theta) = Ok (Fin l).
Proof.
  intros Ht. unfold log1m. rewrite log1p_by_regime. cbn [dneg dlt].
  rewrite Rltb_false by lra. unfold log_one_plus, dgt. cbn.
  split_R; try (exfalso; lra); cbn; eexists; reflexivity.
Qed.

Section BinomialLog.

Variable lgammaR : R -> R.
Variable policy : Policy.

(** On a valid triple every check passes and the two summands are
    accumulated as the proportionality flag and the type of [theta] select. *)
Lemma binomial_log_valid (propto : bool) (T_prob : scalar_type)
  (n N : Z) (theta : R) :
  (0 <= n <= N)%Z -> 0 <= theta <= 1 ->
  binomial_log lgammaR policy propto T_prob n N (Fin theta)
  = (lp <- (if include_summand propto [] then
              b <- binomial_coefficient_log lgammaR N n ;; Ok (Fin 0.0 + b)%D
            else Ok (Fin 0.0)) ;;
     lp <- (if include_summand propto [T_prob] then
              N_n <- nsub N n ;;
              l <- log1m (Fin theta) ;;
              Ok (lp + (multiply_log (of_Z n) (Fin theta) + of_Z N_n * l))%D
            else Ok lp) ;;
     Ok (Value lp)).
Proof.
  intros [Hn HN] [Ht0 Ht1]. unfold binomial_log.
  unfold check_bounded, check_nonnegative, check_finite, dge.
  rewrite (IZR_le_dle 0 n Hn), (IZR_le_dle n N HN).
  change (Fin 0) with (of_Z 0). rewrite (IZR_le_dle 0 N) by lia.
  replace (Fin 0.0) with (Fin 0) by real_eq.
  replace (Fin 1.0) with (Fin 1) by real_eq.
  rewrite (Rle_dle 0 theta Ht0), (Rle_dle theta 1 Ht1).
  reflexivity.
Qed.

End BinomialLog.

(** C10.  With [propto = true] and a plain type for [theta], [binomial_log]
    returns exactly 0 on every valid input ([0 <= n <= N], [theta] finite in
    [[0,1]]): both summands are elided. *)
Theorem binomial_log_propto_plain_is_zero :
  forall (lgammaR : R -> R) (policy : Policy) (n N : Z) (theta : R),
    (0 <= n <= N)%Z -> 0 <= theta <= 1 ->
    binomial_log lgammaR policy true plain n N (Fin theta) = Ok (Value (Fin 0)).
Proof.
  intros lgammaR policy n N theta Hn Ht.
  rewrite binomial_log_valid by assumption.
  cbn. real_eq.
Qed.

(** The valid triple [(n, N, theta) = (3, 10, 0.5)] with a plain [theta]. *)
Lemma binomial_log_propto_plain_is_zero_witness :
  binomial_log reference_lgammaR default_policy true plain 3 10 (Fin 0.5)
  = Ok (Value (Fin 0)).
Proof.
  apply binomial_log_propto_plain_is_zero; [lia | lra].
Defined.

(** On a valid triple the subtraction [N - n] stays in range and
    [log1m(theta)] returns; for [0 < theta < 1] the [theta]-dependent summand
    is the finite value [n * log(theta) + (N - n) * l], with [l] the value of
    [log1m(theta)]. *)
Lemma binomial_log_kernel (n N : Z) (theta : R) :
  (0 <= n <= N)%Z -> (N <= INT_MAX)%Z -> 0 <= theta <= 1 ->
  exists l : double,
    nsub N n = Ok (N - n)%Z
    /\ log1m (Fin theta) = Ok l
    /\ (0 < theta < 1 ->
        exists lr : R,
          l = Fin lr
          /\ (multiply_log (of_Z n) (Fin theta) + of_Z (N - n) * l)%D
             = Fin (IZR n * ln theta + IZR (N - n) * lr)).
Proof.
  intros Hn HN Ht.
  exists (log_one_plus (Fin (- theta))). split; [| split].
  - cbn [nsub Number_int]. apply int_result_in_range. unfold INT_MIN. lia.
  - unfold log1m. rewrite log1p_by_regime. cbn [dneg dlt].
    rewrite Rltb_false by lra. reflexivity.
  - intros Hopen.
    destruct (log1m_finite theta ltac:(lra)) as [lr Hlr].
    unfold log1m in Hlr. rewrite log1p_by_regime in Hlr. cbn [dneg dlt] in Hlr.
    rewrite Rltb_false in Hlr by lra. injection Hlr as Hlr.
    exists lr. split; [exact Hlr |]. rewrite Hlr.
    unfold multiply_log, of_Z. cbn [deq]. rewrite (Reqb_false theta) by lra.
    cbn [andb dlog]. rewrite Rltb_true by lra. cbn [dmul dadd].
    reflexivity.
Qed.

(** Starting the accumulator at 0 and adding [b] and then [s] gives [b]
    added to what starting at 0 and adding [s] gives. *)
Lemma accumulate_from_zero (b s : double) :
  (Fin 0.0 + b + s = b + (Fin 0.0 + s))%D.
Proof. destruct b, s; cbn; try reflexivity; real_eq. Qed.

(** C2 (as amended).  For every valid triple, with [b] the value
    [binomial_coefficient_log(N, n)] returns and
    [s = multiply_log(n, theta) + (N - n) * log1m(theta)] the
    [theta]-dependent summand: [binomial_log] with [propto = false] returns
    [0 + b + s] for either scalar type of [theta]; with [propto = true] it
    returns [0 + s] when [theta] is differentiable, so that the result of
    [propto = false] is [b] added to the result of [propto = true], and 0
    when [theta] is plain, so that the difference is then the whole result
    of [propto = false].  For [0 < theta < 1] the summand [s] is the finite
    value [n * log(theta) + (N - n) * log1m(theta)]. *)
Theorem binomial_log_propto_difference :
  forall (lgammaR : R -> R) (policy : Policy) (n N : Z) (theta : R)
         (b : double),
    (0 <= n <= N)%Z -> (N <= INT_MAX)%Z -> 0 <= theta <= 1 ->
    binomial_coefficient_log lgammaR N n = Ok b ->
    exists l : double,
      log1m (Fin theta) = Ok l
      /\ let s := (multiply_log (of_Z n) (Fin theta) + of_Z (N - n) * l)%D in
         binomial_log lgammaR policy true differentiable n N (Fin theta)
         = Ok (Value (Fin 0.0 + s)%D)
         /\ binomial_log lgammaR policy false differentiable n N (Fin theta)
            = Ok (Value (Fin 0.0 + b + s)%D)
         /\ (Fin 0.0 + b + s = b + (Fin 0.0 + s))%D
         /\ binomial_log lgammaR policy true plain n N (Fin theta)
            = Ok (Value (Fin 0.0))
         /\ binomial_log lgammaR policy false plain n N (Fin theta)
            = Ok (Value (Fin 0.0 + b + s)%D)
         /\ (0 < theta < 1 ->
             exists lr : R,
               l = Fin lr
               /\ s = Fin (IZR n * ln theta + IZR (N - n) * lr)).
Proof.
  intros lgammaR policy n N theta b Hn HN Ht Hb.
  destruct (binomial_log_kernel n N theta Hn HN Ht) as (l & Hsub & Hl & Hs).
  exists l. split; [exact Hl |]. cbv zeta.
  rewrite !binomial_log_valid by assumption.
  cbn [include_summand negb orb existsb is_constant].
  rewrite Hb, Hsub, Hl. cbn [bind].
  repeat split; try reflexivity; [apply accumulate_from_zero | exact Hs].
Qed.

(** On [int] arguments the quotients of the asymptotic branch are integer
    divisions: [1/(12*N)] and [1/(12*(N-n))] are 0 and [N/(N-n)] is
    truncated. *)
Lemma binomial_coefficient_log_int_above_cutoff (lgammaR : R -> R) (n N : Z) :
  (0 <= n)%Z -> (1000 <= N - n)%Z -> (12 * N <= INT_MAX)%Z ->
  binomial_coefficient_log lgammaR N n
  = Ok (of_Z n * dlog (of_Z (N - n))
        + (of_Z N + Fin 0.5) * dlog (of_Z (Z.quot N (N - n)))
        + of_Z 0 - of_Z n - of_Z 0 - lgamma lgammaR (of_Z n + Fin 1.0))%D.
Proof.
  intros Hn HNn HN.
  assert (Hin : forall z, (0 <= z <= 12 * N)%Z -> int_result z = Ok z).
  { intros z Hz. apply int_result_in_range. unfold INT_MIN. lia. }
  assert (Hq : (0 <= Z.quot N (N - n) <= N)%Z).
  { rewrite Z.quot_div_nonneg by lia. split.
    - apply Z.div_pos; lia.
    - apply Z.div_le_upper_bound; nia. }
  assert (H1 : forall d, (1000 <= d)%Z -> Z.quot 1 d = 0%Z).
  { intros d Hd. apply Z.quot_small. lia. }
  unfold binomial_coefficient_log. cbn [nsub ndiv nmul lit to_double Number_int].
  rewrite (Hin (N - n)%Z) by lia. cbn [bind].
  unfold of_Z at 1 2. cbn [dlt].
  rewrite (Rltb_false (IZR N) 1000) by (apply Rle_not_lt, IZR_le; lia).
  rewrite (Rltb_false (IZR (N - n)) 1000) by (apply Rle_not_lt, IZR_le; lia).
  cbn [orb].
  destruct (Z.eqb_spec (N - n) 0) as [Hz | _]; [lia |].
  rewrite (Hin (Z.quot N (N - n))) by lia. cbn [bind].
  rewrite (Hin (12 * N)%Z) by lia. cbn [bind].
  destruct (Z.eqb_spec (12 * N) 0) as [Hz | _]; [lia |].
  rewrite (H1 (12 * N)%Z) by lia. rewrite (Hin 0%Z) by lia. cbn [bind].
  rewrite (Hin (12 * (N - n))%Z) by lia. cbn [bind].
  destruct (Z.eqb_spec (12 * (N - n)) 0) as [Hz | _]; [lia |].
  rewrite (H1 (12 * (N - n))%Z) by lia. rewrite (Hin 0%Z) by lia. cbn [bind].
  reflexivity.
Qed.

(** [binomial_coefficient_log] on [int] arguments returns whenever [12 * N]
    does not overflow. *)
Lemma binomial_coefficient_log_int_returns (lgammaR : R -> R) (n N : Z) :
  (0 <= n <= N)%Z -> (12 * N <= INT_MAX)%Z ->
  exists b, binomial_coefficient_log lgammaR N n = Ok b.
Proof.
  intros Hn HN.
  destruct (Z_lt_le_dec (N - n) 1000) as [Hlt | Hge].
  - unfold binomial_coefficient_log.
    cbn [nsub ndiv nmul lit to_double Number_int].
    rewrite (int_result_in_range (N - n)%Z) by (unfold INT_MIN; lia).
    cbn [bind]. unfold of_Z at 2. cbn [dlt].
    rewrite (Rltb_true (IZR (N - n)) 1000) by (apply IZR_lt; exact Hlt).
    rewrite orb_true_r. eexists. reflexivity.
  - eexists. apply binomial_coefficient_log_int_above_cutoff; lia.
Qed.

(** The results at [(n, N, theta) = (3, 10, 0.5)]. *)
Lemma binomial_log_propto_difference_witness :
  exists b l : double,
    binomial_coefficient_log reference_lgammaR 10%Z 3%Z = Ok b
    /\ log1m (Fin 0.5) = Ok l
    /\ let s := (multiply_log (of_Z 3) (Fin 0.5) + of_Z (10 - 3) * l)%D in
       binomial_log reference_lgammaR default_policy true differentiable
                    3 10 (Fin 0.5)
       = Ok (Value (Fin 0.0 + s)%D)
       /\ binomial_log reference_lgammaR default_policy false differentiable
                       3 10 (Fin 0.5)
          = Ok (Value (Fin 0.0 + b + s)%D)
       /\ (Fin 0.0 + b + s = b + (Fin 0.0 + s))%D
       /\ binomial_log reference_lgammaR default_policy true plain
                       3 10 (Fin 0.5)
          = Ok (Value (Fin 0.0))
       /\ binomial_log reference_lgammaR default_policy false plain
                       3 10 (Fin 0.5)
          = Ok (Value (Fin 0.0 + b + s)%D)
       /\ (0 < 0.5 < 1 ->
           exists lr : R,
             l = Fin lr
             /\ s = Fin (IZR 3 * ln 0.5 + IZR (10 - 3) * lr)).
Proof.
  destruct (binomial_coefficient_log_int_returns reference_lgammaR 3 10)
    as [b Hb]; [lia | unfold INT_MAX; lia |].
  exists b.
  destruct (binomial_log_propto_difference reference_lgammaR default_policy
              3 10 0.5 b) as [l H];
    [lia | unfold INT_MAX; lia | lra | exact Hb |].
  exists l. split; [exact Hb | exact H].
Defined.

(** C2, the claim as stated fails for a plain [theta]: at
    [(n, N, theta) = (0, 1, 0.5)] the result with [propto = true] is 0, and
    the difference of the two results is not the value of
    [binomial_coefficient_log(1, 0)]. *)
Lemma binomial_log_plain_difference_at_0_1_half :
  exists full b : R,
    binomial_log reference_lgammaR default_policy false plain 0 1 (Fin 0.5)
    = Ok (Value (Fin full))
    /\ binomial_log reference_lgammaR default_policy true plain 0 1 (Fin 0.5)
       = Ok (Value (Fin 0))
    /\ binomial_coefficient_log reference_lgammaR 1%Z 0%Z = Ok (Fin b)
    /\ (Fin full - Fin 0)%D <> Fin b.
Proof.
  assert (Hb : exists b,
             binomial_coefficient_log reference_lgammaR 1%Z 0%Z = Ok (Fin b)).
  { unfold binomial_coefficient_log. cbn [nsub Number_int].
    change (int_result (1 - 0)) with (Ok 1%Z). cbn [bind to_double lit].
    unfold of_Z. eval_D. eexists. reflexivity. }
  destruct Hb as [b Hb].
  eexists. exists b.
  rewrite !binomial_log_valid by (lia || lra).
  cbn [include_summand negb orb existsb is_constant].
  rewrite Hb. cbn [bind nsub Number_int].
  change (int_result (1 - 0)) with (Ok 1%Z). cbn [bind].
  unfold log1m. rewrite log1p_by_regime.
  unfold log_one_plus, multiply_log, of_Z. eval_D.
  split; [reflexivity |]. split; [real_eq |]. split; [reflexivity |].
  intros H. injection H as H.
  pose proof (ln_increasing (1 + - (0.5)) 1 ltac:(lra) ltac:(lra)) as Hln.
  rewrite ln_1 in Hln. lra.
Qed.

(** At the boundary [theta = 1] with [n = N] the [theta]-dependent summand is
    [0 * log(1) + 0 * (-inf)], that is NaN, and so are both results. *)
Lemma binomial_log_nan_at_theta_one (lgammaR : R -> R) (policy : Policy) :
  binomial_log lgammaR policy true differentiable 1 1 (Fin 1) = Ok (Value NaN).
Proof.
  rewrite binomial_log_valid by (lia || lra).
  cbn [include_summand negb orb existsb is_constant bind nsub Number_int].
  change (int_result (1 - 1)) with (Ok 0%Z). cbn [bind].
  unfold log1m. rewrite log1p_by_regime.
  unfold log_one_plus, multiply_log, of_Z. eval_D. reflexivity.
Qed.

(** *** [wishart_log] *)

Lemma uint_small (z : Z) : (0 <= z < 2 ^ 32)%Z -> uint z = z.
Proof. intros H. unfold uint. apply Z.mod_small. exact H. Qed.

Lemma dlt_not_dge (a b : double) : (a <? b)%D = true -> (a >=? b)%D = false.
Proof.
  unfold dge, dle. destruct a, b; cbn; try discriminate; try reflexivity.
  split_R; try (exfalso; lra); try discriminate; reflexivity.
Qed.

Lemma dlt_le_trans (a : double) (x y : R) :
  (a <? Fin x)%D = true -> x <= y -> (a <? Fin y)%D = true.
Proof.
  destruct a; cbn; try discriminate; try reflexivity.
  intros H Hxy. apply Rltb_spec in H. apply Rltb_true. lra.
Qed.

(** [k - 1] in [unsigned int] arithmetic is at least the integer [k - 1]. *)
Lemma uint_pred_ge (k : Z) : (0 <= k < 2 ^ 32)%Z -> (k - 1 <= uint (k - 1))%Z.
Proof.
  intros Hk. destruct (Z.eq_dec k 0) as [-> | Hne].
  - unfold uint. pose proof (Z.mod_pos_bound (0 - 1) (2 ^ 32) ltac:(lia)). lia.
  - rewrite uint_small by lia. lia.
Qed.

(** [lmgamma] is finite when every log-gamma argument is positive. *)
Lemma lmgamma_fold_finite (lgammaR : R -> R) (x : R) (js : list Z) :
  Forall (fun j => 0 < x + (1 - IZR j) / 2) js ->
  forall acc : R, exists v,
    fold_left
      (fun result j =>
         (result + lgamma lgammaR (Fin x + (Fin 1.0 - of_Z j) / Fin 2.0))%D)
      js (Fin acc) = Fin v.
Proof.
  induction 1 as [| j js Hj Hjs IH]; intros acc.
  - exists acc. reflexivity.
  - assert (Hstep : exists g,
               lgamma lgammaR (Fin x + (Fin 1.0 - of_Z j) / Fin 2.0)%D = Fin g).
    { unfold of_Z, lgamma, is_pole. cbn [dsub dneg dadd ddiv].
      rewrite (Reqb_false 2.0 0) by lra. cbn [dadd].
      rewrite Rltb_true by lra. cbn [negb andb]. eexists. reflexivity. }
    destruct Hstep as [g Hg]. cbn [fold_left]. rewrite Hg. cbn [dadd].
    apply IH.
Qed.

Lemma lmgamma_finite (lgammaR : R -> R) (k : Z) (x : R) :
  IZR k - 1 < 2 * x ->
  exists v, lmgamma lgammaR k (Fin x) = Fin v.
Proof.
  intros Hx. unfold lmgamma, LOG_PI_OVER_FOUR, of_Z. cbn [dmul].
  apply lmgamma_fold_finite.
  rewrite Forall_forall. intros j Hj.
  apply in_map_iff in Hj. destruct Hj as (i & <- & Hi).
  apply in_seq in Hi.
  assert (Hjk : (Z.of_nat i <= k)%Z) by lia.
  apply IZR_le in Hjk. lra.
Qed.

Section WishartLog.

Variable lgammaR : R -> R.
Variable linalg : LinearAlgebra.
Variable policy : Policy.
Variable propto : bool.
Variables T_y T_dof T_scale : scalar_type.

(** A failed check ends the evaluation with the policy's error action. *)
Lemma wishart_log_rejects (W : matrix) (nu : double) (S : matrix) :
  ((0 <= rows W < 2 ^ 32)%Z /\ (nu <? of_Z (rows W - 1))%D = true)
  \/ rows W <> cols W \/ rows W <> rows S \/ cols W <> cols S ->
  exists r,
    wishart_log lgammaR linalg policy propto T_y T_dof T_scale W nu S
    = raise_domain_error policy r.
Proof.
  intros H. unfold wishart_log, checked.
  unfold check_greater_or_equal, check_size_match, validate.
  destruct (nu >=? of_Z (uint (uint (rows W) - 1)))%D eqn:Hnu;
    [| eexists; reflexivity].
  destruct (Z.eqb_spec (rows W) (cols W)) as [HW | HW];
    [| eexists; reflexivity].
  destruct (Z.eqb_spec (rows S) (cols S)) as [HS | HS];
    [| eexists; reflexivity].
  destruct (Z.eqb_spec (rows W) (rows S)) as [HWS | HWS];
    [| eexists; reflexivity].
  exfalso. destruct H as [[Hk Hlt] | [H | [H | H]]]; try contradiction.
  - rewrite (uint_small (rows W) Hk) in Hnu.
    pose proof (uint_pred_ge (rows W) Hk) as Hle. apply IZR_le in Hle.
    unfold of_Z in *.
    rewrite (dlt_not_dge _ _ (dlt_le_trans _ _ _ Hlt Hle)) in Hnu.
    discriminate.
  - apply H. congruence.
Qed.

(** With [nu = k + 1] and [S = W = identity(k)] every check passes and every
    summand is finite, given that the collaborator computes the determinant
    of the identity as 1 and the trace of [inverse(I) * I] as [k]. *)
Lemma wishart_log_identity_finite (k : Z) :
  (1 <= k < 2 ^ 32)%Z ->
  determinant linalg (identity k) = Fin 1 ->
  trace linalg (multiply linalg (inverse linalg (identity k)) (identity k))
  = of_Z k ->
  exists v,
    wishart_log lgammaR linalg policy propto T_y T_dof T_scale
                (identity k) (of_Z (k + 1)) (identity k)
    = Ok (Value (Fin v)).
Proof.
  intros Hk Hdet Htr. unfold wishart_log, checked.
  unfold check_greater_or_equal, check_size_match, validate.
  cbn [rows cols identity]. rewrite (uint_small k) by lia.
  rewrite (uint_small (k - 1)) by lia. unfold dge.
  rewrite (IZR_le_dle (k - 1) (k + 1)) by lia.
  rewrite Z.eqb_refl. rewrite Hdet, Htr.
  destruct (lmgamma_finite lgammaR k (0.5 * IZR (k + 1))) as [g Hg].
  { rewrite plus_IZR. lra. }
  unfold of_Z. cbn [dmul]. rewrite Hg.
  destruct (Fin (IZR (k + 1)) !=? Fin (IZR (uint (k + 1))))%D;
    destruct (include_summand propto [T_dof]),
             (include_summand propto [T_dof; T_scale]),
             (include_summand propto [T_scale; T_y]),
             (include_summand propto [T_y; T_dof]);
    unfold multiply_log, NEG_LOG_TWO_OVER_TWO; eval_D;
    eexists; reflexivity.
Qed.

End WishartLog.

Lemma reference_determinant_identity_2 :
  reference_determinant (identity 2) = Fin 1.
Proof.
  unfold reference_determinant. cbn [rows identity].
  change (Z.to_nat 2) with 2%nat.
  unfold sum_upto, sign. eval_D. real_eq.
Qed.

Lemma reference_trace_identity_2 :
  reference_trace
    (reference_multiply (reference_inverse (identity 2)) (identity 2))
  = of_Z 2.
Proof.
  unfold reference_trace, reference_multiply, reference_inverse,
    reference_determinant, sum_upto, sign, of_Z.
  cbn [rows cols identity minor].
  change (Z.to_nat 2) with 2%nat. change (Z.to_nat (2 - 1)) with 1%nat.
  eval_D. real_eq.
Qed.

(** C5.  [wishart_log] fails with a domain error, handing back what the
    policy prescribes (the sentinel, and no density term) when [nu < k - 1],
    when [W] is not square, or when the dimensions of [W] and [S] differ; and
    for [nu = k + 1] and [S = W = identity(k)], [k >= 1], it returns a finite
    value.  The matrix dimension is read into an [unsigned int], hence
    [k < 2^32]; of the linear-algebra collaborator the second part uses that
    the determinant of the identity is 1 and that the trace of
    [inverse(I) * I] is [k]. *)
Theorem wishart_log_domain_errors_and_identity :
  forall (lgammaR : R -> R) (linalg : LinearAlgebra) (policy : Policy)
         (propto : bool) (T_y T_dof T_scale : scalar_type),
    (forall (W : matrix) (nu : double) (S : matrix),
        ((0 <= rows W < 2 ^ 32)%Z /\ (nu <? of_Z (rows W - 1))%D = true)
        \/ rows W <> cols W \/ rows W <> rows S \/ cols W <> cols S ->
        exists r,
          wishart_log lgammaR linalg policy propto T_y T_dof T_scale W nu S
          = raise_domain_error policy r)
    /\ (forall k : Z,
          (1 <= k < 2 ^ 32)%Z ->
          determinant linalg (identity k) = Fin 1 ->
          trace linalg
                (multiply linalg (inverse linalg (identity k)) (identity k))
          = of_Z k ->
          exists v,
            wishart_log lgammaR linalg policy propto T_y T_dof T_scale
                        (identity k) (of_Z (k + 1)) (identity k)
            = Ok (Value (Fin v))).
Proof.
  intros. split.
  - intros W nu S H. apply wishart_log_rejects. exact H.
  - intros k Hk Hdet Htr. apply wishart_log_identity_finite; assumption.
Qed.

(** A rejected and an accepted call: [nu = 1 < 3 - 1] with 3-by-3 matrices,
    and [nu = 3], [S = W = identity(2)] with the reference collaborator. *)
Lemma wishart_log_domain_errors_and_identity_witness :
  (exists r,
      wishart_log reference_lgammaR reference_linalg default_policy
                  false plain plain plain (identity 3) (Fin 1) (identity 3)
      = raise_domain_error default_policy r)
  /\ (exists v,
        wishart_log reference_lgammaR reference_linalg default_policy
                    false plain plain plain
                    (identity 2) (of_Z (2 + 1)) (identity 2)
        = Ok (Value (Fin v))).
Proof.
  split.
  - apply (proj1 (wishart_log_domain_errors_and_identity
                    reference_lgammaR reference_linalg default_policy
                    false plain plain plain)).
    left. split; [cbn [rows identity]; lia |].
    cbn [rows identity]. change (3 - 1)%Z with 2%Z. unfold of_Z. cbn [dlt].
    apply Rltb_true. lra.
  - apply (proj2 (wishart_log_domain_errors_and_identity
                    reference_lgammaR reference_linalg default_policy
                    false plain plain plain)).
    + lia.
    + exact reference_determinant_identity_2.
    + exact reference_trace_identity_2.
Defined.

(** C4, the code at [W = (-1)], [nu = 2], [S = (1)] (1-by-1 matrices, which
    pass every check): the trace of [inverse(S) * W] is -1, the code
    subtracts half its absolute value and returns [-ln2 - lgamma(1) - 1/2],
    where the documented density has [-ln2 - lgamma(1) + 1/2]. *)
Theorem wishart_log_takes_absolute_trace_at_minus_one :
  forall (lgammaR : R -> R) (policy : Policy),
    trace reference_linalg
          (multiply reference_linalg
                    (inverse reference_linalg (matrix_1x1 (Fin 1)))
                    (matrix_1x1 (Fin (-1))))
    = Fin (-1)
    /\ wishart_log lgammaR reference_linalg policy false plain plain plain
                   (matrix_1x1 (Fin (-1))) (Fin 2) (matrix_1x1 (Fin 1))
       = Ok (Value (Fin (- ln 2 - lgammaR 1 - 1 / 2)))
    /\ wishart_log_formula lgammaR reference_linalg
                           (matrix_1x1 (Fin (-1))) (Fin 2) (matrix_1x1 (Fin 1))
       = Fin (- ln 2 - lgammaR 1 + 1 / 2).
Proof.
  intros lgammaR policy.
  assert (Hdet : forall a, reference_determinant (matrix_1x1 (Fin a))
                           = Fin (0 + 1 * a * 1)).
  { intros a. unfold reference_determinant, sum_upto, sign. reflexivity. }
  assert (Htr : reference_trace
                  (reference_multiply (reference_inverse (matrix_1x1 (Fin 1)))
                                      (matrix_1x1 (Fin (-1))))
                = Fin (-1)).
  { unfold reference_trace, reference_multiply, reference_inverse,
      reference_determinant, sum_upto, sign.
    cbn [rows cols matrix_1x1 minor].
    change (Z.to_nat 1) with 1%nat. change (Z.to_nat (1 - 1)) with 0%nat.
    eval_D. real_eq. }
  split; [exact Htr |]. split.
  - unfold wishart_log, checked.
    unfold check_greater_or_equal, check_size_match, validate.
    cbn [rows cols matrix_1x1 determinant inverse multiply trace
         reference_linalg].
    rewrite Htr, Hdet.
    change (uint 1) with 1%Z. change (uint (1 - 1)) with 0%Z.
    change (uint (1 + 1)) with 2%Z.
    unfold lmgamma, LOG_PI_OVER_FOUR, lgamma, multiply_log,
      NEG_LOG_TWO_OVER_TWO, dge, dle, dne, of_Z.
    change (Z.to_nat 1) with 1%nat. change (uint (1 * 0)) with 0%Z.
    eval_D. normalize_at_1. rewrite ln_1. real_eq.
  - unfold wishart_log_formula.
    cbn [rows cols matrix_1x1 determinant inverse multiply trace
         reference_linalg].
    rewrite Htr, Hdet.
    unfold lmgamma, LOG_PI_OVER_FOUR, lgamma, NEG_LOG_TWO_OVER_TWO, dne, of_Z.
    change (Z.to_nat 1) with 1%nat. change (uint (1 * uint (1 - 1))) with 0%Z.
    eval_D. normalize_at_1. rewrite ln_1. real_eq.
Qed.

(** ** Further properties of [softmax] and [inverse_softmax] *)

Lemma fold_left_dadd_Fin (es : list R) :
  forall a : R,
    fold_left dadd (map Fin es) (Fin a) = Fin (a + Rsum es).
Proof.
  induction es as [| e es IH]; intros a; cbn [map fold_left Rsum fold_right].
  - real_eq.
  - cbn [dadd]. rewrite IH. fold (Rsum es). real_eq.
Qed.

Lemma Rsum_map_exp_pos (rs : list R) : rs <> [] -> 0 < Rsum (map exp rs).
Proof.
  assert (H0 : forall l, 0 <= Rsum (map exp l)).
  { induction l as [| r l IH]; cbn; [lra |].
    pose proof (exp_pos r). fold (Rsum (map exp l)). lra. }
  destruct rs as [| r rs]; [contradiction |]. intros _. cbn.
  pose proof (exp_pos r). pose proof (H0 rs). fold (Rsum (map exp rs)). lra.
Qed.

Lemma Rsum_map_exp_shift (c : R) (rs : list R) :
  Rsum (map (fun r => exp (r + c)) rs) = exp c * Rsum (map exp rs).
Proof.
  induction rs as [| r rs IH]; cbn; [lra |].
  fold (Rsum (map (fun r => exp (r + c)) rs)). fold (Rsum (map exp rs)).
  rewrite IH, exp_plus. lra.
Qed.



(** On a vector of finite values [maximum] returns a finite value. *)
Lemma maximum_finite (rs : list R) :
  rs <> [] -> exists m, maximum (map Fin rs) = Ok (Fin m).
Proof.
  intros Hne.
  destruct (maximum_returns_lower_bound (map Fin rs)) as (m & Hm & _).
  - destruct rs; [contradiction | discriminate].
  - rewrite Forall_map. apply Forall_forall. intros; reflexivity.
  - exists m. exact Hm.
Qed.

(** For a non-empty vector of finite values and an output vector of the same
    size, [softmax] writes the documented formula, whichever element
    [maximum] selects as the shift. *)
Lemma softmax_is_softmax_formula (rs : list R) (simplex : list double) :
  rs <> [] -> List.length simplex = List.length rs ->
  softmax (map Fin rs) simplex = Ok (map Fin (softmax_formula rs)).
Proof.
  intros Hne Hlen. unfold softmax.
  rewrite length_map, Hlen, Nat.eqb_refl. cbn [negb].
  destruct (maximum_finite rs Hne) as [m Hm]. rewrite Hm. cbn [bind].
  rewrite softmax_exp_map by (rewrite length_map; symmetry; exact Hlen).
  rewrite map_map. cbn [dsub dneg dadd dexp].
  rewrite <- (map_map (fun r => exp (r + - m)) Fin), fold_left_dadd_Fin.
  unfold softmax_normalize, softmax_formula. rewrite !map_map.
  rewrite Rsum_map_exp_shift.
  pose proof (Rsum_map_exp_pos rs Hne) as HT. pose proof (exp_pos (- m)) as Hm0.
  f_equal. apply map_ext. intros r. cbn [ddiv].
  rewrite Reqb_false by nra. rewrite exp_plus. apply f_equal.
  replace 0.0 with 0 by lra. field. split; lra.
Qed.






(** X3.  In exact arithmetic [softmax] is invariant under adding a constant
    to every element. *)
Theorem softmax_shift_invariant :
  forall (x : list R) (c : R) (simplex : list double),
    softmax (map Fin (map (fun r => r + c) x)) simplex
    = softmax (map Fin x) simplex.
Proof.
  intros x c simplex.
  destruct (Nat.eq_dec (List.length simplex) (List.length x)) as [Hlen | Hlen].
  - destruct x as [| r x']; [reflexivity |].
    rewrite !softmax_is_softmax_formula;
      try discriminate; try (rewrite ?length_map; exact Hlen).
    f_equal. f_equal. unfold softmax_formula. rewrite !map_map.
    rewrite (Rsum_map_exp_shift c).
    pose proof (Rsum_map_exp_pos (r :: x') ltac:(discriminate)) as HT.
    pose proof (exp_pos c).
    apply map_ext. intros a. rewrite exp_plus. field. split; lra.
  - unfold softmax. rewrite !length_map.
    destruct (Nat.eqb_spec (List.length x) (List.length simplex)) as [Heq | _];
      [exfalso; apply Hlen; symmetry; exact Heq | reflexivity].
Qed.


(** X4.  [softmax] throws [std::invalid_argument] exactly when the sizes differ
    or the input is empty, and returns otherwise; [inverse_softmax] throws
    exactly when the sizes differ, and accepts empty vectors. *)
Theorem softmax_and_inverse_softmax_size_errors :
  forall x out : list double,
    is_invalid_argument (softmax x out)
    = negb (List.length x =? List.length out)%nat
      || (List.length x =? 0)%nat
    /\ returns (softmax x out) = negb (is_invalid_argument (softmax x out))
    /\ is_invalid_argument (inverse_softmax x out)
       = negb (List.length x =? List.length out)%nat
    /\ returns (inverse_softmax x out)
       = (List.length x =? List.length out)%nat.
Proof.
  intros x out. unfold softmax, inverse_softmax.
  destruct (List.length x =? List.length out)%nat; cbn [negb orb];
    [| repeat split; reflexivity].
  destruct x as [| x0 rest]; cbn [maximum bind List.length Nat.eqb];
    [repeat split; reflexivity |].
  destruct (softmax_exp _ _ _ _) as [filled sum].
  repeat split; reflexivity.
Qed.







(** ** The sign of [log1p] in binary64 *)

(** The second-order term [0.5*x*x] as the machine evaluates it: a finite
    non-negative value that does not exceed [|x|]. *)
Lemma second_order_term (x : R) :
  Rabs x <= 1.1e-9 ->
  exists q, Rounded.mul (Rounded.mul (Fin 0.5) (Fin x)) (Fin x) = Fin q
            /\ 0 <= q <= Rabs x.
Proof.
  intros Hsmall.
  pose proof (Rabs_pos x) as Ha.
  pose proof pow2_m53 as H53. pose proof pow2_m100 as H100.
  pose proof pow2_m1075_small as Hs.
  pose proof (pow2_pos (-1075)) as Hs0. pose proof (pow2_pos (-540)) as H540.
  assert (H540' : pow2 (-540) <= pow2 (-100)) by (apply pow2_le; lia).
  assert (Hs1 : pow2 (-1075) <= 1e-30) by nra.
  set (h := rnd (0.5 * x)). set (q := rnd (h * x)).
  assert (Hh : Rabs h <= Rabs x * 0.51 + pow2 (-1075)).
  { pose proof (rnd_abs_bound (0.5 * x)) as Hb. fold h in Hb.
    rewrite Rabs_mult, (Rabs_pos_eq 0.5) in Hb by lra. nra. }
  assert (Hhx : Rabs (h * x) <= (Rabs x * 0.51 + pow2 (-1075)) * Rabs x).
  { rewrite Rabs_mult. apply Rmult_le_compat_r; assumption. }
  assert (Hq : Rabs q <= Rabs (h * x) * 1.000001 + pow2 (-1075)).
  { pose proof (rnd_abs_bound (h * x)) as Hb. fold q in Hb.
    pose proof (Rabs_pos (h * x)). nra. }
  assert (Hprod : 0 <= h * x).
  { destruct (Rle_dec 0 x) as [Hx | Hx].
    - pose proof (rnd_nonneg (0.5 * x) ltac:(lra)) as H. fold h in H. nra.
    - pose proof (rnd_nonneg (- (0.5 * x)) ltac:(lra)) as H.
      rewrite rnd_opp in H. fold h in H. nra. }
  pose proof (rnd_nonneg (h * x) Hprod) as Hq0. fold q in Hq0.
  exists q. split.
  - unfold Rounded.mul.
    rewrite (round64_small (0.5 * x))
      by (rewrite Rabs_mult, (Rabs_pos_eq 0.5); lra).
    fold h. rewrite (round64_small (h * x)) by nra. reflexivity.
  - split; [exact Hq0 |]. rewrite (Rabs_pos_eq q Hq0) in Hq.
    destruct (Rlt_dec (Rabs x) (pow2 (-540))) as [Htiny | Hnormal].
    + assert (Hq00 : q = 0); [| lra].
      apply rnd_tiny. apply Rle_lt_trans with (1 := Hhx).
      assert (Hp : pow2 (-1075) = pow2 (-535) * pow2 (-540))
        by (rewrite <- pow2_add; reflexivity).
      assert (Hp' : pow2 (-535) <= 1).
      { rewrite <- pow2_0. apply pow2_le. lia. }
      pose proof (pow2_pos (-535)).
      assert (Hp2 : pow2 (-540) <= pow2 (-535) * / 4).
      { replace (/ 4) with (pow2 (-2))
          by exact (pow2_neg_IZR 2 ltac:(lia)).
        rewrite <- pow2_add. apply pow2_le. lia. }
      nra.
    + assert (Hx540 : pow2 (-540) <= Rabs x) by lra.
      assert (Hs2 : pow2 (-1075) <= 1e-30 * Rabs x) by nra.
      assert (Hhx' : Rabs (h * x) <= 0.6 * Rabs x) by nra.
      nra.
Qed.

Lemma round64_nonpos (z : R) :
  z <= 0 ->
  (exists v, round64 z = Fin v /\ representable v /\ v = rnd z /\ v <= 0)
  \/ (round64 z = NInf /\ z < 0).
Proof.
  intros Hz. pose proof (round64_opp (- z)) as Ho.
  rewrite Ropp_involutive in Ho. rewrite Ho.
  destruct (round64_nonneg (- z) ltac:(lra)) as [(v & -> & Hr & Hv & H0) | [-> H0]].
  - left. exists (- v). cbn [dneg]. repeat split.
    + apply representable_opp. exact Hr.
    + rewrite Hv, <- rnd_opp, Ropp_involutive. reflexivity.
    + lra.
  - right. split; [reflexivity | lra].
Qed.

(** [std::log] of a value in [[0,1]] is at most 0, of a value from 1
    upwards at least 0. *)
Lemma rounded_log_nonpos (s : R) :
  0 <= s <= 1 -> (Rounded.log (Fin s) <=? Fin 0)%D = true.
Proof.
  intros [Hs0 Hs1]. unfold Rounded.log.
  destruct (Rlt_dec 0 s) as [Hpos | Hz].
  - rewrite (Rltb_true _ _ Hpos).
    assert (Hln : ln s <= 0).
    { destruct (Req_dec_T s 1) as [-> | Hne]; [rewrite ln_1; lra |].
      pose proof (ln_increasing s 1 Hpos ltac:(lra)) as H.
      rewrite ln_1 in H. lra. }
    destruct (round64_nonpos (ln s) Hln) as [(v & -> & _ & _ & Hv) | [-> _]].
    + apply Rle_dle. exact Hv.
    + reflexivity.
  - rewrite (Rltb_false _ _ Hz). cbn [dlog].
    rewrite (Rltb_false 0 s Hz), (Rltb_false s 0) by lra. reflexivity.
Qed.

Lemma rounded_log_nonneg (s : R) :
  1 <= s -> (Fin 0 <=? Rounded.log (Fin s))%D = true.
Proof.
  intros Hs. unfold Rounded.log. rewrite Rltb_true by lra.
  assert (Hln : 0 <= ln s).
  { destruct (Req_dec_T s 1) as [-> | Hne]; [rewrite ln_1; lra |].
    pose proof (ln_increasing 1 s ltac:(lra) ltac:(lra)) as H.
    rewrite ln_1 in H. lra. }
  destruct (round64_nonneg (ln s) Hln) as [(v & -> & _ & _ & Hv) | [-> _]].
  - apply Rle_dle. exact Hv.
  - reflexivity.
Qed.

(** In binary64 [log1p] keeps the sign of its argument. *)
Lemma rounded_log1p_sign (x : R) :
  representable x -> -1 <= x ->
  exists v, Rounded.log1p (Fin x) = Ok v
            /\ (0 <= x -> (Fin 0 <=? v)%D = true)
            /\ (x <= 0 -> (v <=? Fin 0)%D = true).
Proof.
  intros Hx Hlow.
  rewrite (rounded_log1p_by_regime (Fin x) Hx). cbn [dlt].
  rewrite Rltb_false by lra.
  exists (Rounded.log_one_plus (Fin x)). split; [reflexivity |].
  destruct (literal_small 1e-9 ltac:(lra)) as (l9 & Hl9 & Hb9).
  unfold Rounded.log_one_plus, dgt. rewrite Hl9. cbn [dabs dlt].
  replace (Fin 1.0) with (Fin 1) by real_eq.
  destruct (Rlt_dec l9 (Rabs x)) as [Hfar | Hnear].
  - rewrite (Rltb_true _ _ Hfar). unfold Rounded.add. split; intros Hsign.
    + destruct (round64_nonneg (1 + x) ltac:(lra))
        as [(s & -> & _ & Hs & _) | [-> _]]; [| reflexivity].
      apply rounded_log_nonneg. rewrite Hs.
      pose proof (rnd_ge_pow2 (1 + x) 0 ltac:(lia)) as H1.
      rewrite pow2_0 in H1. apply H1. lra.
    + rewrite (round64_small (1 + x)) by (rewrite Rabs_pos_eq; lra).
      apply rounded_log_nonpos. split; [apply rnd_nonneg; lra |].
      pose proof (rnd_le_pow2 (1 + x) 0 ltac:(lia)) as H1.
      rewrite pow2_0 in H1. apply H1. lra.
  - rewrite (Rltb_false _ _ Hnear).
    destruct (second_order_term x ltac:(lra)) as (q & -> & Hq0 & Hqx).
    unfold Rounded.sub, Rounded.add. cbn [dneg].
    rewrite (round64_small (x + - q)).
    2:{ pose proof (Rabs_triang x (- q)) as Ht. rewrite Rabs_Ropp in Ht.
        rewrite (Rabs_pos_eq q Hq0) in Ht. lra. }
    split; intros Hsign.
    + rewrite (Rabs_pos_eq x Hsign) in Hqx.
      apply Rle_dle. apply rnd_nonneg. lra.
    + apply Rle_dle.
      pose proof (rnd_nonneg (- (x + - q)) ltac:(lra)) as H.
      rewrite rnd_opp in H. lra.
Qed.

(** ** Ranges of the link and log-sum functions in binary64 *)

(** [std::exp] of a value that is at most 0 lies in [[0,1]]. *)
Lemma rounded_exp_unit (d : double) :
  (d <=? Fin 0)%D = true ->
  exists e, Rounded.exp d = Fin e /\ representable e /\ 0 <= e <= 1.
Proof.
  destruct d as [r | | |]; intros Hd; try discriminate Hd.
  - assert (Hr : r <= 0).
    { unfold dle in Hd. cbn [dlt deq] in Hd.
      apply orb_true_iff in Hd. destruct Hd as [H | H].
      - apply Rltb_spec in H. lra.
      - apply Reqb_spec in H. lra. }
    pose proof (exp_pos r) as Hpos.
    assert (Hle : exp r <= 1).
    { rewrite <- exp_0. destruct (Req_dec_T r 0) as [-> | Hne]; [lra |].
      left. apply exp_increasing. lra. }
    cbn [Rounded.exp].
    rewrite (round64_small (exp r)) by (rewrite Rabs_pos_eq; lra).
    pose proof (rnd_nonneg (exp r) ltac:(lra)) as H0.
    pose proof (rnd_le_pow2 (exp r) 0 ltac:(lia)) as H1.
    rewrite pow2_0 in H1. specialize (H1 ltac:(lra)).
    exists (rnd (exp r)). split; [reflexivity |]. split; [| lra].
    apply rnd_is_representable. rewrite Rabs_pos_eq by exact H0.
    pose proof pow2_1024_large. lra.
  - exists 0. split; [reflexivity |]. split; [exact representable_0 | lra].
Qed.

(** [std::exp] of any value other than NaN is a non-negative binary64 value
    or [+inf]. *)
Lemma rounded_exp_nonneg (d : double) :
  d <> NaN ->
  (exists e, Rounded.exp d = Fin e /\ representable e /\ 0 <= e)
  \/ Rounded.exp d = PInf.
Proof.
  destruct d as [r | | |]; intros Hd; [| | | contradiction].
  - cbn [Rounded.exp].
    destruct (round64_nonneg (exp r) (Rlt_le _ _ (exp_pos r)))
      as [(e & -> & Hr & _ & He) | [-> _]].
    + left. exists e. repeat split; assumption.
    + right. reflexivity.
  - right. reflexivity.
  - left. exists 0. split; [reflexivity |]. split; [exact representable_0 | lra].
Qed.

Lemma dle_neg_nonpos (v : double) :
  (v <=? Fin 0)%D = true -> (Fin 0 <=? - v)%D = true.
Proof.
  destruct v as [r | | |]; intros H; try discriminate H; try reflexivity.
  unfold dle in H. cbn [dlt deq] in H. apply orb_true_iff in H.
  cbn [dneg]. apply Rle_dle. destruct H as [H | H].
  - apply Rltb_spec in H. lra.
  - apply Reqb_spec in H. lra.
Qed.

Lemma dle_neg_nonneg (v : double) :
  (Fin 0 <=? v)%D = true -> (- v <=? Fin 0)%D = true.
Proof.
  destruct v as [r | | |]; intros H; try discriminate H; try reflexivity.
  unfold dle in H. cbn [dlt deq] in H. apply orb_true_iff in H.
  cbn [dneg]. apply Rle_dle. destruct H as [H | H].
  - apply Rltb_spec in H. lra.
  - apply Reqb_spec in H. lra.
Qed.

Lemma dle_Fin (a b : R) : (Fin a <=? Fin b)%D = true -> a <= b.
Proof.
  unfold dle. cbn [dlt deq]. intros H. apply orb_true_iff in H.
  destruct H as [H | H].
  - apply Rltb_spec in H. lra.
  - apply Reqb_spec in H. lra.
Qed.

(** In binary64 [inv_cloglog] stays within the closed unit interval. *)
Lemma rounded_inv_cloglog_range (x : double) :
  x <> NaN -> exists v, Rounded.inv_cloglog x = Fin v /\ 0 <= v <= 1.
Proof.
  intros Hx. unfold Rounded.inv_cloglog.
  destruct (rounded_exp_nonneg x Hx) as [(e & -> & _ & He) | ->].
  - destruct (rounded_exp_unit (- Fin e)%D) as (v & Hv & _ & Hr).
    + cbn [dneg]. apply Rle_dle. lra.
    + exists v. split; assumption.
  - exists 0. split; [reflexivity | lra].
Qed.

(** In binary64 [binary_log_loss] is never negative on the unit interval. *)
Lemma rounded_binary_log_loss_nonneg (y : Z) (p : R) :
  0 <= p <= 1 -> (Fin 0 <=? Rounded.binary_log_loss y (Fin p))%D = true.
Proof.
  intros Hp. unfold Rounded.binary_log_loss.
  apply dle_neg_nonpos. destruct (y =? 0)%Z.
  - replace (Fin 1.0) with (Fin 1) by real_eq.
    unfold Rounded.sub, Rounded.add. cbn [dneg].
    rewrite (round64_small (1 + - p)) by (rewrite Rabs_pos_eq; lra).
    apply rounded_log_nonpos. split; [apply rnd_nonneg; lra |].
    pose proof (rnd_le_pow2 (1 + - p) 0 ltac:(lia)) as H1.
    rewrite pow2_0 in H1. apply H1. lra.
  - apply rounded_log_nonpos. exact Hp.
Qed.

Lemma rounded_log1p_PInf : Rounded.log1p PInf = Ok PInf.
Proof.
  rewrite (rounded_log1p_by_regime PInf I). cbn [dlt].
  destruct (literal_small 1e-9 ltac:(lra)) as (l9 & Hl9 & _).
  unfold Rounded.log_one_plus, dgt. rewrite Hl9. reflexivity.
Qed.

(** [log1p] of an exponential returns a value that is at least 0. *)
Lemma rounded_log1p_exp_nonneg (d : double) :
  d <> NaN ->
  exists l, Rounded.log1p (Rounded.exp d) = Ok l /\ (Fin 0 <=? l)%D = true.
Proof.
  intros Hd. destruct (rounded_exp_nonneg d Hd) as [(e & -> & Hr & He) | ->].
  - destruct (rounded_log1p_sign e Hr ltac:(lra)) as (l & Hl & Hpos & _).
    exists l. split; [exact Hl | apply Hpos; exact He].
  - exists PInf. split; [exact rounded_log1p_PInf | reflexivity].
Qed.

(** Adding a value that is at least 0 to a binary64 value does not go below
    it. *)
Lemma rounded_add_nonneg (a : R) (l : double) :
  representable a -> (Fin 0 <=? l)%D = true ->
  (Fin a <=? Rounded.add (Fin a) l)%D = true.
Proof.
  intros Ha Hl. destruct l as [r | | |]; try discriminate Hl; [| reflexivity].
  apply dle_Fin in Hl. unfold Rounded.add, round64.
  pose proof (rnd_ge_representable a (a + r) Ha ltac:(lra)) as Hge.
  destruct (Rlt_dec (Rabs (rnd (a + r))) (pow2 1024)) as [H | H].
  - rewrite (Rltb_true _ _ H). apply Rle_dle. exact Hge.
  - rewrite (Rltb_false _ _ H).
    destruct (Rlt_dec 0 (a + r)) as [Hpos | Hnpos].
    + rewrite (Rltb_true _ _ Hpos). reflexivity.
    + exfalso. apply H.
      pose proof (rnd_nonneg (- (a + r)) ltac:(lra)) as Hn.
      rewrite rnd_opp in Hn. rewrite Rabs_left1 by lra.
      destruct Ha as (_ & _ & _ & _ & _ & Hlt).
      apply Rabs_def2 in Hlt. lra.
Qed.

(** Taking a value that is at least 0 away from a binary64 value does not
    go above it. *)
Lemma rounded_sub_nonneg (a : R) (l : double) :
  representable a -> (Fin 0 <=? l)%D = true ->
  (Rounded.sub (Fin a) l <=? Fin a)%D = true.
Proof.
  intros Ha Hl. destruct l as [r | | |]; try discriminate Hl; [| reflexivity].
  apply dle_Fin in Hl. unfold Rounded.sub, Rounded.add, round64. cbn [dneg].
  pose proof (rnd_le_representable a (a + - r) Ha ltac:(lra)) as Hle.
  destruct (Rlt_dec (Rabs (rnd (a + - r))) (pow2 1024)) as [H | H].
  - rewrite (Rltb_true _ _ H). apply Rle_dle. exact Hle.
  - rewrite (Rltb_false _ _ H).
    destruct (Rlt_dec 0 (a + - r)) as [Hpos | Hnpos].
    + exfalso. apply H.
      pose proof (rnd_nonneg (a + - r) ltac:(lra)) as Hn.
      rewrite Rabs_pos_eq by exact Hn.
      destruct Ha as (_ & _ & _ & _ & _ & Hlt).
      apply Rabs_def2 in Hlt. lra.
    + rewrite (Rltb_false _ _ Hnpos). reflexivity.
Qed.

(** In binary64 the pairwise [log_sum_exp] is at least the larger
    argument. *)
Lemma rounded_log_sum_exp_lower (a b : R) :
  representable a -> representable b ->
  exists v, Rounded.log_sum_exp (Fin a) (Fin b) = Ok v
            /\ (Fin (Rmax a b) <=? v)%D = true.
Proof.
  intros Ha Hb. unfold Rounded.log_sum_exp, dgt. cbn [dlt].
  assert (Hsub : forall x y, Rounded.sub (Fin x) (Fin y) <> NaN).
  { intros x y. unfold Rounded.sub, Rounded.add, round64. cbn [dneg].
    repeat match goal with |- context [if ?c then _ else _] => destruct c end;
      discriminate. }
  destruct (Rlt_dec b a) as [Hlt | Hge].
  - rewrite (Rltb_true _ _ Hlt).
    destruct (rounded_log1p_exp_nonneg _ (Hsub b a)) as (l & -> & Hl).
    cbn [bind]. eexists. split; [reflexivity |].
    rewrite Rmax_left by lra. apply rounded_add_nonneg; assumption.
  - rewrite (Rltb_false _ _ Hge).
    destruct (rounded_log1p_exp_nonneg _ (Hsub a b)) as (l & -> & Hl).
    cbn [bind]. eexists. split; [reflexivity |].
    rewrite Rmax_right by lra. apply rounded_add_nonneg; assumption.
Qed.

(** In binary64 the pairwise [log_sum_exp] never throws. *)
Lemma rounded_log_sum_exp_returns (a b : double) :
  returns (Rounded.log_sum_exp a b) = true.
Proof.
  assert (Hexp : forall d, returns (Rounded.log1p (Rounded.exp d)) = true).
  { intros d. destruct d as [r | | |].
    - destruct (rounded_log1p_exp_nonneg (Fin r) ltac:(discriminate))
        as (l & -> & _). reflexivity.
    - cbn [Rounded.exp dexp]. rewrite rounded_log1p_PInf. reflexivity.
    - destruct (rounded_log1p_exp_nonneg NInf ltac:(discriminate))
        as (l & -> & _). reflexivity.
    - cbn [Rounded.exp dexp]. rewrite (rounded_log1p_by_regime NaN I).
      reflexivity. }
  unfold Rounded.log_sum_exp. destruct (a >? b)%D.
  - specialize (Hexp (Rounded.sub b a)).
    destruct (Rounded.log1p _); try discriminate Hexp. reflexivity.
  - specialize (Hexp (Rounded.sub a b)).
    destruct (Rounded.log1p _); try discriminate Hexp. reflexivity.
Qed.

(** In binary64 [log_inv_logit] returns a value that is at most 0. *)
Lemma rounded_log_inv_logit_nonpos (u : R) :
  representable u ->
  exists v, Rounded.log_inv_logit (Fin u) = Ok v
            /\ (v <=? Fin 0)%D = true.
Proof.
  intros Hu. unfold Rounded.log_inv_logit. cbn [dlt dneg].
  destruct (Rlt_dec u 0) as [Hneg | Hnneg].
  - rewrite (Rltb_true u 0.0) by lra.
    destruct (rounded_log1p_exp_nonneg (Fin u) ltac:(discriminate))
      as (l & -> & Hl).
    cbn [bind]. eexists. split; [reflexivity |].
    pose proof (rounded_sub_nonneg u l Hu Hl) as Hle.
    destruct (Rounded.sub (Fin u) l) as [r | | |];
      try discriminate Hle; try reflexivity.
    apply dle_Fin in Hle. apply Rle_dle. lra.
  - rewrite (Rltb_false u 0.0) by lra.
    destruct (rounded_log1p_exp_nonneg (Fin (- u)) ltac:(discriminate))
      as (l & -> & Hl).
    cbn [bind]. eexists. split; [reflexivity |].
    apply dle_neg_nonneg. exact Hl.
Qed.

Lemma rounded_log1m_inv_logit_negation (u : double) :
  Rounded.log1m_inv_logit u = Rounded.log_inv_logit (- u).
Proof.
  unfold Rounded.log1m_inv_logit, Rounded.log_inv_logit, dgt.
  destruct u as [r | | |]; cbn [dneg dlt]; try reflexivity.
  destruct (Rlt_dec 0 r) as [Hpos | Hnpos].
  - rewrite (Rltb_true 0.0 r), (Rltb_true (- r) 0.0) by lra. reflexivity.
  - rewrite (Rltb_false 0.0 r), (Rltb_false (- r) 0.0) by lra.
    rewrite Ropp_involutive. reflexivity.
Qed.

Lemma round64_not_nan (z : R) : round64 z <> NaN.
Proof.
  unfold round64.
  repeat match goal with |- context [if ?c then _ else _] => destruct c end;
    discriminate.
Qed.

(** The argument of [inv_logit] in [Phi_approx] is never NaN: both of its
    terms have the sign of [x]. *)
Lemma rounded_Phi_approx_argument (x : R) :
  Rounded.add
    (Rounded.mul (literal 0.07056) (Rounded.pow_3 (Fin x)))
    (Rounded.mul (literal 1.5976) (Fin x)) <> NaN.
Proof.
  destruct (literal_small 0.07056 ltac:(lra)) as (c1 & -> & Hc1).
  destruct (literal_small 1.5976 ltac:(lra)) as (c2 & -> & Hc2).
  assert (Hpos : forall c p, 0 < c -> 0 <= p ->
            (exists t, round64 (c * p) = Fin t) \/ round64 (c * p) = PInf).
  { intros c p Hc Hp.
    destruct (round64_nonneg (c * p) ltac:(nra)) as [(t & Ht & _) | [Ht _]];
      [left; exists t; exact Ht | right; exact Ht]. }
  assert (Hneg : forall c p, 0 < c -> p <= 0 ->
            (exists t, round64 (c * p) = Fin t) \/ round64 (c * p) = NInf).
  { intros c p Hc Hp.
    destruct (round64_nonpos (c * p) ltac:(nra)) as [(t & Ht & _) | [Ht _]];
      [left; exists t; exact Ht | right; exact Ht]. }
  cbn [Rounded.pow_3]. unfold Rounded.mul at 2.
  destruct (Rle_dec 0 x) as [Hx | Hx].
  - assert (H3 : 0 <= x ^ 3) by (apply pow_le; exact Hx).
    assert (Ht1 : (exists t, Rounded.mul (Fin c1) (round64 (x ^ 3)) = Fin t)
                  \/ Rounded.mul (Fin c1) (round64 (x ^ 3)) = PInf).
    { destruct (round64_nonneg (x ^ 3) H3) as [(p & -> & _ & _ & Hp) | [-> _]].
      - apply Hpos; lra.
      - right. cbn [Rounded.mul dmul]. unfold scale_inf.
        rewrite Rltb_true by lra. reflexivity. }
    destruct Ht1 as [[t1 ->] | ->],
             (Hpos c2 x ltac:(lra) Hx) as [[t2 ->] | ->];
      try discriminate.
    apply round64_not_nan.
  - assert (H3 : x ^ 3 <= 0).
    { assert (0 <= (- x) ^ 3) by (apply pow_le; lra).
      replace (x ^ 3) with (- (- x) ^ 3) by ring. lra. }
    assert (Ht1 : (exists t, Rounded.mul (Fin c1) (round64 (x ^ 3)) = Fin t)
                  \/ Rounded.mul (Fin c1) (round64 (x ^ 3)) = NInf).
    { destruct (round64_nonpos (x ^ 3) H3) as [(p & -> & _ & _ & Hp) | [-> _]].
      - apply Hneg; lra.
      - right. cbn [Rounded.mul dmul]. unfold scale_inf.
        rewrite Rltb_true by lra. reflexivity. }
    destruct Ht1 as [[t1 ->] | ->],
             (Hneg c2 x ltac:(lra) ltac:(lra)) as [[t2 ->] | ->];
      try discriminate.
    apply round64_not_nan.
Qed.

(** In binary64 [Phi_approx] stays within the closed unit interval. *)
Lemma rounded_Phi_approx_range (x : R) :
  exists v, Rounded.Phi_approx (Fin x) = Fin v /\ 0 <= v <= 1.
Proof.
  unfold Rounded.Phi_approx. apply rounded_inv_logit_range.
  apply rounded_Phi_approx_argument.
Qed.

(** ** Where the bounds are attained in binary64 *)

(** A result of magnitude at most [2^k], [k < 1024], is stored as the
    rounded value, which stays within the same bound. *)
Lemma round64_below (z : R) (k : Z) :
  (-1074 <= k < 1024)%Z -> Rabs z <= pow2 k ->
  round64 z = Fin (rnd z) /\ Rabs (rnd z) <= pow2 k.
Proof.
  intros Hk Hz.
  assert (Hr : Rabs (rnd z) <= pow2 k).
  { destruct (Rle_dec 0 z) as [Hpos | Hneg].
    - rewrite Rabs_pos_eq in Hz by exact Hpos.
      rewrite Rabs_pos_eq by (apply rnd_nonneg; exact Hpos).
      apply rnd_le_pow2; [lia | lra].
    - rewrite Rabs_left in Hz by lra.
      pose proof (rnd_nonneg (- z) ltac:(lra)) as H0.
      pose proof (rnd_le_pow2 (- z) k ltac:(lia) ltac:(lra)) as H1.
      rewrite rnd_opp in H0, H1. rewrite Rabs_left1 by lra. exact H1. }
  split; [| exact Hr].
  apply round64_finite. apply Rle_lt_trans with (1 := Hr). apply pow2_lt. lia.
Qed.

Lemma rounded_log1p_0 : Rounded.log1p (Fin 0) = Ok (Fin 0).
Proof.
  rewrite (rounded_log1p_by_regime (Fin 0) representable_0). cbn [dlt].
  rewrite Rltb_false by lra.
  destruct (literal_small 1e-9 ltac:(lra)) as (l9 & Hl9 & Hb9).
  unfold Rounded.log_one_plus, dgt. rewrite Hl9. cbn [dabs dlt].
  rewrite Rabs_R0, Rltb_false by lra.
  rewrite second_order_absorbed;
    [reflexivity | exact representable_0 | rewrite Rabs_R0; lra].
Qed.

(** Within [1e-16] of 0, on the non-negative side, [log1p] returns its
    argument. *)
Lemma rounded_log1p_tiny (e : R) :
  representable e -> 0 <= e <= 1e-16 -> Rounded.log1p (Fin e) = Ok (Fin e).
Proof.
  intros He Hsmall.
  rewrite (rounded_log1p_by_regime (Fin e) He). cbn [dlt].
  rewrite Rltb_false by lra.
  destruct (literal_small 1e-9 ltac:(lra)) as (l9 & Hl9 & Hb9).
  unfold Rounded.log_one_plus, dgt. rewrite Hl9. cbn [dabs dlt].
  rewrite Rabs_pos_eq, Rltb_false by lra.
  rewrite second_order_absorbed;
    [reflexivity | exact He | rewrite Rabs_pos_eq; lra].
Qed.

(** [log_inv_logit(800)] is 0: [exp(-800)] underflows. *)
Lemma rounded_log_inv_logit_at_800 :
  Rounded.log_inv_logit (Fin 800) = Ok (Fin 0).
Proof.
  unfold Rounded.log_inv_logit. cbn [dlt dneg].
  rewrite Rltb_false by lra.
  rewrite (rounded_exp_underflows 800) by lra.
  rewrite rounded_log1p_0. cbn [bind dneg]. real_eq.
Qed.

(** [log_sum_exp(1, -40)] is 1: the correction term [log1p(exp(-41))] is
    absorbed by the addition. *)
Lemma rounded_log_sum_exp_at_1_m40 :
  Rounded.log_sum_exp (Fin 1) (Fin (-40)) = Ok (Fin 1).
Proof.
  unfold Rounded.log_sum_exp, dgt. cbn [dlt]. rewrite Rltb_true by lra.
  assert (Hsub : Rounded.sub (Fin (-40)) (Fin 1) = Fin (-41)).
  { unfold Rounded.sub, Rounded.add. cbn [dneg].
    replace (-40 + - (1)) with (IZR (-41)) by lra.
    apply round64_representable. apply representable_integer. lia. }
  rewrite Hsub. cbn [Rounded.exp].
  pose proof (exp_pos (-41)) as Hpos.
  assert (Hexp : exp (-41) <= pow2 (-56)).
  { apply Rle_trans with (2 := exp_m40_small). left.
    apply exp_increasing. lra. }
  set (z := exp (-41)) in *.
  pose proof (pow2_pos (-56)) as H56.
  assert (H5654 : pow2 (-56) = pow2 (-54) / 4).
  { change (pow2 (-56)) with (pow2 (-54 - 1 - 1)). rewrite !pow2_pred. lra. }
  pose proof pow2_m54 as H54. pose proof pow2_m53 as H53.
  pose proof pow2_m1075_small as Hs. pose proof pow2_m100 as H100.
  pose proof (pow2_pos (-1075)) as Hs0. pose proof (pow2_pos (-540)) as H540.
  assert (H540' : pow2 (-540) <= pow2 (-100)) by (apply pow2_le; lia).
  assert (Hs1 : pow2 (-1075) <= pow2 (-54) / 4) by nra.
  pose proof (rnd_abs_bound z) as Hb. rewrite (Rabs_pos_eq z) in Hb by lra.
  pose proof (rnd_nonneg z ltac:(lra)) as He0.
  rewrite (Rabs_pos_eq _ He0) in Hb.
  assert (Hfin : Rabs (rnd z) < pow2 1024).
  { rewrite (Rabs_pos_eq _ He0). pose proof pow2_1024_large. nra. }
  rewrite (round64_finite z Hfin).
  rewrite rounded_log1p_tiny;
    [| apply rnd_is_representable; exact Hfin | split; [exact He0 | nra]].
  cbn [bind]. unfold Rounded.add.
  assert (Hsum : rnd (1 + rnd z) = 1).
  { replace (1 + rnd z) with (1 - - rnd z) by lra.
    apply rnd_absorbs; [exact representable_1 |].
    rewrite Rabs_Ropp, Rabs_R1, (Rabs_pos_eq _ He0). nra. }
  rewrite round64_finite; rewrite Hsum;
    [reflexivity | rewrite Rabs_R1; pose proof pow2_1024_large; lra].
Qed.

(** [exp(7)] lies between [2^10] and [2^12]. *)
Lemma exp_7_bounds : pow2 10 <= exp 7 <= pow2 12.
Proof.
  split.
  - rewrite (pow2_IZR 10) by lia.
    replace 7 with (INR 896 * (1 / 128)).
    2:{ rewrite INR_IZR_INZ. change (Z.of_nat 896) with 896%Z. lra. }
    apply Rle_trans with (2 := exp_power_lower (1 / 128) 896 ltac:(lra)).
    assert (H : (1 + 1 / 128) ^ 896 * IZR 128 ^ 896 = IZR 129 ^ 896).
    { rewrite <- Rpow_mult_distr. f_equal. lra. }
    apply (Rmult_le_reg_r (IZR 128 ^ 896)); [apply pow_lt; lra |].
    rewrite H, !pow_IZR, <- mult_IZR. apply IZR_le.
    apply Z.leb_le. vm_compute. reflexivity.
  - replace 7 with (INR 7 * 1).
    2:{ rewrite INR_IZR_INZ. change (Z.of_nat 7) with 7%Z. lra. }
    rewrite exp_power.
    apply Rle_trans with (3 ^ 7).
    + apply pow_incr. split; [left; apply exp_pos | exact exp_le_3].
    + rewrite (pow2_IZR 12) by lia. change (3 ^ 7) with (IZR 3 ^ 7).
      rewrite pow_IZR. apply IZR_le. apply Z.leb_le. reflexivity.
Qed.

(** [inv_cloglog(7)] is 0: [exp(7)] is above 1024 and the exponential of
    its negation underflows. *)
Lemma rounded_inv_cloglog_at_7 : Rounded.inv_cloglog (Fin 7) = Fin 0.
Proof.
  unfold Rounded.inv_cloglog. cbn [Rounded.exp].
  destruct exp_7_bounds as [Hlo Hhi]. pose proof (exp_pos 7) as Hpos.
  destruct (round64_below (exp 7) 12 ltac:(lia)) as [-> _];
    [rewrite Rabs_pos_eq; lra |].
  cbn [dneg]. apply rounded_exp_underflows.
  apply Rle_trans with (pow2 10).
  - rewrite (pow2_IZR 10) by lia. apply (IZR_le 800 (2 ^ 10)). lia.
  - apply rnd_ge_pow2; [lia | exact Hlo].
Qed.

(** [Phi_approx(10)] is 1: the argument handed to [inv_logit] is above
    64. *)
Lemma rounded_Phi_approx_at_10 : Rounded.Phi_approx (Fin 10) = Fin 1.
Proof.
  unfold Rounded.Phi_approx. cbn [Rounded.pow_3].
  destruct (literal_small 0.07056 ltac:(lra)) as (c1 & -> & Hc1).
  destruct (literal_small 1.5976 ltac:(lra)) as (c2 & -> & Hc2).
  replace (10 ^ 3) with (IZR 1000) by (cbn [pow]; lra).
  rewrite (round64_representable _ (representable_integer 1000 ltac:(lia))).
  unfold Rounded.mul.
  assert (H6 : pow2 6 = 64) by (rewrite (pow2_IZR 6) by lia; reflexivity).
  assert (H7 : pow2 7 = 128) by (rewrite (pow2_IZR 7) by lia; reflexivity).
  assert (H3 : pow2 3 = 8) by (rewrite (pow2_IZR 3) by lia; reflexivity).
  assert (H4 : pow2 4 = 16) by (rewrite (pow2_IZR 4) by lia; reflexivity).
  assert (H8 : pow2 8 = 256) by (rewrite (pow2_IZR 8) by lia; reflexivity).
  destruct (round64_below (c1 * 1000) 7 ltac:(lia)) as [-> Ht1];
    [rewrite Rabs_pos_eq; lra |].
  destruct (round64_below (c2 * 10) 4 ltac:(lia)) as [-> Ht2];
    [rewrite Rabs_pos_eq; lra |].
  pose proof (rnd_ge_pow2 (c1 * 1000) 6 ltac:(lia) ltac:(lra)) as Hg1.
  pose proof (rnd_ge_pow2 (c2 * 10) 3 ltac:(lia) ltac:(lra)) as Hg2.
  rewrite Rabs_pos_eq in Ht1, Ht2 by lra.
  unfold Rounded.add.
  destruct (round64_below (rnd (c1 * 1000) + rnd (c2 * 10)) 8 ltac:(lia))
    as [-> _]; [rewrite Rabs_pos_eq; lra |].
  apply rounded_inv_logit_saturates.
  pose proof (rnd_ge_pow2 (rnd (c1 * 1000) + rnd (c2 * 10)) 6 ltac:(lia)
                ltac:(lra)). lra.
Qed.

(** ** Further properties of the link functions *)

Lemma inv_logit_value (a : R) :
  inv_logit (Fin a) = Fin (1 / (1 + exp (- a))).
Proof.
  pose proof (exp_pos (- a)) as Hexp.
  unfold inv_logit. cbn. decide_R. replace 1.0 with 1 by lra. reflexivity.
Qed.

(** X7.  [logit] undoes [inv_logit] on every finite value, and [inv_logit]
    undoes [logit] on the open unit interval. *)
Theorem logit_inv_logit_round_trip :
  (forall a : R, logit (inv_logit (Fin a)) = Fin a)
  /\ (forall p : R, 0 < p < 1 -> inv_logit (logit (Fin p)) = Fin p).
Proof.
  split.
  - intros a. rewrite inv_logit_value. unfold logit.
    pose proof (exp_pos (- a)) as Hexp.
    assert (Hv : 0 < 1 / (1 + exp (- a)) < 1).
    { split.
      - apply Rdiv_lt_0_compat; lra.
      - apply (Rmult_lt_reg_r (1 + exp (- a))); [lra |].
        unfold Rdiv. rewrite Rmult_assoc, Rinv_l by lra. lra. }
    cbn [dsub dneg dadd ddiv]. rewrite Reqb_false by lra.
    assert (Hq : 1 / (1 + exp (- a)) / (1.0 + - (1 / (1 + exp (- a))))
                 = exp a).
    { rewrite exp_Ropp. pose proof (exp_pos a).
      replace 1.0 with 1 by lra. field. split; lra. }
    rewrite Hq. cbn [dlog]. rewrite Rltb_true by apply exp_pos.
    rewrite ln_exp. reflexivity.
  - intros p Hp. unfold logit. cbn [dsub dneg dadd ddiv].
    rewrite Reqb_false by lra.
    assert (Hq : 0 < p / (1.0 + - p)) by (apply Rdiv_lt_0_compat; lra).
    cbn [dlog]. rewrite (Rltb_true _ _ Hq). rewrite inv_logit_value.
    rewrite exp_Ropp, exp_ln by exact Hq. f_equal.
    replace 1.0 with 1 by lra. field. lra.
Qed.

(** An instance of the theorem above, its hypotheses discharged. *)
Lemma logit_inv_logit_round_trip_witness :
  logit (inv_logit (Fin 3)) = Fin 3
  /\ inv_logit (logit (Fin 0.25)) = Fin 0.25.
Proof.
  split.
  - apply (proj1 logit_inv_logit_round_trip).
  - apply (proj2 logit_inv_logit_round_trip). lra.
Defined.

(** X8.  [logit] is finite inside the open unit interval, negative infinity at
    0, positive infinity at 1 and NaN outside the unit interval. *)
Theorem logit_edge_values :
  forall a : R,
    logit (Fin a)
    = if Rltb a 0 then NaN
      else if Reqb a 0 then NInf
      else if Rltb a 1 then Fin (ln (a / (1 - a)))
      else if Reqb a 1 then PInf
      else NaN.
Proof.
  intros a. unfold logit. cbn [dsub dneg dadd ddiv].
  destruct (Rlt_dec a 0) as [Hneg | Hnneg].
  - rewrite (Rltb_true _ _ Hneg), Reqb_false by lra. cbn [dlog].
    assert (Hq : a / (1.0 + - a) < 0).
    { apply Ropp_lt_cancel. rewrite Ropp_0, <- Rdiv_opp_l.
      apply Rdiv_lt_0_compat; lra. }
    rewrite Rltb_false, Rltb_true by lra. reflexivity.
  - rewrite (Rltb_false _ _ Hnneg).
    destruct (Req_dec_T a 0) as [-> | Hne0].
    + rewrite Reqb_false, (Reqb_true 0 0) by lra. cbn [dlog].
      replace (0 / (1.0 + - 0)) with 0 by (field; lra).
      rewrite !Rltb_false by lra. reflexivity.
    + rewrite (Reqb_false a 0 Hne0).
      destruct (Rlt_dec a 1) as [Hlt1 | Hge1].
      * rewrite (Rltb_true _ _ Hlt1), Reqb_false by lra. cbn [dlog].
        assert (Hq : 0 < a / (1.0 + - a)) by (apply Rdiv_lt_0_compat; lra).
        rewrite (Rltb_true _ _ Hq). do 2 f_equal.
        replace 1.0 with 1 by lra. reflexivity.
      * rewrite (Rltb_false _ _ Hge1).
        destruct (Req_dec_T a 1) as [-> | Hne1].
        -- decide_R. unfold scale_inf. decide_R. reflexivity.
        -- rewrite Reqb_false, (Reqb_false a 1) by lra. cbn [dlog].
           assert (Hq : a / (1.0 + - a) < 0).
           { apply Ropp_lt_cancel. rewrite Ropp_0, <- Rdiv_opp_r.
             apply Rdiv_lt_0_compat; lra. }
           rewrite Rltb_false, Rltb_true by lra. reflexivity.
Qed.

(** X9.  As the machine evaluates it, [inv_cloglog] lies within the closed
    unit interval for every finite argument, and the bound 0 is attained
    ([inv_cloglog(7)] is 0); it is 1 at negative infinity and 0 at positive
    infinity. *)
Theorem inv_cloglog_range :
  (forall x : R,
      exists v, Rounded.inv_cloglog (Fin x) = Fin v /\ 0 <= v <= 1)
  /\ Rounded.inv_cloglog (Fin 7) = Fin 0
  /\ Rounded.inv_cloglog NInf = Fin 1
  /\ Rounded.inv_cloglog PInf = Fin 0.
Proof.
  split; [| split; [exact rounded_inv_cloglog_at_7 | split]].
  - intros x. apply rounded_inv_cloglog_range. discriminate.
  - unfold Rounded.inv_cloglog. cbn [Rounded.exp dexp dneg].
    rewrite Ropp_0, exp_0. apply round64_representable.
    exact representable_1.
  - reflexivity.
Qed.

(** X10.  As the machine evaluates it, [Phi_approx] lies within the closed
    unit interval for every finite argument (the argument it hands to
    [inv_logit] is never NaN), and the bound 1 is attained
    ([Phi_approx(10)] is 1). *)
Theorem Phi_approx_range :
  (forall x : R,
      exists v, Rounded.Phi_approx (Fin x) = Fin v /\ 0 <= v <= 1)
  /\ Rounded.Phi_approx (Fin 10) = Fin 1.
Proof.
  split; [exact rounded_Phi_approx_range | exact rounded_Phi_approx_at_10].
Qed.

(** X11.  [fdim] is never negative and never NaN, whatever its arguments, and
    is the difference when the first argument is the larger one. *)
Theorem fdim_never_negative :
  forall a b : double,
    (Fin 0 <=? fdim a b)%D = true
    /\ fdim a b = if (a >? b)%D then (a - b)%D else Fin 0.
Proof.
  intros a b. unfold fdim, dgt, dle.
  destruct a as [x | | |], b as [y | | |]; cbn;
    try (split; [decide_R; reflexivity | real_eq]).
  destruct (Rlt_dec y x) as [H | H].
  - rewrite (Rltb_true _ _ H). cbn. rewrite Rltb_true by lra.
    split; reflexivity.
  - rewrite (Rltb_false _ _ H). cbn. decide_R. split; [reflexivity | real_eq].
Qed.

(** X12.  [step] and [int_step] agree except at zero and at NaN, where [step] is
    1 and [int_step] is 0. *)
Theorem step_and_int_step :
  forall y : double,
    if (y ==? Fin 0)%D || is_nan y
    then step y = 1%Z /\ int_step y = 0%Z
    else step y = int_step y.
Proof.
  intros y. unfold step, int_step, dgt.
  destruct y as [r | | |]; cbn; try (split; reflexivity); try reflexivity.
  rewrite orb_false_r.
  destruct (Req_dec_T r 0) as [-> | Hne].
  - rewrite (Reqb_true 0 0 eq_refl). decide_R. split; reflexivity.
  - rewrite (Reqb_false r 0 Hne).
    destruct (Rlt_dec r 0) as [Hlt | Hge].
    + rewrite (Rltb_true r 0.0), (Rltb_false 0 r) by lra. reflexivity.
    + rewrite (Rltb_false r 0.0), (Rltb_true 0 r) by lra. reflexivity.
Qed.

(** X13.  [lbeta] is symmetric in its arguments. *)
Theorem lbeta_symmetric :
  forall (lgammaR : R -> R) (a b : double),
    lbeta lgammaR a b = lbeta lgammaR b a.
Proof.
  intros lgammaR a b. unfold lbeta.
  rewrite (dadd_comm (lgamma lgammaR a)), (dadd_comm a b). reflexivity.
Qed.

(** X14.  [log2] undoes [exp2] on every finite value, and [exp2] undoes [log2]
    on the positive values. *)
Theorem log2_exp2_round_trip :
  (forall y : R, log2 (exp2 (Fin y)) = Fin y)
  /\ (forall x : R, 0 < x -> exp2 (log2 (Fin x)) = Fin x).
Proof.
  pose proof ln_lt_2 as Hln2.
  assert (H2 : ln 2.0 = ln 2) by (f_equal; lra).
  split.
  - intros y. unfold log2, exp2, pow_2, Rpower. cbn [dlog].
    rewrite (Rltb_true 0 (exp (y * ln 2))) by apply exp_pos.
    rewrite (Rltb_true 0 2.0) by lra. cbn [ddiv].
    rewrite H2, Reqb_false by lra. rewrite ln_exp. f_equal. field. lra.
  - intros x Hx. unfold log2, exp2, pow_2, Rpower. cbn [dlog].
    rewrite (Rltb_true 0 x Hx), (Rltb_true 0 2.0) by lra. cbn [ddiv].
    rewrite H2, Reqb_false by lra. f_equal.
    replace (ln x / ln 2 * ln 2) with (ln x) by (field; lra).
    apply exp_ln. exact Hx.
Qed.

(** An instance of the theorem above, its hypotheses discharged. *)
Lemma log2_exp2_round_trip_witness :
  log2 (exp2 (Fin 10)) = Fin 10 /\ exp2 (log2 (Fin 8)) = Fin 8.
Proof.
  split.
  - apply (proj1 log2_exp2_round_trip).
  - apply (proj2 log2_exp2_round_trip). lra.
Defined.

(** X15.  on non-negative finite arguments [multiply_log] is never NaN, and it
    is 0 whenever the first argument is 0, also at [b = 0]. *)
Theorem multiply_log_never_nan :
  forall a b : R,
    0 <= a -> 0 <= b ->
    is_nan (multiply_log (Fin a) (Fin b)) = false
    /\ multiply_log (Fin 0) (Fin b) = Fin 0.
Proof.
  intros a b Ha Hb. unfold multiply_log. cbn [deq dlog].
  destruct (Req_dec_T b 0) as [-> | Hb0].
  - decide_R. cbn [andb]. split; [| real_eq].
    destruct (Req_dec_T a 0) as [-> | Ha0]; decide_R; [reflexivity |].
    cbn [dmul]. unfold scale_inf. decide_R. reflexivity.
  - rewrite (Reqb_false b 0.0) by lra. cbn [andb].
    rewrite Rltb_true by lra. cbn [dmul]. split; [reflexivity | real_eq].
Qed.

(** An instance of the theorem above, its hypotheses discharged. *)
Lemma multiply_log_never_nan_witness :
  is_nan (multiply_log (Fin 3) (Fin 0)) = false
  /\ multiply_log (Fin 0) (Fin 0) = Fin 0.
Proof.
  apply multiply_log_never_nan; lra.
Defined.

(** X16.  As the machine evaluates it, for a predicted probability in the
    unit interval [binary_log_loss] is never negative: it is 0 for a certain
    right prediction and [+inf] for a certain wrong one. *)
Theorem binary_log_loss_nonnegative :
  (forall (y : Z) (y_hat : R),
      0 <= y_hat <= 1 ->
      (Fin 0 <=? Rounded.binary_log_loss y (Fin y_hat))%D = true)
  /\ Rounded.binary_log_loss 1 (Fin 1) = Fin 0
  /\ Rounded.binary_log_loss 0 (Fin 0) = Fin 0
  /\ Rounded.binary_log_loss 1 (Fin 0) = PInf
  /\ Rounded.binary_log_loss 0 (Fin 1) = PInf.
Proof.
  assert (Hlog1 : Rounded.log (Fin 1) = Fin 0).
  { unfold Rounded.log. rewrite Rltb_true by lra. rewrite ln_1.
    apply round64_representable. exact representable_0. }
  assert (Hlog0 : Rounded.log (Fin 0) = NInf).
  { unfold Rounded.log. rewrite Rltb_false by lra. cbn [dlog].
    rewrite !Rltb_false by lra. reflexivity. }
  split; [exact rounded_binary_log_loss_nonneg |].
  unfold Rounded.binary_log_loss. cbn [Z.eqb].
  replace (Fin 1.0) with (Fin 1) by real_eq.
  unfold Rounded.sub, Rounded.add. cbn [dneg].
  replace (1 + - 0) with 1 by lra. replace (1 + - (1)) with 0 by lra.
  rewrite (round64_representable 1 representable_1),
    (round64_representable 0 representable_0), Hlog1, Hlog0.
  cbn [dneg]. repeat split; try reflexivity; real_eq.
Qed.

(** The prediction [0.25] for either outcome. *)
Lemma binary_log_loss_nonnegative_witness :
  (Fin 0 <=? Rounded.binary_log_loss 1 (Fin 0.25))%D = true
  /\ (Fin 0 <=? Rounded.binary_log_loss 0 (Fin 0.25))%D = true.
Proof.
  split; apply (proj1 binary_log_loss_nonnegative); lra.
Defined.

(** ** Further properties of the [log1p] family *)

(** On a positive argument [log1p] returns a positive value that is at most
    the argument. *)
Lemma log1p_positive (y : R) :
  0 < y ->
  exists l, log1p (Fin y) = Ok (Fin l) /\ 0 < l <= y
            /\ (1e-9 < y -> l = ln (1 + y)).
Proof.
  intros Hy. rewrite log1p_by_regime. cbn [dlt]. rewrite Rltb_false by lra.
  unfold log_one_plus, dgt. cbn [dabs dlt]. rewrite Rabs_right by lra.
  pose proof (ln_one_plus_lt y Hy) as Hln.
  assert (Hln0 : 0 < ln (1 + y)).
  { rewrite <- ln_1. apply ln_increasing; lra. }
  destruct (Rlt_dec 1e-9 y) as [H9 | H9].
  - rewrite (Rltb_true _ _ H9). cbn [dadd dlog]. rewrite Rltb_true by lra.
    eexists. split; [reflexivity |]. split; [lra | reflexivity].
  - rewrite (Rltb_false _ _ H9).
    destruct (Rlt_dec 1e-16 y) as [H16 | H16].
    + rewrite (Rltb_true _ _ H16). cbn [dmul ddiv dsub dneg dadd].
      rewrite Reqb_false by lra.
      eexists. split; [reflexivity |]. split; [nra | intros; lra].
    + rewrite (Rltb_false _ _ H16).
      eexists. split; [reflexivity |]. split; [lra | intros; lra].
Qed.

Lemma log1p_zero : log1p (Fin 0) = Ok (Fin 0).
Proof.
  rewrite log1p_by_regime. cbn [dlt]. rewrite Rltb_false by lra.
  unfold log_one_plus, dgt. cbn [dabs dlt]. rewrite Rabs_right by lra.
  rewrite !Rltb_false by lra. reflexivity.
Qed.

(** [log1p] never throws on the value of an exponential. *)
Lemma log1p_dexp_returns (z : double) :
  exists l, log1p (dexp z) = Ok l.
Proof.
  destruct z as [r | | |]; cbn [dexp].
  - destruct (log1p_positive (exp r) (exp_pos r)) as (l & Hl & _).
    eexists. exact Hl.
  - eexists. rewrite log1p_by_regime. reflexivity.
  - eexists. exact log1p_zero.
  - eexists. rewrite log1p_by_regime. reflexivity.
Qed.

Lemma bind_add_zero (m : result double) :
  (l <- m ;; Ok (Fin 0 + l)%D) = m.
Proof.
  destruct m as [l | |]; cbn [bind]; [rewrite dadd_0_l | |]; reflexivity.
Qed.

(** X17.  [log1p_exp(a)] is [log_sum_exp(0, a)] for every argument, and it
    never throws. *)
Theorem log1p_exp_is_log_sum_exp_with_zero :
  forall a : double,
    log1p_exp a = log_sum_exp (Fin 0) a
    /\ returns (log1p_exp a) = true.
Proof.
  intros a.
  assert (Heq : log1p_exp a = log_sum_exp (Fin 0) a).
  { unfold log1p_exp, log_sum_exp, dgt.
    destruct a as [r | | |]; cbn [dlt].
    - replace (Fin r - Fin 0)%D with (Fin r) by (cbn; real_eq).
      replace (Fin 0 - Fin r)%D with (- Fin r)%D by (cbn; real_eq).
      destruct (Rlt_dec r 0) as [Hneg | Hnneg].
      + rewrite (Rltb_true r 0 Hneg), (Rltb_false 0.0 r) by lra.
        rewrite bind_add_zero. reflexivity.
      + rewrite (Rltb_false r 0 Hnneg).
        destruct (Rlt_dec 0 r) as [Hpos | Hz].
        * rewrite (Rltb_true 0.0 r) by lra. reflexivity.
        * assert (r = 0) by lra. subst r. rewrite (Rltb_false 0.0 0) by lra.
          replace (- Fin 0)%D with (Fin 0) by (cbn; real_eq).
          rewrite bind_add_zero. reflexivity.
    - reflexivity.
    - replace (NInf - Fin 0)%D with NInf by reflexivity.
      rewrite bind_add_zero. reflexivity.
    - reflexivity. }
  split; [exact Heq |].
  unfold log1p_exp. destruct (a >? Fin 0.0)%D.
  - destruct (log1p_dexp_returns (- a)) as [l Hl]. rewrite Hl. reflexivity.
  - destruct (log1p_dexp_returns a) as [l Hl]. rewrite Hl. reflexivity.
Qed.

(** X18.  As the machine evaluates it, the pairwise [log_sum_exp] of two
    finite values is never below the larger one, and can equal it
    ([log_sum_exp(1, -40)] is 1); it never throws, whatever its
    arguments. *)
Theorem log_sum_exp_at_least_larger_argument :
  (forall a b : R,
      representable a -> representable b ->
      exists v, Rounded.log_sum_exp (Fin a) (Fin b) = Ok v
                /\ (Fin (Rmax a b) <=? v)%D = true)
  /\ Rounded.log_sum_exp (Fin 1) (Fin (-40)) = Ok (Fin 1)
  /\ (forall a b : double, returns (Rounded.log_sum_exp a b) = true).
Proof.
  split; [exact rounded_log_sum_exp_lower |].
  split; [exact rounded_log_sum_exp_at_1_m40
         | exact rounded_log_sum_exp_returns].
Qed.

(** The arguments [0.5] and [0.25]. *)
Lemma log_sum_exp_at_least_larger_argument_witness :
  exists v, Rounded.log_sum_exp (Fin 0.5) (Fin 0.25) = Ok v
            /\ (Fin (Rmax 0.5 0.25) <=? v)%D = true.
Proof.
  assert (Hdyadic : forall k : Z, (-1074 <= k <= 0)%Z -> representable (pow2 k)).
  { intros k Hk. exists 1%Z, k. repeat split; try lia; [lra |].
    rewrite Rabs_pos_eq by (left; apply pow2_pos). apply pow2_lt. lia. }
  apply (proj1 log_sum_exp_at_least_larger_argument).
  - replace 0.5 with (pow2 (-1)) by (rewrite pow2_half; lra).
    apply Hdyadic. lia.
  - replace 0.25 with (pow2 (-2))
      by (rewrite (pow2_neg_IZR 2 ltac:(lia) : pow2 (-2) = / IZR (2 ^ 2)); lra).
    apply Hdyadic. lia.
Defined.

Lemma log1m_inv_logit_negation (u : double) :
  log1m_inv_logit u = log_inv_logit (- u).
Proof.
  unfold log1m_inv_logit, log_inv_logit, dgt.
  destruct u as [r | | |]; cbn [dneg dlt]; try reflexivity.
  destruct (Rlt_dec 0 r) as [Hpos | Hnpos].
  - rewrite (Rltb_true 0.0 r), (Rltb_true (- r) 0.0) by lra. reflexivity.
  - rewrite (Rltb_false 0.0 r), (Rltb_false (- r) 0.0) by lra.
    rewrite Ropp_involutive. reflexivity.
Qed.

(** X19.  As the machine evaluates them, for every finite argument
    [log_inv_logit] and [log1m_inv_logit] return, without throwing, a value
    that is at most 0 (never NaN, never positive), and 0 is attained
    ([log_inv_logit(800)] is 0). *)
Theorem log_inv_logit_never_positive :
  (forall u : R,
      representable u ->
      (exists v, Rounded.log_inv_logit (Fin u) = Ok v
                 /\ (v <=? Fin 0)%D = true)
      /\ (exists v, Rounded.log1m_inv_logit (Fin u) = Ok v
                    /\ (v <=? Fin 0)%D = true))
  /\ Rounded.log_inv_logit (Fin 800) = Ok (Fin 0).
Proof.
  split; [| exact rounded_log_inv_logit_at_800].
  intros u Hu. split; [apply rounded_log_inv_logit_nonpos; exact Hu |].
  rewrite rounded_log1m_inv_logit_negation. cbn [dneg].
  apply rounded_log_inv_logit_nonpos. apply representable_opp. exact Hu.
Qed.

(** The argument -3. *)
Lemma log_inv_logit_never_positive_witness :
  (exists v, Rounded.log_inv_logit (Fin (-3)) = Ok v
             /\ (v <=? Fin 0)%D = true)
  /\ (exists v, Rounded.log1m_inv_logit (Fin (-3)) = Ok v
                /\ (v <=? Fin 0)%D = true).
Proof.
  apply (proj1 log_inv_logit_never_positive).
  apply (representable_integer (-3)). lia.
Defined.

(** X20.  [log1m_inv_logit(u)] is [log_inv_logit(-u)] for every argument. *)
Theorem log1m_inv_logit_is_log_inv_logit_of_negation :
  forall u : double, log1m_inv_logit u = log_inv_logit (- u).
Proof. exact log1m_inv_logit_negation. Qed.


(** X21.  where the exponential stays above the Taylor threshold [1e-9],
    [log_inv_logit(u)] is the logarithm of [inv_logit(u)]. *)
Theorem log_inv_logit_is_log_of_inv_logit :
  forall u : R,
    1e-9 < exp (- Rabs u) ->
    log_inv_logit (Fin u) = Ok (dlog (inv_logit (Fin u))).
Proof.
  intros u Hu. rewrite inv_logit_value.
  pose proof (exp_pos (- u)) as HE. pose proof (exp_pos u) as HE'.
  assert (Hq : 0 < 1 / (1 + exp (- u))) by (apply Rdiv_lt_0_compat; lra).
  cbn [dlog]. rewrite (Rltb_true _ _ Hq).
  assert (Hrhs : ln (1 / (1 + exp (- u))) = - ln (1 + exp (- u))).
  { unfold Rdiv. rewrite Rmult_1_l. apply ln_Rinv. lra. }
  rewrite Hrhs. unfold log_inv_logit. cbn [dlt dneg dexp].
  destruct (Rlt_dec u 0) as [Hneg | Hnneg].
  - rewrite (Rltb_true u 0.0) by lra.
    rewrite Rabs_left, Ropp_involutive in Hu by lra.
    destruct (log1p_positive _ HE') as (l & Hl & _ & Hexact).
    rewrite Hl, (Hexact Hu). cbn [bind dsub dneg dadd]. do 2 f_equal.
    assert (Hsplit : 1 + exp u = exp u * (1 + exp (- u))).
    { rewrite exp_Ropp. field. lra. }
    rewrite Hsplit, ln_mult, ln_exp by lra. lra.
  - rewrite (Rltb_false u 0.0) by lra.
    rewrite Rabs_right in Hu by lra.
    destruct (log1p_positive _ HE) as (l & Hl & _ & Hexact).
    rewrite Hl, (Hexact Hu). reflexivity.
Qed.

(** An instance of the theorem above, its hypotheses discharged. *)
Lemma log_inv_logit_is_log_of_inv_logit_witness :
  log_inv_logit (Fin 0) = Ok (dlog (inv_logit (Fin 0))).
Proof.
  apply log_inv_logit_is_log_of_inv_logit.
  rewrite Rabs_R0, Ropp_0, exp_0. lra.
Defined.

Lemma rounded_log1p_at_m1 : Rounded.log1p (Fin (-1)) = Ok NInf.
Proof.
  rewrite (rounded_log1p_by_regime (Fin (-1))
             (representable_integer (-1) ltac:(lia))).
  cbn [dlt]. rewrite Rltb_false by lra.
  destruct (literal_small 1e-9 ltac:(lra)) as (l9 & Hl9 & Hb9).
  unfold Rounded.log_one_plus, dgt. rewrite Hl9. cbn [dabs dlt].
  rewrite Rltb_true by (rewrite Rabs_left by lra; lra).
  replace (Fin 1.0) with (Fin 1) by real_eq.
  unfold Rounded.add. replace (1 + -1) with 0 by lra.
  rewrite (round64_representable 0 representable_0).
  unfold Rounded.log. rewrite Rltb_false by lra. cbn [dlog].
  rewrite !Rltb_false by lra. reflexivity.
Qed.

(** X22.  As the machine evaluates it, [log1p] keeps the sign of its
    argument wherever it returns: the value is at least 0 for [x >= 0] and at
    most 0 for [-1 <= x <= 0], in each of the three regimes; it is 0 at 0
    and negative infinity at -1. *)
Theorem log1p_keeps_sign :
  (forall x : R,
      representable x -> -1 <= x ->
      exists v, Rounded.log1p (Fin x) = Ok v
                /\ (0 <= x -> (Fin 0 <=? v)%D = true)
                /\ (x <= 0 -> (v <=? Fin 0)%D = true))
  /\ Rounded.log1p (Fin 0) = Ok (Fin 0)
  /\ Rounded.log1p (Fin (-1)) = Ok NInf.
Proof.
  split; [exact rounded_log1p_sign |].
  split; [exact rounded_log1p_0 | exact rounded_log1p_at_m1].
Qed.

(** The argument [-0.5], in the logarithm regime. *)
Lemma log1p_keeps_sign_witness :
  exists v, Rounded.log1p (Fin (- pow2 (-1))) = Ok v
            /\ (0 <= - pow2 (-1) -> (Fin 0 <=? v)%D = true)
            /\ (- pow2 (-1) <= 0 -> (v <=? Fin 0)%D = true).
Proof.
  apply (proj1 log1p_keeps_sign).
  - apply representable_opp. exists 1%Z, (-1)%Z.
    repeat split; try lia; [lra |].
    rewrite Rabs_pos_eq by (left; apply pow2_pos). apply pow2_lt. lia.
  - rewrite pow2_half. lra.
Defined.

(** ** Further properties of [lmgamma] and [binomial_coefficient_log] *)

Lemma lmgamma_fold_value (lgammaR : R -> R) (x : R) (js : list Z) :
  Forall (fun j => 0 < x + (1 - IZR j) / 2) js ->
  forall acc : R,
    fold_left
      (fun result j =>
         (result + lgamma lgammaR (Fin x + (Fin 1.0 - of_Z j) / Fin 2.0))%D)
      js (Fin acc)
    = Fin (acc + Rsum (map (fun j => lgammaR (x + (1 - IZR j) / 2)) js)).
Proof.
  induction 1 as [| j js Hj Hjs IH]; intros acc.
  - cbn. real_eq.
  - assert (Hstep :
              lgamma lgammaR (Fin x + (Fin 1.0 - of_Z j) / Fin 2.0)%D
              = Fin (lgammaR (x + (1 - IZR j) / 2))).
    { unfold of_Z, lgamma, is_pole. cbn [dsub dneg dadd ddiv].
      rewrite (Reqb_false 2.0 0) by lra. cbn [dadd].
      rewrite Rltb_true by lra. cbn [negb andb]. do 2 f_equal. lra. }
    cbn [fold_left]. rewrite Hstep. cbn [dadd]. rewrite IH.
    unfold Rsum. cbn [map fold_right]. f_equal. lra.
Qed.

(** X23.  [lmgamma] computes the documented formula, a finite value, when every
    log-gamma argument is positive and [k * (k - 1)] fits an
    [unsigned int]. *)
Theorem lmgamma_computes_documented_formula :
  forall (lgammaR : R -> R) (k : Z) (x : R),
    (0 <= k)%Z -> (k * (k - 1) < 2 ^ 32)%Z -> IZR k - 1 < 2 * x ->
    lmgamma lgammaR k (Fin x) = Fin (lmgamma_formula lgammaR k x).
Proof.
  intros lgammaR k x Hk Hwrap Hx.
  unfold lmgamma, lmgamma_formula, LOG_PI_OVER_FOUR, of_Z. cbn [dmul].
  assert (Hconst : uint (k * uint (k - 1)) = (k * (k - 1))%Z).
  { destruct (Z.eq_dec k 0) as [-> | Hne]; [reflexivity |].
    rewrite (uint_small (k - 1)) by nia. apply uint_small. nia. }
  rewrite Hconst, lmgamma_fold_value.
  - f_equal. replace 4.0 with 4 by lra. reflexivity.
  - rewrite Forall_forall. intros j Hj.
    apply in_map_iff in Hj. destruct Hj as (i & <- & Hi).
    apply in_seq in Hi.
    assert (Hjk : (Z.of_nat i <= k)%Z) by lia.
    apply IZR_le in Hjk. lra.
Qed.

(** An instance of the theorem above, its hypotheses discharged. *)
Lemma lmgamma_computes_documented_formula_witness :
  lmgamma reference_lgammaR 3 (Fin 2)
  = Fin (lmgamma_formula reference_lgammaR 3 2).
Proof.
  apply lmgamma_computes_documented_formula; [lia | lia | lra].
Defined.

Lemma dsub_swap (a b c : double) : (a - b - c = a - c - b)%D.
Proof.
  unfold dsub.
  rewrite <- !dadd_assoc, (dadd_comm (- b)%D (- c)%D). reflexivity.
Qed.

(** X24.  In exact arithmetic, below the cutoff, [N < 1000],
    [binomial_coefficient_log] is symmetric: choosing [n] and choosing
    [N - n] give the same value. *)
Theorem binomial_coefficient_log_symmetric_below_cutoff :
  forall (lgammaR : R -> R) (N n : R),
    N < 1000 ->
    binomial_coefficient_log lgammaR (Fin N) (Fin n)
    = binomial_coefficient_log lgammaR (Fin N) (Fin N - Fin n)%D.
Proof.
  intros lgammaR N n HN.
  rewrite !binomial_coefficient_log_double. cbn [dsub dneg dadd dlt].
  rewrite (Rltb_true N 1000 HN). cbn [orb]. f_equal.
  unfold log_gamma_form. cbn [dsub dneg dadd].
  replace (N + - (N + - n) + 1) with (n + 1) by lra.
  apply dsub_swap.
Qed.

(** An instance of the theorem above, its hypotheses discharged. *)
Lemma binomial_coefficient_log_symmetric_below_cutoff_witness :
  binomial_coefficient_log reference_lgammaR (Fin 10) (Fin 3)
  = binomial_coefficient_log reference_lgammaR (Fin 10) (Fin 10 - Fin 3)%D.
Proof.
  apply binomial_coefficient_log_symmetric_below_cutoff. lra.
Defined.

(** ** Further properties of the evaluators *)

(** On valid [int] arguments [binomial_coefficient_log] returns a finite
    value whenever [12 * N] does not overflow. *)
Lemma binomial_coefficient_log_int_finite (lgammaR : R -> R) (n N : Z) :
  (0 <= n <= N)%Z -> (12 * N <= INT_MAX)%Z ->
  exists v, binomial_coefficient_log lgammaR N n = Ok (Fin v).
Proof.
  intros Hn HN.
  assert (Hlg : forall z, (0 <= z)%Z ->
            lgamma lgammaR (of_Z z + Fin 1.0)%D = Fin (lgammaR (IZR z + 1.0))).
  { intros z Hz. apply IZR_le in Hz. unfold of_Z, lgamma, is_pole.
    cbn [dadd]. rewrite Rltb_true by lra. reflexivity. }
  destruct (Z_lt_le_dec (N - n) 1000) as [Hlt | Hge].
  - unfold binomial_coefficient_log.
    cbn [nsub ndiv nmul lit to_double Number_int].
    rewrite (int_result_in_range (N - n)%Z)
      by (unfold INT_MIN, INT_MAX in *; lia).
    cbn [bind]. unfold of_Z at 2. cbn [dlt].
    rewrite (Rltb_true (IZR (N - n)) 1000) by (apply IZR_lt; exact Hlt).
    rewrite orb_true_r, !Hlg by lia. cbn [dsub dneg dadd].
    eexists. reflexivity.
  - rewrite binomial_coefficient_log_int_above_cutoff by lia.
    rewrite Hlg by lia.
    assert (Hq : (1 <= Z.quot N (N - n))%Z).
    { rewrite Z.quot_div_nonneg by lia. apply Z.div_le_lower_bound; lia. }
    apply IZR_le in Hq. apply IZR_le in Hge.
    unfold of_Z. cbn [dlog]. rewrite !Rltb_true by lra.
    cbn [dmul dadd dsub dneg]. eexists. reflexivity.
Qed.

Lemma log1m_at_one : log1m (Fin 1) = Ok NInf.
Proof.
  unfold log1m. rewrite log1p_by_regime. cbn [dneg dlt].
  rewrite Rltb_false by lra. unfold log_one_plus, dgt. cbn [dabs dlt].
  rewrite Rabs_left by lra. rewrite Rltb_true by lra. cbn [dadd dlog].
  rewrite !Rltb_false by lra. reflexivity.
Qed.

Lemma log1m_at_zero : exists z, log1m (Fin 0) = Ok (Fin z).
Proof. apply log1m_finite. lra. Qed.

Lemma dadd_nan_r (a : double) : (a + NaN)%D = NaN.
Proof. destruct a; reflexivity. Qed.

Section BinomialLogBoundary.

Variable lgammaR : R -> R.
Variable policy : Policy.
Variable propto : bool.
Variable T_prob : scalar_type.
Hypothesis kernel_included : include_summand propto [T_prob] = true.

(** The accumulator before the [theta]-dependent summand is finite. *)
Lemma binomial_log_first_summand_finite (n N : Z) :
  (0 <= n <= N)%Z -> (12 * N <= INT_MAX)%Z ->
  exists lp0 : R,
    (if include_summand propto [] then
       b <- binomial_coefficient_log lgammaR N n ;; Ok (Fin 0.0 + b)%D
     else Ok (Fin 0.0)) = Ok (Fin lp0).
Proof.
  intros Hn HN. destruct (include_summand propto []).
  - destruct (binomial_coefficient_log_int_finite lgammaR n N Hn HN) as [v Hv].
    rewrite Hv. cbn [bind dadd]. eexists. reflexivity.
  - eexists. reflexivity.
Qed.

Lemma binomial_log_certain_success_nan (N : Z) :
  (0 <= N)%Z -> (12 * N <= INT_MAX)%Z ->
  binomial_log lgammaR policy propto T_prob N N (Fin 1) = Ok (Value NaN).
Proof.
  intros HN Hmax. rewrite binomial_log_valid by (lia || lra).
  destruct (binomial_log_first_summand_finite N N ltac:(lia) Hmax) as [lp0 H0].
  rewrite H0, kernel_included. cbn [bind nsub Number_int].
  rewrite Z.sub_diag. change (int_result 0) with (Ok 0%Z).
  rewrite log1m_at_one. cbn [bind]. unfold of_Z at 2. cbn [dmul].
  unfold scale_inf. rewrite !Rltb_false by lra.
  rewrite dadd_nan_r. reflexivity.
Qed.

Lemma binomial_log_impossible_neg_infinity (n N : Z) (theta : R) :
  (0 <= n <= N)%Z -> (12 * N <= INT_MAX)%Z ->
  (theta = 0 /\ (0 < n)%Z) \/ (theta = 1 /\ (n < N)%Z) ->
  binomial_log lgammaR policy propto T_prob n N (Fin theta) = Ok (Value NInf).
Proof.
  intros Hn Hmax Hcase.
  rewrite binomial_log_valid by (lia || (destruct Hcase as [[-> _] | [-> _]]; lra)).
  destruct (binomial_log_first_summand_finite n N Hn Hmax) as [lp0 H0].
  rewrite H0, kernel_included. cbn [bind nsub Number_int].
  rewrite (int_result_in_range (N - n)%Z)
    by (unfold INT_MIN, INT_MAX in *; lia).
  cbn [bind].
  destruct Hcase as [[-> Hpos] | [-> Hlt]].
  - destruct log1m_at_zero as [z Hz]. rewrite Hz. cbn [bind].
    apply IZR_lt in Hpos.
    unfold multiply_log, of_Z. cbn [deq dlog].
    rewrite (Reqb_true 0 0.0), (Reqb_false (IZR n) 0.0) by lra.
    cbn [andb]. rewrite !Rltb_false by lra.
    cbn [dmul]. unfold scale_inf. rewrite Rltb_true by lra. reflexivity.
  - rewrite log1m_at_one. cbn [bind].
    assert (HNn : (0 < N - n)%Z) by lia. apply IZR_lt in HNn.
    unfold multiply_log, of_Z. cbn [deq dlog].
    rewrite (Reqb_false 1 0.0) by lra. cbn [andb].
    rewrite (Rltb_true 0 1) by lra.
    cbn [dmul]. unfold scale_inf. rewrite Rltb_true by lra. reflexivity.
Qed.

End BinomialLogBoundary.

(** X25.  at [theta = 1] with [n = N], the certain outcome, [binomial_log]
    returns NaN whenever the [theta]-dependent summand is included: the
    product [(N - n) * log1m(theta)] is [0 * (-inf)]. *)
Theorem binomial_log_nan_for_certain_outcome :
  forall (lgammaR : R -> R) (policy : Policy) (propto : bool)
         (T_prob : scalar_type) (N : Z),
    include_summand propto [T_prob] = true ->
    (0 <= N)%Z -> (12 * N <= INT_MAX)%Z ->
    binomial_log lgammaR policy propto T_prob N N (Fin 1) = Ok (Value NaN).
Proof.
  intros. apply binomial_log_certain_success_nan; assumption.
Qed.

(** An instance of the theorem above, its hypotheses discharged. *)
Lemma binomial_log_nan_for_certain_outcome_witness :
  binomial_log reference_lgammaR default_policy false plain 5 5 (Fin 1)
  = Ok (Value NaN).
Proof.
  apply binomial_log_nan_for_certain_outcome;
    [reflexivity | lia | unfold INT_MAX; lia].
Defined.

(** X26.  for an outcome of probability zero ([theta = 0] with [n > 0], or
    [theta = 1] with [n < N]) [binomial_log] returns negative infinity
    whenever the [theta]-dependent summand is included. *)
Theorem binomial_log_neg_infinity_for_impossible_outcome :
  forall (lgammaR : R -> R) (policy : Policy) (propto : bool)
         (T_prob : scalar_type) (n N : Z) (theta : R),
    include_summand propto [T_prob] = true ->
    (0 <= n <= N)%Z -> (12 * N <= INT_MAX)%Z ->
    (theta = 0 /\ (0 < n)%Z) \/ (theta = 1 /\ (n < N)%Z) ->
    binomial_log lgammaR policy propto T_prob n N (Fin theta)
    = Ok (Value NInf).
Proof.
  intros. apply binomial_log_impossible_neg_infinity; assumption.
Qed.

(** An instance of the theorem above, its hypotheses discharged. *)
Lemma binomial_log_neg_infinity_for_impossible_outcome_witness :
  binomial_log reference_lgammaR default_policy false plain 2 5 (Fin 0)
  = Ok (Value NInf).
Proof.
  apply binomial_log_neg_infinity_for_impossible_outcome;
    [reflexivity | lia | unfold INT_MAX; lia | left; split; [reflexivity | lia]].
Defined.

Lemma up_0 : up 0 = 1%Z.
Proof. symmetry. apply tech_up; lra. Qed.

(** At [x = (k - 1)/2] the last log-gamma argument of [lmgamma] is the pole
    0, and the result is positive infinity. *)
Lemma lmgamma_at_boundary (lgammaR : R -> R) (k : Z) :
  (1 <= k)%Z ->
  lmgamma lgammaR k (Fin (0.5 * IZR (k - 1))) = PInf.
Proof.
  intros Hk. unfold lmgamma.
  change (of_Z (uint (k * uint (k - 1))) * LOG_PI_OVER_FOUR)%D
    with (Fin (IZR (uint (k * uint (k - 1))) * (ln PI / 4.0))).
  replace (Z.to_nat k) with (Z.to_nat (k - 1) + 1)%nat by lia.
  rewrite seq_app, map_app, fold_left_app. cbn [seq map fold_left].
  destruct (lmgamma_fold_finite lgammaR (0.5 * IZR (k - 1))
              (map Z.of_nat (seq 1 (Z.to_nat (k - 1))))) with
    (acc := IZR (uint (k * uint (k - 1))) * (ln PI / 4.0)) as [v Hv].
  { rewrite Forall_forall. intros j Hj.
    apply in_map_iff in Hj. destruct Hj as (i & <- & Hi).
    apply in_seq in Hi.
    assert (Hjk : (Z.of_nat i <= k - 1)%Z) by lia.
    apply IZR_le in Hjk. rewrite minus_IZR in *. lra. }
  rewrite Hv.
  replace (Z.of_nat (1 + Z.to_nat (k - 1))) with k by lia.
  unfold lgamma, is_pole, of_Z. cbn [dsub dneg dadd ddiv].
  rewrite (Reqb_false 2.0 0) by lra. cbn [dadd].
  replace (0.5 * IZR (k - 1) + (1.0 + - IZR k) / 2.0) with 0
    by (rewrite minus_IZR; lra).
  rewrite up_0, Rltb_false, Reqb_true by lra. reflexivity.
Qed.

Lemma neg_infinity_or_nan_add (lp t : double) :
  neg_infinity_or_nan lp = true ->
  neg_infinity_or_nan (lp + t)%D = true
  /\ neg_infinity_or_nan (lp - t)%D = true.
Proof. destruct lp, t; cbn; intros H; try discriminate; split; reflexivity. Qed.

Section WishartLogBoundary.

Variable lgammaR : R -> R.
Variable linalg : LinearAlgebra.
Variable policy : Policy.

Lemma wishart_log_checks_pass (propto : bool) (T_y T_dof T_scale : scalar_type)
  (W S : matrix) (k : Z) (nu : R) :
  (1 <= k < 2 ^ 32)%Z ->
  rows W = k -> cols W = k -> rows S = k -> cols S = k ->
  IZR (k - 1) <= nu ->
  wishart_log lgammaR linalg policy propto T_y T_dof T_scale W (Fin nu) S
  = (let lp := Fin 0.0 in
     let lp := if include_summand propto [T_dof] then
                 (lp + Fin nu * of_Z k * NEG_LOG_TWO_OVER_TWO)%D
               else lp in
     let lp := if include_summand propto [T_dof] then
                 (lp - lmgamma lgammaR k (Fin 0.5 * Fin nu))%D
               else lp in
     let lp := if include_summand propto [T_dof; T_scale] then
                 (lp - multiply_log (Fin 0.5 * Fin nu)
                                    (determinant linalg S))%D
               else lp in
     let lp := if include_summand propto [T_scale; T_y] then
                 (lp - Fin 0.5
                       * dabs (trace linalg
                                 (multiply linalg (inverse linalg S) W)))%D
               else lp in
     let lp := if include_summand propto [T_y; T_dof] then
                 if (Fin nu !=? of_Z (uint (k + 1)))%D then
                   (lp + multiply_log
                           (Fin 0.5 * (Fin nu - (of_Z k + Fin 1.0)))
                           (determinant linalg W))%D
                 else lp
               else lp in
     Ok (Value lp)).
Proof.
  intros Hk HWr HWc HSr HSc Hnu. unfold wishart_log, checked.
  unfold check_greater_or_equal, check_size_match, validate.
  rewrite HWr, HWc, HSr, HSc. rewrite (uint_small k) by lia.
  rewrite (uint_small (k - 1)) by lia. unfold dge, of_Z at 1.
  rewrite (Rle_dle _ _ Hnu), Z.eqb_refl. reflexivity.
Qed.

Lemma wishart_log_all_plain_zero (W S : matrix) (k : Z) (nu : R) :
  (1 <= k < 2 ^ 32)%Z ->
  rows W = k -> cols W = k -> rows S = k -> cols S = k ->
  IZR (k - 1) <= nu ->
  wishart_log lgammaR linalg policy true plain plain plain W (Fin nu) S
  = Ok (Value (Fin 0)).
Proof.
  intros. rewrite (wishart_log_checks_pass _ _ _ _ W S k nu) by assumption.
  cbn [include_summand negb orb existsb is_constant]. real_eq.
Qed.

Lemma wishart_log_boundary_not_finite (propto : bool)
  (T_y T_dof T_scale : scalar_type) (W S : matrix) (k : Z) :
  include_summand propto [T_dof] = true ->
  (1 <= k < 2 ^ 32)%Z ->
  rows W = k -> cols W = k -> rows S = k -> cols S = k ->
  exists lp,
    wishart_log lgammaR linalg policy propto T_y T_dof T_scale
                W (of_Z (k - 1)) S
    = Ok (Value lp)
    /\ neg_infinity_or_nan lp = true.
Proof.
  intros Hdof Hk HWr HWc HSr HSc. unfold of_Z at 1.
  rewrite (wishart_log_checks_pass _ _ _ _ W S k (IZR (k - 1)))
    by (assumption || lra).
  rewrite Hdof. cbn zeta. eexists. split; [reflexivity |].
  assert (H2 : neg_infinity_or_nan
                 (Fin 0.0 + Fin (IZR (k - 1)) * of_Z k * NEG_LOG_TWO_OVER_TWO
                  - lmgamma lgammaR k (Fin 0.5 * Fin (IZR (k - 1))))%D = true).
  { cbn [dmul]. rewrite lmgamma_at_boundary by lia. reflexivity. }
  revert H2. generalize
    (Fin 0.0 + Fin (IZR (k - 1)) * of_Z k * NEG_LOG_TWO_OVER_TWO
     - lmgamma lgammaR k (Fin 0.5 * Fin (IZR (k - 1))))%D.
  intros lp2 H2.
  assert (H3 : neg_infinity_or_nan
                 (if include_summand propto [T_dof; T_scale]
                  then (lp2 - multiply_log (Fin 0.5 * Fin (IZR (k - 1)))
                                           (determinant linalg S))%D
                  else lp2) = true).
  { destruct (include_summand propto [T_dof; T_scale]);
      [apply neg_infinity_or_nan_add |]; exact H2. }
  revert H3. generalize
    (if include_summand propto [T_dof; T_scale]
     then (lp2 - multiply_log (Fin 0.5 * Fin (IZR (k - 1)))
                              (determinant linalg S))%D
     else lp2).
  intros lp3 H3.
  assert (H4 : neg_infinity_or_nan
                 (if include_summand propto [T_scale; T_y]
                  then (lp3 - Fin 0.5
                              * dabs (trace linalg
                                        (multiply linalg (inverse linalg S) W)))%D
                  else lp3) = true).
  { destruct (include_summand propto [T_scale; T_y]);
      [apply neg_infinity_or_nan_add |]; exact H3. }
  revert H4. generalize
    (if include_summand propto [T_scale; T_y]
     then (lp3 - Fin 0.5
                 * dabs (trace linalg (multiply linalg (inverse linalg S) W)))%D
     else lp3).
  intros lp4 H4.
  destruct (include_summand propto [T_y; T_dof]); [| exact H4].
  destruct (Fin (IZR (k - 1)) !=? of_Z (uint (k + 1)))%D; [| exact H4].
  apply neg_infinity_or_nan_add. exact H4.
Qed.

End WishartLogBoundary.

(** X27.  with [propto = true] and plain types for [W], [nu] and [S],
    [wishart_log] returns exactly 0 on every input that passes its checks. *)
Theorem wishart_log_propto_plain_is_zero :
  forall (lgammaR : R -> R) (linalg : LinearAlgebra) (policy : Policy)
         (W S : matrix) (k : Z) (nu : R),
    (1 <= k < 2 ^ 32)%Z ->
    rows W = k -> cols W = k -> rows S = k -> cols S = k ->
    IZR (k - 1) <= nu ->
    wishart_log lgammaR linalg policy true plain plain plain W (Fin nu) S
    = Ok (Value (Fin 0)).
Proof.
  intros. eapply wishart_log_all_plain_zero; eassumption.
Qed.

(** An instance of the theorem above, its hypotheses discharged. *)
Lemma wishart_log_propto_plain_is_zero_witness :
  wishart_log reference_lgammaR reference_linalg default_policy
              true plain plain plain (identity 2) (Fin 4) (identity 2)
  = Ok (Value (Fin 0)).
Proof.
  apply (wishart_log_propto_plain_is_zero _ _ _ _ _ 2);
    try reflexivity; [lia | cbn; lra].
Defined.

(** X28.  [nu = k - 1] passes the check of [wishart_log] (which tests
    [nu >= k - 1]), and the result is then negative infinity or NaN whenever
    the [nu]-dependent summands are included: [lmgamma(k, nu/2)] evaluates
    log-gamma at its pole 0. *)
Theorem wishart_log_at_lower_bound_of_nu :
  forall (lgammaR : R -> R) (linalg : LinearAlgebra) (policy : Policy)
         (propto : bool) (T_y T_dof T_scale : scalar_type)
         (W S : matrix) (k : Z),
    include_summand propto [T_dof] = true ->
    (1 <= k < 2 ^ 32)%Z ->
    rows W = k -> cols W = k -> rows S = k -> cols S = k ->
    exists lp,
      wishart_log lgammaR linalg policy propto T_y T_dof T_scale
                  W (of_Z (k - 1)) S
      = Ok (Value lp)
      /\ neg_infinity_or_nan lp = true.
Proof.
  intros. eapply wishart_log_boundary_not_finite; eassumption.
Qed.

(** An instance of the theorem above, its hypotheses discharged. *)
Lemma wishart_log_at_lower_bound_of_nu_witness :
  exists lp,
    wishart_log reference_lgammaR reference_linalg default_policy
                false plain plain plain (identity 2) (of_Z (2 - 1)) (identity 2)
    = Ok (Value lp)
    /\ neg_infinity_or_nan lp = true.
Proof.
  apply wishart_log_at_lower_bound_of_nu; try reflexivity; lia.
Defined.
